(** * Real-time speech translation pipeline: model and verified properties

  A shallow embedding of the four core components of the pipeline,

  - [Segmenter]: [AudioProcessor] of [services/audio_processor.py],
    with [Streaming], the queueing side of [StreamingAudioProcessor],
  - [T2V]: the streaming loop of [T2VClient.synthesize_text] and the
    connection that [T2VService.text_to_speech] puts around it
    ([api_clients/t2v_client.py]),
  - [MiniMax]: [MiniMaxClient._translate_sync]
    ([api_clients/minimax_client.py]),
  - [Queue]: [TranslationQueue] of [services/translation_queue.py],

  followed by the properties established about them.

  Conventions.  Python [int]s are [Z]; [bytes] are lists of [byte];
  [float] clock readings and durations are rationals ([Q]), only ever
  compared and subtracted; a [dict] keyed by task id whose values are the
  task objects themselves is a finite set of ids next to a store of task
  objects; a call that may raise returns a [Result]; an [await] on an
  external collaborator is a suspension point whose outcome is supplied by
  the environment as an action of a transition system. *)

From Stdlib Require Import ZArith QArith Lqa.
From stdpp Require Import gmap strings list fin_maps pretty sorting.
From Stdlib Require Import Strings.Byte.

Open Scope Z_scope.

(** Python [bytes]. *)
Abbreviation bytes := (list byte).

(** Outcome of a call that may raise: the exception is kept as its message. *)
Inductive Result (A : Type) : Type :=
| Return (a : A)
| Raise (msg : string).
Arguments Return {A} a.
Arguments Raise {A} msg.

(** ** Python [str]: sequences of Unicode code points *)
Module PyStr.

Definition char := N.
Definition str := list char.

(** Embedding of an ASCII literal. *)
Fixpoint lit (s : string) : str :=
  match s with
  | EmptyString => []
  | String a r => Ascii.N_of_ascii a :: lit r
  end.

(** The code points for which [str.isspace] holds, i.e. the characters
    removed by [str.strip()]. *)
Definition isspace (c : char) : bool :=
  ((9 <=? c) && (c <=? 13) || (28 <=? c) && (c <=? 32)
   || (c =? 133) || (c =? 160) || (c =? 5760)
   || (8192 <=? c) && (c <=? 8202)
   || (c =? 8232) || (c =? 8233) || (c =? 8239) || (c =? 8287)
   || (c =? 12288))%N.

Fixpoint lstrip (s : str) : str :=
  match s with
  | [] => []
  | c :: r => if isspace c then lstrip r else s
  end.

Fixpoint rstrip (s : str) : str :=
  match s with
  | [] => []
  | c :: r =>
      match rstrip r with
      | [] => if isspace c then [] else [c]
      | r' => c :: r'
      end
  end.

Definition strip (s : str) : str := rstrip (lstrip s).

(** Truth value of a string: non-empty. *)
Definition truthy (s : str) : bool :=
  match s with [] => false | _ => true end.

End PyStr.

(** ** Utterance segmenter: [AudioProcessor] *)
Module Segmenter.

(** A finished segment: the float32 samples in [-1, 1).  Every 16-bit
    sample divided by 32768 is exactly representable, so the samples are
    modelled as rationals. *)
Definition ndarray := list Q.

Record AudioProcessor := mkAudioProcessor {
  sample_rate : Z;
  frame_duration_ms : Z;
  vad_mode : Z;
  silence_threshold_ms : Z;
  min_speech_duration_ms : Z;
  frame_size : Z;
  frame_bytes : Z;
  audio_buffer : bytes;
  speech_frames : list bytes;
  silence_frames : Z;
  silence_threshold_frames : Z;
  min_speech_frames : Z;
  is_speaking : bool;
  speech_started : bool
}.

Definition set_audio_buffer (b : bytes) (ap : AudioProcessor) :=
  mkAudioProcessor (sample_rate ap) (frame_duration_ms ap) (vad_mode ap)
    (silence_threshold_ms ap) (min_speech_duration_ms ap) (frame_size ap)
    (frame_bytes ap) b (speech_frames ap) (silence_frames ap)
    (silence_threshold_frames ap) (min_speech_frames ap) (is_speaking ap)
    (speech_started ap).

Definition set_speech_frames (fs : list bytes) (ap : AudioProcessor) :=
  mkAudioProcessor (sample_rate ap) (frame_duration_ms ap) (vad_mode ap)
    (silence_threshold_ms ap) (min_speech_duration_ms ap) (frame_size ap)
    (frame_bytes ap) (audio_buffer ap) fs (silence_frames ap)
    (silence_threshold_frames ap) (min_speech_frames ap) (is_speaking ap)
    (speech_started ap).

Definition set_silence_frames (n : Z) (ap : AudioProcessor) :=
  mkAudioProcessor (sample_rate ap) (frame_duration_ms ap) (vad_mode ap)
    (silence_threshold_ms ap) (min_speech_duration_ms ap) (frame_size ap)
    (frame_bytes ap) (audio_buffer ap) (speech_frames ap) n
    (silence_threshold_frames ap) (min_speech_frames ap) (is_speaking ap)
    (speech_started ap).

Definition set_speech_started (b : bool) (ap : AudioProcessor) :=
  mkAudioProcessor (sample_rate ap) (frame_duration_ms ap) (vad_mode ap)
    (silence_threshold_ms ap) (min_speech_duration_ms ap) (frame_size ap)
    (frame_bytes ap) (audio_buffer ap) (speech_frames ap) (silence_frames ap)
    (silence_threshold_frames ap) (min_speech_frames ap) (is_speaking ap) b.

(** [__init__].  [int(a / b)] truncates the quotient towards zero; a zero
    frame duration raises [ZeroDivisionError]. *)
Definition init (sample_rate frame_duration_ms vad_mode
                 silence_threshold_ms min_speech_duration_ms : Z)
  : Result AudioProcessor :=
  if frame_duration_ms =? 0 then Raise "ZeroDivisionError"
  else
    let frame_size := Z.quot (sample_rate * frame_duration_ms) 1000 in
    Return {|
      sample_rate := sample_rate;
      frame_duration_ms := frame_duration_ms;
      vad_mode := vad_mode;
      silence_threshold_ms := silence_threshold_ms;
      min_speech_duration_ms := min_speech_duration_ms;
      frame_size := frame_size;
      frame_bytes := frame_size * 2;
      audio_buffer := [];
      speech_frames := [];
      silence_frames := 0;
      silence_threshold_frames := Z.quot silence_threshold_ms frame_duration_ms;
      min_speech_frames := Z.quot min_speech_duration_ms frame_duration_ms;
      is_speaking := false;
      speech_started := false
    |}.

(** One little-endian signed 16-bit sample. *)
Definition int16_le (lo hi : byte) : Z :=
  let u := Z.of_N (Byte.to_N lo) + 256 * Z.of_N (Byte.to_N hi) in
  if u <? 32768 then u else u - 65536.

(** [np.frombuffer(b, dtype=np.int16)]: fails on an odd number of bytes. *)
Fixpoint frombuffer_int16 (b : bytes) : option (list Z) :=
  match b with
  | [] => Some []
  | [_] => None
  | lo :: hi :: rest =>
      match frombuffer_int16 rest with
      | Some l => Some (int16_le lo hi :: l)
      | None => None
      end
  end.

Definition _finalize_segment (ap : AudioProcessor) : Result ndarray :=
  match speech_frames ap with
  | [] => Return []
  | _ =>
      let audio_bytes := concat (speech_frames ap) in
      match frombuffer_int16 audio_bytes with
      | Some samples => Return (map (fun s => inject_Z s / 32768)%Q samples)
      | None => Raise "ValueError"
      end
  end.

Definition _reset_state (ap : AudioProcessor) : AudioProcessor :=
  set_speech_started false (set_silence_frames 0 (set_speech_frames [] ap)).

Section WithClassifier.

(** The voice-activity classifier [vad.is_speech(frame, sample_rate)],
    an external collaborator: it answers or raises. *)
Variable is_speech : bytes -> Z -> Result bool.

(** [_process_frame].  The whole body sits in one [try]; whatever raises
    inside is logged and the updates made so far stay. *)
Definition _process_frame (ap : AudioProcessor) (frame_data : bytes)
  : option ndarray * AudioProcessor :=
  match is_speech frame_data (sample_rate ap) with
  | Raise _ => (None, ap)
  | Return true =>
      let ap := set_speech_frames (speech_frames ap ++ [frame_data]) ap in
      let ap := set_silence_frames 0 ap in
      let ap := if negb (speech_started ap)
                then set_speech_started true ap else ap in
      (None, ap)
  | Return false =>
      if speech_started ap then
        let ap := set_silence_frames (silence_frames ap + 1) ap in
        let ap := if silence_frames ap <=? 3
                  then set_speech_frames (speech_frames ap ++ [frame_data]) ap
                  else ap in
        if silence_frames ap >=? silence_threshold_frames ap then
          if Z.of_nat (length (speech_frames ap)) >=? min_speech_frames ap then
            match _finalize_segment ap with
            | Return segment => (Some segment, _reset_state ap)
            | Raise _ => (None, ap)
            end
          else (None, _reset_state ap)
        else (None, ap)
      else (None, ap)
  end.

(** The frames cut from the byte buffer by [add_audio_chunk], fed one
    after the other; the completed segments are collected in order. *)
Fixpoint process_frames (frames : list bytes) (ap : AudioProcessor)
  : list ndarray * AudioProcessor :=
  match frames with
  | [] => ([], ap)
  | f :: rest =>
      let '(segment, ap) := _process_frame ap f in
      let '(segments, ap) := process_frames rest ap in
      (match segment with Some s => s :: segments | None => segments end, ap)
  end.

(** The [while len(audio_buffer) >= frame_bytes] loop of
    [add_audio_chunk]; [None] when the fuel runs out. *)
Fixpoint drain_buffer (fuel : nat) (ap : AudioProcessor)
  : option (list ndarray * AudioProcessor) :=
  if Z.of_nat (length (audio_buffer ap)) >=? frame_bytes ap then
    match fuel with
    | O => None
    | S fuel =>
        let n := Z.to_nat (frame_bytes ap) in
        let frame_data := take n (audio_buffer ap) in
        let ap := set_audio_buffer (drop n (audio_buffer ap)) ap in
        let '(segment, ap) := _process_frame ap frame_data in
        match drain_buffer fuel ap with
        | Some (segments, ap) =>
            Some (match segment with
                  | Some s => s :: segments | None => segments end, ap)
        | None => None
        end
    end
  else Some ([], ap).

Definition add_audio_chunk (fuel : nat) (audio_data : bytes)
                           (ap : AudioProcessor)
  : option (list ndarray * AudioProcessor) :=
  drain_buffer fuel (set_audio_buffer (audio_buffer ap ++ audio_data) ap).

(** A stream of chunks handed to [add_audio_chunk] one after the other,
    each call with fuel for every byte it may find in the buffer. *)
Fixpoint feed (chunks : list bytes) (ap : AudioProcessor)
  : option (list ndarray * AudioProcessor) :=
  match chunks with
  | [] => Some ([], ap)
  | c :: rest =>
      match add_audio_chunk (S (length (audio_buffer ap) + length c)) c ap with
      | Some (segments, ap) =>
          match feed rest ap with
          | Some (segments', ap) => Some (segments ++ segments', ap)
          | None => None
          end
      | None => None
      end
  end.

End WithClassifier.

(** [force_segment]: nothing catches an exception of [_finalize_segment]
    here, and the state is then left as it was. *)
Definition force_segment (ap : AudioProcessor)
  : Result (option ndarray) * AudioProcessor :=
  if Z.of_nat (length (speech_frames ap)) >=? min_speech_frames ap then
    match _finalize_segment ap with
    | Return segment => (Return (Some segment), _reset_state ap)
    | Raise e => (Raise e, ap)
    end
  else
    match speech_frames ap with
    | [] => (Return None, ap)
    | _ => (Return None, _reset_state ap)
    end.

Record Stats := {
  stats_sample_rate : Z;
  stats_frame_duration_ms : Z;
  stats_vad_mode : Z;
  stats_silence_threshold_ms : Z;
  stats_buffer_size : Z;
  stats_speech_frames : Z;
  stats_is_speaking : bool
}.

Definition get_stats (ap : AudioProcessor) : Stats :=
  {| stats_sample_rate := sample_rate ap;
     stats_frame_duration_ms := frame_duration_ms ap;
     stats_vad_mode := vad_mode ap;
     stats_silence_threshold_ms := silence_threshold_ms ap;
     stats_buffer_size := Z.of_nat (length (audio_buffer ap));
     stats_speech_frames := Z.of_nat (length (speech_frames ap));
     stats_is_speaking := speech_started ap |}.

(** A scripted classifier for worked examples: the first byte of a frame
    decides, [x01] speech, [x00] silence, anything else raises. *)
Definition scripted_vad (frame : bytes) (_ : Z) : Result bool :=
  match frame with
  | x01 :: _ => Return true
  | x00 :: _ => Return false
  | _ => Raise "Error while processing frame"
  end.

Definition speech_frame : bytes := [x01; x00].
Definition silence_frame : bytes := [x00; x00].
Definition broken_frame : bytes := [xff; x00].

(** A one-sample-per-frame processor, as [init 1000 1 3 2 2] builds it:
    silence threshold of two frames, at least two buffered frames for a
    segment. *)
Definition tiny : AudioProcessor :=
  {| sample_rate := 1000; frame_duration_ms := 1; vad_mode := 3;
     silence_threshold_ms := 2; min_speech_duration_ms := 2;
     frame_size := 1; frame_bytes := 2;
     audio_buffer := []; speech_frames := []; silence_frames := 0;
     silence_threshold_frames := 2; min_speech_frames := 2;
     is_speaking := false; speech_started := false |}.

(** The classifier that answers "silence" for every frame. *)
Definition always_silence (_ : bytes) (_ : Z) : Result bool := Return false.

(** Two speech frames are buffered and speech is in progress. *)
Definition speaking : AudioProcessor :=
  snd (process_frames scripted_vad [speech_frame; speech_frame] tiny).

(** Buffer and flags agree: an empty buffer means no speech in progress,
    and every buffered frame holds whole 16-bit samples. *)
Definition consistent (ap : AudioProcessor) : Prop :=
  (speech_frames ap = [] ->
   silence_frames ap = 0 /\ speech_started ap = false)
  /\ Forall (fun f : bytes => Nat.even (length f) = true) (speech_frames ap).

(** A byte buffer cut into frames of [n] bytes: it is a run of whole frames followed by less than one frame. *)
Definition framed (n : nat) (frames : list bytes) (tail : bytes) : Prop :=
  Forall (fun f : bytes => length f = n) frames /\ (length tail < n)%nat.

(** The processor [ap] in the middle of an utterance: [fs] buffered, the
    last [n] frames silent. *)
Definition speaking_with (fs : list bytes) (n : Z) (ap : AudioProcessor)
  : AudioProcessor :=
  set_speech_started true (set_silence_frames n (set_speech_frames fs ap)).

(** The float32 samples of a byte string, as [_finalize_segment] computes
    them. *)
Definition samples_of (b : bytes) : option ndarray :=
  (fun samples => map (fun s => inject_Z s / 32768)%Q samples)
    <$> frombuffer_int16 b.

(** The frame buffer holds whole frames, and holds at least one while an
    utterance is in progress. *)
Definition framed_state (ap : AudioProcessor) : Prop :=
  Forall (fun f : bytes => length f = Z.to_nat (frame_bytes ap))
         (speech_frames ap)
  /\ (speech_started ap = true -> speech_frames ap <> []).

(** A segment made of [k] whole frames of [frame_bytes] bytes, with [k]
    at least one and at least [min]. *)
Definition whole_frames (frame_bytes min : Z) (segment : ndarray) : Prop :=
  exists k, (2 * length segment = k * Z.to_nat frame_bytes)%nat
            /\ (1 <= k)%nat /\ min <= Z.of_nat k.

End Segmenter.

(** ** Streaming front end: [StreamingAudioProcessor] *)
Module Streaming.
Import Segmenter.

(** The segmenter together with the queue of what awaits transcription;
    [None] in the queue is the shutdown signal.  The queue is an
    [asyncio.Queue()] without a bound, so [put_nowait] never raises
    [QueueFull]. *)
Record StreamingAudioProcessor := {
  audio_processor : AudioProcessor;
  processing_queue : list (option ndarray);
  is_running : bool
}.

(** [len(segment) > 0]. *)
Definition nonempty (segment : ndarray) : bool :=
  match segment with [] => false | _ => true end.

(** The [for segment in segments] loop of [add_audio_data]. *)
Definition put_segments (segments : list ndarray)
                        (queue : list (option ndarray))
  : list (option ndarray) :=
  foldl (fun queue segment =>
           if nonempty segment then queue ++ [Some segment] else queue)
        queue segments.

Section WithClassifier.

Variable is_speech : bytes -> Z -> Result bool.

(** [add_audio_data]; [None] when the loop of [add_audio_chunk] runs out
    of fuel. *)
Definition add_audio_data (fuel : nat) (audio_data : bytes)
                          (sp : StreamingAudioProcessor)
  : option StreamingAudioProcessor :=
  match add_audio_chunk is_speech fuel audio_data (audio_processor sp) with
  | Some (segments, ap) =>
      Some {| audio_processor := ap;
              processing_queue := put_segments segments (processing_queue sp);
              is_running := is_running sp |}
  | None => None
  end.

(** Chunks handed to [add_audio_data] one after the other, each call with
    fuel for every byte it may find in the buffer. *)
Fixpoint add_all (chunks : list bytes) (sp : StreamingAudioProcessor)
  : option StreamingAudioProcessor :=
  match chunks with
  | [] => Some sp
  | c :: rest =>
      match add_audio_data
              (S (length (audio_buffer (audio_processor sp)) + length c))
              c sp with
      | Some sp => add_all rest sp
      | None => None
      end
  end.

End WithClassifier.

(** [force_process_current]: an exception of [force_segment] propagates. *)
Definition force_process_current (sp : StreamingAudioProcessor)
  : Result unit * StreamingAudioProcessor :=
  match force_segment (audio_processor sp) with
  | (Return segment, ap) =>
      (Return tt,
       {| audio_processor := ap;
          processing_queue :=
            match segment with
            | Some segment =>
                if nonempty segment
                then processing_queue sp ++ [Some segment]
                else processing_queue sp
            | None => processing_queue sp
            end;
          is_running := is_running sp |})
  | (Raise e, ap) =>
      (Raise e,
       {| audio_processor := ap; processing_queue := processing_queue sp;
          is_running := is_running sp |})
  end.

(** [stop_processing]. *)
Definition stop_processing (sp : StreamingAudioProcessor)
  : StreamingAudioProcessor :=
  {| audio_processor := audio_processor sp;
     processing_queue := processing_queue sp ++ [None];
     is_running := false |}.

(** What a caller can do with the front end. *)
Inductive Call :=
| AddAudioData (audio_data : bytes)
| ForceProcessCurrent
| StopProcessing.

Section Calls.

Variable is_speech : bytes -> Z -> Result bool.

Definition call (c : Call) (sp : StreamingAudioProcessor)
  : option StreamingAudioProcessor :=
  match c with
  | AddAudioData audio_data =>
      add_audio_data is_speech
        (S (length (audio_buffer (audio_processor sp)) + length audio_data))
        audio_data sp
  | ForceProcessCurrent => Some (snd (force_process_current sp))
  | StopProcessing => Some (stop_processing sp)
  end.

Fixpoint calls (cs : list Call) (sp : StreamingAudioProcessor)
  : option StreamingAudioProcessor :=
  match cs with
  | [] => Some sp
  | c :: rest =>
      match call c sp with
      | Some sp => calls rest sp
      | None => None
      end
  end.

End Calls.

(** A fresh front end around the processor [ap]. *)
Definition fresh (ap : AudioProcessor) : StreamingAudioProcessor :=
  {| audio_processor := ap; processing_queue := []; is_running := false |}.

(** The processor [ap] with a minimum of no frame at all, as a minimum
    speech duration below the frame duration gives it: [force_segment]
    then returns an empty segment when nothing is buffered. *)
Definition set_min_speech_frames_zero (ap : AudioProcessor) : AudioProcessor :=
  mkAudioProcessor (sample_rate ap) (frame_duration_ms ap) (vad_mode ap)
    (silence_threshold_ms ap) 0 (frame_size ap)
    (frame_bytes ap) (audio_buffer ap) (speech_frames ap) (silence_frames ap)
    (silence_threshold_frames ap) 0 (is_speaking ap) (speech_started ap).

End Streaming.

(** ** Streaming synthesis client: [T2VClient.synthesize_text] *)
Module T2V.

(** *** The two decoders tried on an audio payload *)

Definition code (a : Ascii.ascii) : N := Ascii.N_of_ascii a.

Definition byte_of_N (n : N) : byte :=
  match Byte.of_N (n mod 256)%N with Some b => b | None => x00 end.

(** ASCII whitespace as [bytes.fromhex] skips it. *)
Definition is_ascii_space (a : Ascii.ascii) : bool :=
  let c := code a in ((9 <=? c) && (c <=? 13) || (c =? 32))%N.

Definition hex_digit (a : Ascii.ascii) : option N :=
  let c := code a in
  if ((48 <=? c) && (c <=? 57))%N then Some (c - 48)%N
  else if ((97 <=? c) && (c <=? 102))%N then Some (c - 87)%N
  else if ((65 <=? c) && (c <=? 70))%N then Some (c - 55)%N
  else None.

(** [bytes.fromhex]: two adjacent hexadecimal digits per byte, whitespace
    allowed between bytes; [None] stands for [ValueError]. *)
Fixpoint fromhex (s : string) : option bytes :=
  match s with
  | EmptyString => Some []
  | String a r =>
      if is_ascii_space a then fromhex r
      else
        match hex_digit a, r with
        | Some top, String b r' =>
            match hex_digit b with
            | Some bot =>
                match fromhex r' with
                | Some l => Some (byte_of_N (16 * top + bot) :: l)
                | None => None
                end
            | None => None
            end
        | _, _ => None
        end
  end.

Definition b64_value (a : Ascii.ascii) : option N :=
  let c := code a in
  if ((65 <=? c) && (c <=? 90))%N then Some (c - 65)%N
  else if ((97 <=? c) && (c <=? 122))%N then Some (c - 71)%N
  else if ((48 <=? c) && (c <=? 57))%N then Some (c + 4)%N
  else if (c =? 43)%N then Some 62%N
  else if (c =? 47)%N then Some 63%N
  else None.

(** [binascii.a2b_base64] in its lenient mode: characters outside the
    alphabet are skipped, a complete pad sequence ends the parse, and a
    dangling quad is "Incorrect padding".  [out] is built in reverse. *)
Fixpoint a2b_base64 (s : string) (quad_pos : nat) (leftchar : N)
                    (pads : nat) (out : bytes) : option bytes :=
  match s with
  | EmptyString =>
      match quad_pos with O => Some (rev out) | _ => None end
  | String a r =>
      if (code a =? 61)%N then
        if (2 <=? quad_pos)%nat then
          if (4 <=? quad_pos + S pads)%nat then Some (rev out)
          else a2b_base64 r quad_pos leftchar (S pads) out
        else a2b_base64 r quad_pos leftchar pads out
      else
        match b64_value a with
        | None => a2b_base64 r quad_pos leftchar pads out
        | Some v =>
            match quad_pos with
            | 0%nat => a2b_base64 r 1 v 0 out
            | 1%nat =>
                a2b_base64 r 2 (N.land v 15) 0
                  (byte_of_N (N.lor (N.shiftl leftchar 2) (N.shiftr v 4)) :: out)
            | 2%nat =>
                a2b_base64 r 3 (N.land v 3) 0
                  (byte_of_N (N.lor (N.shiftl leftchar 4) (N.shiftr v 2)) :: out)
            | _ =>
                a2b_base64 r 0 0 0
                  (byte_of_N (N.lor (N.shiftl leftchar 6) v) :: out)
            end
        end
  end.

Fixpoint is_ascii (s : string) : bool :=
  match s with
  | EmptyString => true
  | String a r => (code a <? 128)%N && is_ascii r
  end.

(** [base64.b64decode] of a [str]: it must be ASCII. *)
Definition b64decode (s : string) : option bytes :=
  if is_ascii s then a2b_base64 s 0 0 0 [] else None.

(** Hex first, base64 as the fallback; [None] when the fallback raises
    too. *)
Definition decode_audio (audio_hex : string) : option bytes :=
  match fromhex audio_hex with
  | Some b => Some b
  | None => b64decode audio_hex
  end.

(** *** The receive loop *)

(** A parsed provider message, reduced to the three places the loop
    reads: [data.audio], [extra_info.audio_format] and [event]. *)
Record Message := {
  audio : option string;
  extra_audio_format : option string;
  event : option string
}.

(** What one [await wait_for(websocket.recv(), chunk_timeout)] followed by
    [json.loads] can yield. *)
Inductive Received :=
| Msg (m : Message)
| TimedOut
| Failed (e : string).

(** One invocation [chunk_callback(chunk_data, is_final, format)]. *)
Record ChunkCall := {
  chunk_data : bytes;
  is_final : bool;
  chunk_format : string
}.

Record LoopState := {
  audio_chunks : list bytes;
  audio_format : string;
  total_chunks : Z;
  last_chunk_info : option (bytes * string)
}.

Definition initial : LoopState :=
  {| audio_chunks := []; audio_format := "mp3"; total_chunks := 0;
     last_chunk_info := None |}.

Inductive Control := Continue | Break | ReturnNone.

(** The callback is optional; an exception it raises is logged and
    swallowed at every call site, so a call leaves no other trace. *)
Definition invoke (chunk_callback : bool) (c : ChunkCall) : list ChunkCall :=
  if chunk_callback then [c] else [].

Definition nonempty (b : bytes) : bool :=
  match b with [] => false | _ => true end.

(** The [if "data" in response_data and "audio" in ...] block; [None]
    when decoding raises. *)
Definition receive_audio (chunk_callback : bool) (st : LoopState)
                         (m : Message)
  : option (list ChunkCall * LoopState) :=
  match audio m with
  | None => Some ([], st)
  | Some audio_hex =>
      match decode_audio audio_hex with
      | None => None
      | Some audio_bytes =>
          let fmt := match extra_audio_format m with
                     | Some f => f
                     | None => audio_format st
                     end in
          Some (invoke chunk_callback
                  {| chunk_data := audio_bytes; is_final := false;
                     chunk_format := fmt |},
                {| audio_chunks := audio_chunks st ++ [audio_bytes];
                   audio_format := fmt;
                   total_chunks := total_chunks st + 1;
                   last_chunk_info :=
                     if nonempty audio_bytes then Some (audio_bytes, fmt)
                     else last_chunk_info st |})
      end
  end.

(** The callbacks made on [task_finished]. *)
Definition finish (chunk_callback : bool) (st : LoopState) : list ChunkCall :=
  match chunk_callback && (total_chunks st >? 0), last_chunk_info st with
  | true, Some (last_audio, last_format) =>
      [ {| chunk_data := last_audio; is_final := true;
           chunk_format := last_format |} ]
  | _, _ =>
      invoke chunk_callback
        {| chunk_data := []; is_final := true;
           chunk_format := audio_format st |}
  end.

(** The callbacks made when [recv] times out. *)
Definition on_timeout (chunk_callback : bool) (st : LoopState)
  : list ChunkCall :=
  if chunk_callback && (total_chunks st >? 0) then
    [ {| chunk_data := List.last (audio_chunks st) [];
         is_final := true; chunk_format := audio_format st |} ]
  else [].

(** One turn of the [while True] loop. *)
Definition turn (chunk_callback : bool) (st : LoopState) (r : Received)
  : list ChunkCall * LoopState * Control :=
  match r with
  | Msg m =>
      match receive_audio chunk_callback st m with
      | None => ([], st, Break)
      | Some (calls, st) =>
          if bool_decide (event m = Some "task_finished") then
            (calls ++ finish chunk_callback st, st, Break)
          else if bool_decide (event m = Some "task_failed") then
            (calls, st, ReturnNone)
          else (calls, st, Continue)
      end
  | TimedOut => (on_timeout chunk_callback st, st, Break)
  | Failed _ => ([], st, Break)
  end.

(** The loop over what the provider sends; [Continue] at the end of the
    script means the loop is still waiting. *)
Fixpoint receive (chunk_callback : bool) (st : LoopState)
                 (script : list Received)
  : list ChunkCall * LoopState * Control :=
  match script with
  | [] => ([], st, Continue)
  | r :: rest =>
      match turn chunk_callback st r with
      | (calls, st, Continue) =>
          let '(calls', st, c) := receive chunk_callback st rest in
          (calls ++ calls', st, c)
      | stop => stop
      end
  end.

Record Audio := { audio_data : bytes; format : string }.

(** [synthesize_text].  [connected]: the websocket is there; [sent]: both
    directives went out.  The result is [None] (of the outer [option])
    while the loop is still waiting. *)
Definition synthesize_text (connected sent chunk_callback : bool)
                           (script : list Received)
  : list ChunkCall * option (Result (option Audio)) :=
  if negb connected then ([], Some (Raise "WebSocket not connected"))
  else if negb sent then ([], Some (Return None))
  else
    match receive chunk_callback initial script with
    | (calls, _, Continue) => (calls, None)
    | (calls, _, ReturnNone) => (calls, Some (Return None))
    | (calls, st, Break) =>
        (calls,
         Some (Return
                 match audio_chunks st with
                 | [] => None
                 | _ => Some {| audio_data := concat (audio_chunks st);
                                format := audio_format st |}
                 end))
    end.

(** *** Reading a run *)

(** The last forwarded call that carried at least one byte. *)
Fixpoint last_nonempty_call (calls : list ChunkCall) : option ChunkCall :=
  match calls with
  | [] => None
  | c :: rest =>
      match last_nonempty_call rest with
      | Some c' => Some c'
      | None => if nonempty (chunk_data c) then Some c else None
      end
  end.

Definition as_final (c : ChunkCall) : ChunkCall :=
  {| chunk_data := chunk_data c; is_final := true;
     chunk_format := chunk_format c |}.

Definition chunk_message (audio_hex : string) : Message :=
  {| audio := Some audio_hex; extra_audio_format := None; event := None |}.

Definition finished_message : Message :=
  {| audio := None; extra_audio_format := None;
     event := Some "task_finished" |}.

(** What the calls made so far say about the loop state (callback
    provided): every received chunk was forwarded once, in order and not
    final; the counter counts them; [last_chunk_info] is the last
    forwarded call that carried bytes. *)
Definition tracks (calls : list ChunkCall) (st : LoopState) : Prop :=
  map chunk_data calls = audio_chunks st
  /\ Forall (fun c => is_final c = false) calls
  /\ total_chunks st = Z.of_nat (length (audio_chunks st))
  /\ last_chunk_info st
     = match last_nonempty_call calls with
       | Some c => Some (chunk_data c, chunk_format c)
       | None => None
       end.

(** The format the loop holds is the one passed with the last forwarded
    call, and the default before any. *)
Definition format_tracks (calls : list ChunkCall) (st : LoopState) : Prop :=
  audio_format st
  = match last calls with Some c => chunk_format c | None => "mp3" end.



(** *** The connection around the loop *)

(** The client object: whether [self.websocket] is set, and
    [self.session_id]. *)
Record Client := { websocket : bool; session_id : option string }.

Definition new_client : Client :=
  {| websocket := false; session_id := None |}.

(** What a plain [await websocket.recv()] followed by [json.loads] yields
    in a handshake: the ["event"] and ["session_id"] of the reply, or an
    exception. *)
Inductive Reply :=
| Replied (event : option string) (session : option string)
| ReplyRaises (e : string).

(** [connect].  [opened]: [websockets.connect] returned a socket, with one
    keyword or the other. *)
Definition connect (opened : bool) (greeting : Reply) (c : Client)
  : bool * Client :=
  if negb opened then (false, c)
  else
    let c := {| websocket := true; session_id := session_id c |} in
    match greeting with
    | Replied event session =>
        if bool_decide (event = Some "connected_success")
        then (true, {| websocket := true; session_id := session |})
        else (false, c)
    | ReplyRaises _ => (false, c)
    end.

(** [start_task].  [sent]: the directive went out. *)
Definition start_task (sent : bool) (ack : Reply) (c : Client)
  : Result bool :=
  if negb (websocket c) then Raise "WebSocket not connected"
  else if negb sent then Return false
  else
    match ack with
    | Replied event _ => Return (bool_decide (event = Some "task_started"))
    | ReplyRaises _ => Return false
    end.

(** [close], once the awaits in it ([finish_task], which swallows its own
    exceptions, and [websocket.close()]) have come back: the [finally]
    clause resets the client whatever they did. *)
Definition close (c : Client) : Client :=
  if websocket c then {| websocket := false; session_id := None |} else c.

(** What the provider and the network do during one [text_to_speech]. *)
Record Session := {
  opened : bool;            (* [websockets.connect] returned a socket *)
  greeting : Reply;         (* the reply awaited by [connect] *)
  start_sent : bool;        (* the [task_start] directive went out *)
  start_ack : Reply;        (* the reply awaited by [start_task] *)
  text_sent : bool;         (* both directives of [synthesize_text] went out *)
  stream : list Received;   (* what the receive loop is given *)
  closes : bool             (* the awaits of [close] come back *)
}.

(** [T2VService.text_to_speech]: [async with T2VClient(...) as client]
    around [synthesize_text], all of it in one [try] whose handler
    returns [None].  [__aenter__] discards what [connect] and [start_task]
    return; when it raises, [__aexit__] is not run.  The outer [None]
    stands for a call that has not returned. *)
Definition text_to_speech (chunk_callback : bool) (env : Session)
  : list ChunkCall * option (Result (option Audio) * Client) :=
  let c := snd (connect (opened env) (greeting env) new_client) in
  match start_task (start_sent env) (start_ack env) c with
  | Raise _ => ([], Some (Return None, c))
  | Return _ =>
      match synthesize_text (websocket c) (text_sent env) chunk_callback
              (stream env) with
      | (calls, None) => (calls, None)
      | (calls, Some r) =>
          (calls,
           if closes env
           then Some (match r with
                      | Return a => Return a
                      | Raise _ => Return None
                      end, close c)
           else None)
      end
  end.

End T2V.

(** ** Translation client: [MiniMaxClient] *)
Module MiniMax.
Import PyStr.

(** The first choice of one streamed [data: ] line: the [content] of its
    [delta] (empty when absent) and whether [finish_reason] is ["stop"]. *)
Record Choice := { content : str; finish_stop : bool }.

(** The ways the HTTP exchange can fail: the two [requests] exceptions
    told apart by the handlers, and any other exception. *)
Inductive RequestError :=
| ReqTimeout
| ReqConnectionError (ce : string)
| ReqOther (e : string).

(** What iterating [response.iter_lines()] yields, as the loop body sees
    it. *)
Inductive StreamLine :=
| Blank                           (* an empty keep-alive chunk *)
| NotData                         (* no ["data: "] prefix *)
| BadJson                         (* [json.loads] raises [JSONDecodeError] *)
| Data (choice : option Choice)   (* [None]: no or empty ['choices'] *)
| Broken (e : RequestError).      (* reading or parsing raised *)

Inductive Http :=
| PostRaises (e : RequestError)
| Response (status_code : Z) (text : string) (lines : list StreamLine).

(** The three [except] clauses: every failure is re-raised as a plain
    [Exception] with a new message. *)
Definition reraise {A} (e : RequestError) : Result A :=
  match e with
  | ReqTimeout => Raise "Translation timeout"
  | ReqConnectionError ce => Raise ("Network error: " +:+ ce)
  | ReqOther e => Raise ("Translation API error: " +:+ e)
  end.

(** The [for chunk in response.iter_lines()] loop. *)
Fixpoint read_stream (lines : list StreamLine) (translated_text : str)
  : RequestError + str :=
  match lines with
  | [] => inr translated_text
  | Blank :: rest | NotData :: rest | BadJson :: rest
  | Data None :: rest => read_stream rest translated_text
  | Data (Some c) :: rest =>
      let translated_text :=
        if truthy (content c) then translated_text ++ content c
        else translated_text in
      if finish_stop c then inr translated_text
      else read_stream rest translated_text
  | Broken e :: _ => inl e
  end.

(** [_translate_sync].  The prompt built from the target language, the hot
    words and the style only travels to the provider; nothing below reads
    it back, so its text is left out. *)
Definition _translate_sync (text : str) (target_language : string)
    (hot_words : list string) (translation_style : string) (http : Http)
  : Result str :=
  match http with
  | PostRaises e => reraise e
  | Response status_code body lines =>
      if negb (status_code =? 200) then
        reraise (ReqOther ("API request failed: " +:+ pretty status_code
                           +:+ " - " +:+ body))
      else
        match read_stream lines [] with
        | inl e => reraise e
        | inr translated_text =>
            if negb (truthy (strip translated_text)) then Return text
            else Return (strip translated_text)
        end
  end.

(** [translate_text]: the same call, run on the executor and awaited. *)
Definition translate_text := _translate_sync.

(** A stream none of whose lines carries content. *)
Definition silent (l : StreamLine) : Prop :=
  match l with
  | Data (Some c) => content c = []
  | Broken _ => False
  | _ => True
  end.

(** A line after which the loop goes on: it is not the one with
    [finish_reason] ["stop"], and reading it did not raise. *)
Definition flowing (l : StreamLine) : Prop :=
  match l with
  | Data (Some c) => finish_stop c = false
  | Broken _ => False
  | _ => True
  end.

(** The line whose [finish_reason] is ["stop"]. *)
Definition stopping (l : StreamLine) : Prop :=
  match l with
  | Data (Some c) => finish_stop c = true
  | _ => False
  end.

(** The content pieces carried by some lines, joined in order. *)
Definition joined_content (lines : list StreamLine) : str :=
  concat (map (fun l => match l with
                        | Data (Some c) => content c
                        | _ => []
                        end) lines).

End MiniMax.

(** ** Pipeline scheduler: [TranslationQueue] *)
Module Queue.
Import PyStr.

Inductive TaskStatus := PENDING | PROCESSING | COMPLETED | FAILED | TIMEOUT.

Definition value (s : TaskStatus) : string :=
  match s with
  | PENDING => "pending"
  | PROCESSING => "processing"
  | COMPLETED => "completed"
  | FAILED => "failed"
  | TIMEOUT => "timeout"
  end.

Definition terminal (s : TaskStatus) : bool :=
  match s with COMPLETED | FAILED | TIMEOUT => true | _ => false end.

(** The text of [task.error]: a literal or the [str(e)] of the exception
    caught, or the one formatted message, kept with the number it
    prints. *)
Inductive ErrorText :=
| Message (s : string)
| TaskTimeoutAfter (timeout_seconds : Q).   (* f"Task timeout after {..}s" *)

(** [task.result]: the translation result, with ["audio_size"] added when
    synthesis produced audio. *)
Record TranslationResult := {
  original_text : str;
  translated_text : str;
  result_target_language : string;
  result_task_id : nat;
  audio_size : option Z
}.

(** A task object.  Its [id], a fresh UUID in the source, is a fresh number
    here and doubles as the object's identity in the store. *)
Record TranslationTask := mkTask {
  id : nat;
  text : str;
  target_language : string;
  hot_words : list string;
  translation_style : string;
  status : TaskStatus;
  created_at : Q;
  started_at : option Q;
  completed_at : option Q;
  result : option TranslationResult;
  error : option ErrorText;
  timeout_seconds : Q
}.

Definition set_status (v : TaskStatus) (t : TranslationTask) : TranslationTask :=
  mkTask (id t) (text t) (target_language t) (hot_words t)
    (translation_style t) v (created_at t) (started_at t) (completed_at
    t) (result t) (error t) (timeout_seconds t).

Definition set_started_at (v : option Q) (t : TranslationTask) : TranslationTask :=
  mkTask (id t) (text t) (target_language t) (hot_words t)
    (translation_style t) (status t) (created_at t) v (completed_at t)
    (result t) (error t) (timeout_seconds t).

Definition set_completed_at (v : option Q) (t : TranslationTask) : TranslationTask :=
  mkTask (id t) (text t) (target_language t) (hot_words t)
    (translation_style t) (status t) (created_at t) (started_at t) v
    (result t) (error t) (timeout_seconds t).

Definition set_result (v : option TranslationResult) (t : TranslationTask) : TranslationTask :=
  mkTask (id t) (text t) (target_language t) (hot_words t)
    (translation_style t) (status t) (created_at t) (started_at t)
    (completed_at t) v (error t) (timeout_seconds t).

Definition set_error (v : option ErrorText) (t : TranslationTask) : TranslationTask :=
  mkTask (id t) (text t) (target_language t) (hot_words t)
    (translation_style t) (status t) (created_at t) (started_at t)
    (completed_at t) (result t) v (timeout_seconds t).

(** Where a worker coroutine is suspended.  From [Translating] on it is
    inside [_process_task] for the task it holds. *)
Inductive Worker :=
| Polling                                              (* [pending_queue.get()] *)
| Translating (task : nat)                             (* [translate_text] *)
| NotifyingTranslation (task : nat) (translated : str) (* [translation_callback] *)
| Synthesizing (task : nat) (translated : str)         (* [text_to_speech] *)
| NotifyingError (task : nat).                         (* [error_callback] *)

Definition held (w : Worker) : option nat :=
  match w with
  | Polling => None
  | Translating t | NotifyingTranslation t _ | Synthesizing t _
  | NotifyingError t => Some t
  end.

(** Callback invocations, as an outside observer sees them. *)
Inductive Event :=
| TranslationCallback (task_id : nat) (r : TranslationResult)
| TranslationCallbackDone (task_id : nat)    (* the [await] on it returned *)
| AudioChunkCallback (task_id : nat) (chunk_data : bytes) (is_final : bool)
                     (audio_format : string)
| ErrorCallback (task_id : nat) (e : string).

(** Where a call of [add_task] that found the queue at capacity stands.  It
    awaits [wait_for(pending_queue.get(), timeout=0.1)], which runs the
    [get] as a task of its own: the call is suspended before that [get] has
    run, while the [get] waits at an empty queue, or after the [get] has
    returned [oldest_task] and before the call itself is resumed.  [task] is
    the new task the call will put. *)
Inductive Adder :=
| Evicting (task : nat)                 (* the [get] has not run yet *)
| Waiting (task : nat)                  (* the [get] waits for an item *)
| Evicted (task : nat) (oldest_task : nat)   (* the [get] has returned *)
| Added (task : nat).                   (* [add_task] has returned *)

(** The tasks a suspended call has in hand: they are in no queue and with
    no worker. *)
Definition claimed (a : Adder) : list nat :=
  match a with
  | Evicting task | Waiting task => [task]
  | Evicted task oldest_task => [task; oldest_task]
  | Added _ => []
  end.

Definition suspended (a : Adder) : bool :=
  match a with Added _ => false | _ => true end.

(** The queue object together with what surrounds it: the task objects it
    refers to, the clock read by [time.time()], the supply of fresh ids,
    the callback invocations made so far (oldest first) and the calls of
    [add_task] that had to wait.  Callbacks are kept as "registered or
    not". *)
Record State := mkState {
  max_concurrent : Z;
  default_timeout : Q;
  pending_queue : list nat;
  active_tasks : gset nat;
  completed_tasks : gset nat;
  translation_callback : bool;
  audio_callback : bool;
  audio_chunk_callback : bool;
  error_callback : bool;
  workers : list Worker;
  is_running : bool;
  tasks : gmap nat TranslationTask;   (* the task objects, by id *)
  clock : Q;   (* [time.time()] *)
  fresh : nat;   (* next unused task id *)
  log : list Event;   (* callback invocations *)
  adders : list Adder   (* calls of [add_task] that had to wait *)
}.

Definition set_max_concurrent (v : Z) (s : State) : State :=
  mkState v (default_timeout s) (pending_queue s) (active_tasks s)
    (completed_tasks s) (translation_callback s) (audio_callback s)
    (audio_chunk_callback s) (error_callback s) (workers s) (is_running s)
    (tasks s) (clock s) (fresh s) (log s) (adders s).

Definition set_default_timeout (v : Q) (s : State) : State :=
  mkState (max_concurrent s) v (pending_queue s) (active_tasks s)
    (completed_tasks s) (translation_callback s) (audio_callback s)
    (audio_chunk_callback s) (error_callback s) (workers s) (is_running s)
    (tasks s) (clock s) (fresh s) (log s) (adders s).

Definition set_pending_queue (v : list nat) (s : State) : State :=
  mkState (max_concurrent s) (default_timeout s) v (active_tasks s)
    (completed_tasks s) (translation_callback s) (audio_callback s)
    (audio_chunk_callback s) (error_callback s) (workers s) (is_running s)
    (tasks s) (clock s) (fresh s) (log s) (adders s).

Definition set_active_tasks (v : gset nat) (s : State) : State :=
  mkState (max_concurrent s) (default_timeout s) (pending_queue s) v
    (completed_tasks s) (translation_callback s) (audio_callback s)
    (audio_chunk_callback s) (error_callback s) (workers s) (is_running s)
    (tasks s) (clock s) (fresh s) (log s) (adders s).

Definition set_completed_tasks (v : gset nat) (s : State) : State :=
  mkState (max_concurrent s) (default_timeout s) (pending_queue s)
    (active_tasks s) v (translation_callback s) (audio_callback s)
    (audio_chunk_callback s) (error_callback s) (workers s) (is_running s)
    (tasks s) (clock s) (fresh s) (log s) (adders s).

Definition set_translation_callback (v : bool) (s : State) : State :=
  mkState (max_concurrent s) (default_timeout s) (pending_queue s)
    (active_tasks s) (completed_tasks s) v (audio_callback s)
    (audio_chunk_callback s) (error_callback s) (workers s) (is_running s)
    (tasks s) (clock s) (fresh s) (log s) (adders s).

Definition set_audio_callback (v : bool) (s : State) : State :=
  mkState (max_concurrent s) (default_timeout s) (pending_queue s)
    (active_tasks s) (completed_tasks s) (translation_callback s) v
    (audio_chunk_callback s) (error_callback s) (workers s) (is_running s)
    (tasks s) (clock s) (fresh s) (log s) (adders s).

Definition set_audio_chunk_callback (v : bool) (s : State) : State :=
  mkState (max_concurrent s) (default_timeout s) (pending_queue s)
    (active_tasks s) (completed_tasks s) (translation_callback s)
    (audio_callback s) v (error_callback s) (workers s) (is_running s)
    (tasks s) (clock s) (fresh s) (log s) (adders s).

Definition set_error_callback (v : bool) (s : State) : State :=
  mkState (max_concurrent s) (default_timeout s) (pending_queue s)
    (active_tasks s) (completed_tasks s) (translation_callback s)
    (audio_callback s) (audio_chunk_callback s) v (workers s) (is_running
    s) (tasks s) (clock s) (fresh s) (log s) (adders s).

Definition set_workers (v : list Worker) (s : State) : State :=
  mkState (max_concurrent s) (default_timeout s) (pending_queue s)
    (active_tasks s) (completed_tasks s) (translation_callback s)
    (audio_callback s) (audio_chunk_callback s) (error_callback s) v
    (is_running s) (tasks s) (clock s) (fresh s) (log s) (adders s).

Definition set_is_running (v : bool) (s : State) : State :=
  mkState (max_concurrent s) (default_timeout s) (pending_queue s)
    (active_tasks s) (completed_tasks s) (translation_callback s)
    (audio_callback s) (audio_chunk_callback s) (error_callback s)
    (workers s) v (tasks s) (clock s) (fresh s) (log s) (adders s).

Definition set_tasks (v : gmap nat TranslationTask) (s : State) : State :=
  mkState (max_concurrent s) (default_timeout s) (pending_queue s)
    (active_tasks s) (completed_tasks s) (translation_callback s)
    (audio_callback s) (audio_chunk_callback s) (error_callback s)
    (workers s) (is_running s) v (clock s) (fresh s) (log s) (adders s).

Definition set_clock (v : Q) (s : State) : State :=
  mkState (max_concurrent s) (default_timeout s) (pending_queue s)
    (active_tasks s) (completed_tasks s) (translation_callback s)
    (audio_callback s) (audio_chunk_callback s) (error_callback s)
    (workers s) (is_running s) (tasks s) v (fresh s) (log s) (adders s).

Definition set_fresh (v : nat) (s : State) : State :=
  mkState (max_concurrent s) (default_timeout s) (pending_queue s)
    (active_tasks s) (completed_tasks s) (translation_callback s)
    (audio_callback s) (audio_chunk_callback s) (error_callback s)
    (workers s) (is_running s) (tasks s) (clock s) v (log s) (adders s).

Definition set_log (v : list Event) (s : State) : State :=
  mkState (max_concurrent s) (default_timeout s) (pending_queue s)
    (active_tasks s) (completed_tasks s) (translation_callback s)
    (audio_callback s) (audio_chunk_callback s) (error_callback s)
    (workers s) (is_running s) (tasks s) (clock s) (fresh s) v (adders s).

Definition set_adders (v : list Adder) (s : State) : State :=
  mkState (max_concurrent s) (default_timeout s) (pending_queue s)
    (active_tasks s) (completed_tasks s) (translation_callback s)
    (audio_callback s) (audio_chunk_callback s) (error_callback s)
    (workers s) (is_running s) (tasks s) (clock s) (fresh s) (log s) v.

(** What an [await] on an external collaborator comes back with: a value,
    an exception other than a timeout, or [asyncio.TimeoutError] (raised by
    the enclosing [wait_for] or by the collaborator itself). *)
Inductive Awaited (A : Type) : Type :=
| Returned (a : A)
| Raised (e : string)
| TimedOut.
Arguments Returned {A} a.
Arguments Raised {A} e.
Arguments TimedOut {A}.

Definition Qgt_bool (a b : Q) : bool := negb (Qle_bool a b).

(** [__init__], at clock reading [now]. *)
Definition init (max_concurrent : Z) (default_timeout now : Q) : State :=
  {| max_concurrent := max_concurrent; default_timeout := default_timeout;
     pending_queue := []; active_tasks := ∅; completed_tasks := ∅;
     translation_callback := false; audio_callback := false;
     audio_chunk_callback := false; error_callback := false;
     workers := []; is_running := false;
     tasks := ∅; clock := now; fresh := 0%nat; log := []; adders := [] |}.

Definition set_callbacks (translation audio audio_chunk error : bool)
                         (s : State) : State :=
  set_error_callback error
    (set_audio_chunk_callback audio_chunk
       (set_audio_callback audio
          (set_translation_callback translation s))).

(** In-place update of the task object [t]. *)
Definition update_task (f : TranslationTask -> TranslationTask) (t : nat)
                       (s : State) : State :=
  set_tasks (alter f t (tasks s)) s.

Definition mark (st : TaskStatus) (e : string) (t : TranslationTask)
  : TranslationTask :=
  set_error (Some (Message e)) (set_status st t).

Definition emit (e : Event) (s : State) : State := set_log (log s ++ [e]) s.

Definition set_worker (w : nat) (pc : Worker) (s : State) : State :=
  set_workers (<[w := pc]> (workers s)) s.

Definition set_adder (a : nat) (pc : Adder) (s : State) : State :=
  set_adders (<[a := pc]> (adders s)) s.

(** [pending_queue.put(task)]: the queue is unbounded, so the [put] never
    waits. *)
Definition put (task : nat) (s : State) : State :=
  set_pending_queue (pending_queue s ++ [task]) s.

(** [_cleanup_old_tasks]: forget the retained tasks created more than five
    minutes ago. *)
Definition cleanup_age : Q := 300.

Definition old (s : State) (task_id : nat) : bool :=
  match tasks s !! task_id with
  | Some task => Qgt_bool (clock s - created_at task) cleanup_age
  | None => false
  end.

Definition _cleanup_old_tasks (s : State) : State :=
  set_completed_tasks
    (filter (fun task_id => old s task_id = false) (completed_tasks s)) s.

(** The [TranslationTask(...)] built by [add_task]; [timeout or default]
    falls back to the default for [None] and for zero. *)
Definition new_task (text : str) (target_language : string)
    (hot_words : list string) (translation_style : string)
    (timeout : option Q) (s : State) : TranslationTask :=
  {| id := fresh s; text := text; target_language := target_language;
     hot_words := hot_words; translation_style := translation_style;
     status := PENDING; created_at := clock s; started_at := None;
     completed_at := None; result := None; error := None;
     timeout_seconds :=
       match timeout with
       | Some t => if Qeq_bool t 0 then default_timeout s else t
       | None => default_timeout s
       end |}.

(** [add_task], from the call to its first suspension.  Cleaning up and
    putting never wait, so below capacity the call runs to its end and
    returns the new task's id.  At capacity it enters
    [wait_for(pending_queue.get(), timeout=0.1)], which suspends the call
    whatever the queue holds: the [get] runs as a task of its own.  The
    first component is the id of the task created, which is what the call
    returns when it ends. *)
Definition add_task (text : str) (target_language : string)
    (hot_words : list string) (translation_style : string)
    (timeout : option Q) (s : State) : nat * State :=
  let task := new_task text target_language hot_words translation_style
                timeout s in
  let s := set_fresh (S (fresh s)) (set_tasks (<[id task := task]> (tasks s)) s) in
  let s := _cleanup_old_tasks s in
  if Z.of_nat (length (pending_queue s)) >=? max_concurrent s
  then (id task, set_adders (adders s ++ [Evicting (id task)]) s)
  else (id task, put (id task) s).

(** The [get] of the suspended call [a] runs: it takes the head of the
    queue, or waits when the queue is empty; a [get] that waits is served
    when it is woken and finds an item. *)
Definition eviction_gets (a : nat) (s : State) : option State :=
  match adders s !! a, pending_queue s with
  | Some (Evicting task), oldest_task :: rest
  | Some (Waiting task), oldest_task :: rest =>
      Some (set_adder a (Evicted task oldest_task) (set_pending_queue rest s))
  | Some (Evicting task), [] => Some (set_adder a (Waiting task) s)
  | _, _ => None
  end.

(** The call [a] is resumed with the [oldest_task] its [get] returned:
    it marks that task, puts the new one and returns its id. *)
Definition eviction_ends (a : nat) (s : State) : option (nat * State) :=
  match adders s !! a with
  | Some (Evicted task oldest_task) =>
      let s := update_task (mark FAILED "Queue overflow") oldest_task s in
      Some (task, set_adder a (Added task) (put task s))
  | _ => None
  end.

(** The [get] of the call [a] is still waiting after 0.1 seconds:
    [wait_for] cancels it and raises [asyncio.TimeoutError], which
    [add_task] passes over; it puts the new task and returns its id.  The
    [get] is scheduled when the wait begins, so it has run by the time the
    timeout expires. *)
Definition eviction_times_out (a : nat) (s : State) : option (nat * State) :=
  match adders s !! a with
  | Some (Waiting task) => Some (task, set_adder a (Added task) (put task s))
  | _ => None
  end.

(** [start_workers]. *)
Definition start_workers (s : State) : State :=
  if is_running s then s
  else
    set_workers (workers s ++ replicate (Z.to_nat (max_concurrent s)) Polling)
      (set_is_running true s).

(** The [finally] clause of [_process_task]. *)
Definition finally (t : nat) (s : State) : State :=
  set_completed_tasks ({[t]} ∪ completed_tasks s)
    (set_active_tasks (active_tasks s ∖ {[t]}) s).

(** [stop_workers], taken as one step with its wait for the cancelled
    workers: every worker is cancelled where it is suspended; a worker
    inside [_process_task] unwinds through the [finally] clause only. *)
Definition cancel (s : State) (w : Worker) : State :=
  match held w with
  | Some t => finally t s
  | None => s
  end.

Definition stop_workers (s : State) : State :=
  set_workers [] (foldl cancel (set_is_running false s) (workers s)).

(** [except Exception as e] of [_process_task], for the worker [w] holding
    [t]. *)
Definition on_exception (w t : nat) (e : string) (s : State) : State :=
  let s := update_task (mark FAILED e) t s in
  if error_callback s then
    set_worker w (NotifyingError t) (emit (ErrorCallback t e) s)
  else set_worker w Polling (finally t s).

(** [except asyncio.TimeoutError] of [_process_task]. *)
Definition on_timeout (w t : nat) (s : State) : State :=
  let s := update_task
             (fun task =>
                set_error (Some (TaskTimeoutAfter (timeout_seconds task)))
                  (set_status TIMEOUT task)) t s in
  set_worker w Polling (finally t s).

(** A worker takes the head of the queue: a stale task is marked and let
    go, any other enters [_process_task] up to the call of the translator. *)
Definition worker_gets (w : nat) (s : State) : option State :=
  match workers s !! w, pending_queue s with
  | Some Polling, t :: rest =>
      match tasks s !! t with
      | Some task =>
          let s := set_pending_queue rest s in
          if Qgt_bool (clock s - created_at task) (timeout_seconds task) then
            Some (update_task (mark TIMEOUT "Task timeout before processing") t s)
          else
            let s := update_task
                       (fun task => set_started_at (Some (clock s))
                                      (set_status PROCESSING task)) t s in
            let s := set_active_tasks ({[t]} ∪ active_tasks s) s in
            Some (set_worker w (Translating t) s)
      | None => None
      end
  | _, _ => None
  end.

(** The scheduler's test on the translator's answer:
    [not translated_text or not translated_text.strip()]. *)
Definition is_empty_result (translated_text : str) : bool :=
  negb (truthy translated_text) || negb (truthy (strip translated_text)).

Definition translation_result (task : TranslationTask) (translated_text : str)
  : TranslationResult :=
  {| original_text := text task; translated_text := translated_text;
     result_target_language := target_language task;
     result_task_id := id task; audio_size := None |}.

(** [translate_text] comes back. *)
Definition translate_ends (w : nat) (r : Awaited str) (s : State)
  : option State :=
  match workers s !! w with
  | Some (Translating t) =>
      match r with
      | Returned translated_text =>
          if is_empty_result translated_text then
            Some (on_exception w t "Translation returned empty result" s)
          else
            match tasks s !! t with
            | Some task =>
                if translation_callback s then
                  Some (set_worker w (NotifyingTranslation t translated_text)
                          (emit (TranslationCallback t
                                   (translation_result task translated_text)) s))
                else Some (set_worker w (Synthesizing t translated_text) s)
            | None => None
            end
      | Raised e => Some (on_exception w t e s)
      | TimedOut => Some (on_timeout w t s)
      end
  | _ => None
  end.

(** The awaited [translation_callback] comes back; synthesis starts only
    after it returned. *)
Definition translation_callback_ends (w : nat) (r : Awaited unit) (s : State)
  : option State :=
  match workers s !! w with
  | Some (NotifyingTranslation t translated_text) =>
      match r with
      | Returned _ =>
          Some (set_worker w (Synthesizing t translated_text)
                  (emit (TranslationCallbackDone t) s))
      | Raised e => Some (on_exception w t e s)
      | TimedOut => Some (on_timeout w t s)
      end
  | _ => None
  end.

(** The synthesis service invokes the local [chunk_callback]. *)
Definition synthesis_calls (w : nat) (chunk_data : bytes) (is_final : bool)
    (audio_format : string) (s : State) : option State :=
  match workers s !! w with
  | Some (Synthesizing t _) =>
      if audio_chunk_callback s then
        Some (emit (AudioChunkCallback t chunk_data is_final audio_format) s)
      else Some s
  | _ => None
  end.

(** [text_to_speech] comes back. *)
Definition synthesis_ends (w : nat) (r : Awaited (option T2V.Audio))
    (s : State) : option State :=
  match workers s !! w with
  | Some (Synthesizing t translated_text) =>
      match r with
      | Returned audio_data =>
          let finish task :=
            let translation_result := translation_result task translated_text in
            let result :=
              match audio_data with
              | Some a =>
                  {| original_text := original_text translation_result;
                     translated_text := translated_text;
                     result_target_language :=
                       result_target_language translation_result;
                     result_task_id := result_task_id translation_result;
                     audio_size :=
                       Some (Z.of_nat (length (T2V.audio_data a))) |}
              | None => translation_result
              end in
            set_completed_at (Some (clock s))
              (set_status COMPLETED (set_result (Some result) task)) in
          Some (set_worker w Polling (finally t (update_task finish t s)))
      | Raised e => Some (on_exception w t e s)
      | TimedOut => Some (on_timeout w t s)
      end
  | _ => None
  end.

(** The awaited [error_callback] comes back, one way or another. *)
Definition error_callback_ends (w : nat) (s : State) : option State :=
  match workers s !! w with
  | Some (NotifyingError t) => Some (set_worker w Polling (finally t s))
  | _ => None
  end.

(** [clear_pending_tasks]. *)
Definition mark_each (e : string) (ids : list nat)
                     (m : gmap nat TranslationTask) : gmap nat TranslationTask :=
  foldl (fun m t => alter (mark FAILED e) t m) m ids.

Definition clear_pending_tasks (s : State) : State :=
  let s := set_pending_queue []
             (set_tasks (mark_each "Task cleared by user" (pending_queue s)
                           (tasks s)) s) in
  let s := set_tasks (mark_each "Task cancelled by user"
                        (elements (active_tasks s)) (tasks s)) s in
  set_completed_tasks ∅ s.

(** [get_task_status]. *)
Record Snapshot := {
  snap_id : nat;
  snap_status : string;
  snap_text : str;
  snap_target_language : string;
  snap_created_at : Q;
  snap_started_at : option Q;
  snap_completed_at : option Q;
  snap_duration : option Q;
  snap_error : option ErrorText;
  snap_result : option TranslationResult
}.

Definition snapshot (task : TranslationTask) : Snapshot :=
  {| snap_id := id task;
     snap_status := value (status task);
     snap_text := if (100 <? length (text task))%nat
                  then take 100 (text task) ++ lit "..." else text task;
     snap_target_language := target_language task;
     snap_created_at := created_at task;
     snap_started_at := started_at task;
     snap_completed_at := completed_at task;
     snap_duration :=
       match started_at task, completed_at task with
       | Some a, Some c =>
           if negb (Qeq_bool a 0) && negb (Qeq_bool c 0) then Some (c - a)%Q
           else None
       | _, _ => None
       end;
     snap_error := error task;
     snap_result := result task |}.

Definition get_task_status (task_id : nat) (s : State) : option Snapshot :=
  if bool_decide (task_id ∈ active_tasks s) then
    snapshot <$> tasks s !! task_id
  else if bool_decide (task_id ∈ completed_tasks s) then
    snapshot <$> tasks s !! task_id
  else None.

(** [get_queue_stats]. *)
Record Stats := {
  pending_count : Z;
  active_count : Z;
  completed_count : Z;
  stats_max_concurrent : Z;
  stats_is_running : bool;
  workers_count : Z
}.

Definition get_queue_stats (s : State) : Stats :=
  {| pending_count := Z.of_nat (length (pending_queue s));
     active_count := Z.of_nat (size (active_tasks s));
     completed_count := Z.of_nat (size (completed_tasks s));
     stats_max_concurrent := max_concurrent s;
     stats_is_running := is_running s;
     workers_count := Z.of_nat (length (workers s)) |}.

(** *** The scheduler as a transition system *)

(** What can happen next: time passes (the clock never runs backwards), a
    caller invokes a public method, or a suspended worker or a suspended
    call of [add_task] is resumed with the outcome of what it awaits.  Each
    action is the code run between two suspension points of the event
    loop. *)
Inductive Action :=
| Tick (d : Q)
| AddTask (text : str) (target_language : string) (hot_words : list string)
          (translation_style : string) (timeout : option Q)
| EvictionGets (a : nat)
| EvictionEnds (a : nat)
| EvictionTimesOut (a : nat)
| StartWorkers
| StopWorkers
| ClearPendingTasks
| WorkerGets (w : nat)
| TranslateEnds (w : nat) (r : Awaited str)
| TranslationCallbackEnds (w : nat) (r : Awaited unit)
| SynthesisCalls (w : nat) (chunk_data : bytes) (is_final : bool)
                 (audio_format : string)
| SynthesisEnds (w : nat) (r : Awaited (option T2V.Audio))
| ErrorCallbackEnds (w : nat).

(** One action; [None] when it cannot happen in [s]. *)
Definition step (a : Action) (s : State) : option State :=
  match a with
  | Tick d => if Qle_bool 0 d then Some (set_clock (clock s + d)%Q s) else None
  | AddTask text target_language hot_words translation_style timeout =>
      Some (snd (add_task text target_language hot_words translation_style
                   timeout s))
  | EvictionGets a => eviction_gets a s
  | EvictionEnds a => snd <$> eviction_ends a s
  | EvictionTimesOut a => snd <$> eviction_times_out a s
  | StartWorkers => Some (start_workers s)
  | StopWorkers => Some (stop_workers s)
  | ClearPendingTasks => Some (clear_pending_tasks s)
  | WorkerGets w => worker_gets w s
  | TranslateEnds w r => translate_ends w r s
  | TranslationCallbackEnds w r => translation_callback_ends w r s
  | SynthesisCalls w chunk_data is_final audio_format =>
      synthesis_calls w chunk_data is_final audio_format s
  | SynthesisEnds w r => synthesis_ends w r s
  | ErrorCallbackEnds w => error_callback_ends w s
  end.

Fixpoint run (actions : list Action) (s : State) : option State :=
  match actions with
  | [] => Some s
  | a :: rest =>
      match step a s with
      | Some s => run rest s
      | None => None
      end
  end.

(** *** Reading a state *)

(** Position of a status along PENDING, PROCESSING, terminal. *)
Definition rank (s : TaskStatus) : nat :=
  match s with
  | PENDING => 0
  | PROCESSING => 1
  | COMPLETED | FAILED | TIMEOUT => 2
  end.

(** A status change that does not go back: the rank does not decrease, and
    COMPLETED is not entered from PENDING. *)
Definition forward (a b : TaskStatus) : Prop :=
  (rank a <= rank b)%nat /\ ~ (a = PENDING /\ b = COMPLETED).

(** A status change of task [i] as one action of state [s] can make it:
    forward, and into COMPLETED only for a task whose synthesis a worker
    has been awaiting. *)
Definition moves (s : State) (i : nat) (a b : TaskStatus) : Prop :=
  forward a b
  /\ (b = COMPLETED ->
      a = COMPLETED \/ exists w x, workers s !! w = Some (Synthesizing i x)).

(** The timestamps of one task make sense at clock reading [now]. *)
Definition task_ok (now : Q) (task : TranslationTask) : Prop :=
  (created_at task <= now)%Q
  /\ (forall a, started_at task = Some a ->
                (created_at task <= a)%Q /\ (a <= now)%Q)
  /\ (forall d, completed_at task = Some d ->
                exists a, started_at task = Some a /\ (a <= d)%Q /\ (d <= now)%Q)
  /\ (status task = COMPLETED -> is_Some (completed_at task))
  /\ (status task = PENDING ->
      started_at task = None /\ completed_at task = None).

(** The invariant of the scheduler, on the task store [m], the tasks [q]
    that wait (in the pending queue or in the hands of a suspended call of
    [add_task]), the workers [ws], the clock [c] and the next fresh id
    [n]. *)
Record WF (m : gmap nat TranslationTask) (q : list nat) (ws : list Worker)
          (c : Q) (n : nat) : Prop := {
  wf_tasks : forall i task, m !! i = Some task -> (i < n)%nat /\ task_ok c task;
  wf_nodup : NoDup q;
  wf_queued : forall i, i ∈ q ->
                exists task, m !! i = Some task /\ status task = PENDING;
  wf_held : forall w pc t, ws !! w = Some pc -> held pc = Some t ->
              exists task, m !! t = Some task /\ is_Some (started_at task);
  wf_ages : forall i j ti tj, m !! i = Some ti -> m !! j = Some tj ->
              (i <= j)%nat -> (created_at ti <= created_at tj)%Q
}.

(** The tasks the suspended calls of [add_task] have in hand. *)
Definition in_hand (ads : list Adder) : list nat := ads ≫= claimed.

Definition waiting (s : State) : list nat :=
  pending_queue s ++ in_hand (adders s).

Definition wf (s : State) : Prop :=
  WF (tasks s) (waiting s) (workers s) (clock s) (fresh s).

(** A freshly constructed queue with its callbacks registered. *)
Definition configured (max_concurrent : Z) (default_timeout now : Q)
    (translation audio audio_chunk error : bool) : State :=
  set_callbacks translation audio audio_chunk error
    (init max_concurrent default_timeout now).

(** The event [e] occurs in the log before position [k]. *)
Definition before (e : Event) (k : nat) (l : list Event) : Prop :=
  exists j, (j < k)%nat /\ l !! j = Some e.

(** The ordering of callbacks in a log: an audio chunk of a task comes after
    the return of that task's translation callback, which comes after its
    invocation. *)
Definition ordered (l : list Event) : Prop :=
  forall k e, l !! k = Some e ->
    match e with
    | AudioChunkCallback t _ _ _ => before (TranslationCallbackDone t) k l
    | TranslationCallbackDone t => exists r, before (TranslationCallback t r) k l
    | _ => True
    end.

(** What the log records for the task each worker holds. *)
Definition notified (l : list Event) (pc : Worker) : Prop :=
  match pc with
  | NotifyingTranslation t _ => exists r, TranslationCallback t r ∈ l
  | Synthesizing t _ => TranslationCallbackDone t ∈ l
  | _ => True
  end.

(** What must already be in the log [l] when [e] is appended to it. *)
Definition announced (l : list Event) (e : Event) : Prop :=
  match e with
  | AudioChunkCallback t _ _ _ => TranslationCallbackDone t ∈ l
  | TranslationCallbackDone t => exists r, TranslationCallback t r ∈ l
  | _ => True
  end.

(** The log is ordered and agrees with where the workers are. *)
Definition Obs (l : list Event) (ws : list Worker) : Prop :=
  ordered l /\ forall w pc, ws !! w = Some pc -> notified l pc.

(** The invariant behind the callback ordering. *)
Definition observed (s : State) : Prop :=
  Obs (log s) (workers s)
  /\ forall i task, tasks s !! i = Some task -> status task = COMPLETED ->
       TranslationCallbackDone i ∈ log s.

(** *** Worked runs *)

Definition hello : str := lit "hello".
Definition bonjour : str := lit "bonjour".
Definition some_audio : T2V.Audio :=
  {| T2V.audio_data := [x01; x02]; T2V.format := "mp3" |}.

Definition enqueue (text : str) : Action :=
  AddTask text "French" [] "default" None.

(** Capacity one, no worker started: the second task evicts the first. *)
Definition overflow_run : list Action :=
  [enqueue hello; enqueue hello; EvictionGets 0; EvictionEnds 0].

(** Capacity zero: the first task finds an empty queue at capacity; its
    wait for a task to evict times out and it is admitted. *)
Definition zero_capacity_run : list Action :=
  [enqueue hello; EvictionGets 0; EvictionTimesOut 0].

(** Capacity one, one worker polling: the first task is queued; the second
    one finds the queue at capacity and waits; the worker, woken by the
    first [put], takes the first task before the second call's [get] runs,
    which then finds nothing and times out. *)
Definition overtaken_run : list Action :=
  [StartWorkers; enqueue hello; enqueue bonjour; WorkerGets 0;
   EvictionGets 0; EvictionTimesOut 0].

(** Capacity one, no worker started: a second call evicts the first task;
    a third call arrives a millisecond after the second call's [get] has
    emptied the queue and before the second call is resumed. *)
Definition overlapping_run : list Action :=
  [enqueue hello; Tick 1; enqueue hello; EvictionGets 0;
   Tick (1 # 1000); enqueue bonjour; EvictionEnds 0].

(** One task goes through translation and synthesis. *)
Definition success_run : list Action :=
  [ StartWorkers; enqueue hello; Tick 1; WorkerGets 0;
    Tick 2; TranslateEnds 0 (Returned bonjour);
    TranslationCallbackEnds 0 (Returned tt);
    SynthesisCalls 0 [x01] false "mp3";
    SynthesisCalls 0 [x02] false "mp3";
    SynthesisCalls 0 [x02] true "mp3";
    Tick 1; SynthesisEnds 0 (Returned (Some some_audio)) ].

(** The translator raises. *)
Definition failure_run : list Action :=
  [ StartWorkers; enqueue hello; Tick 1; WorkerGets 0;
    Tick 2; TranslateEnds 0 (Raised "Translation API error: boom");
    ErrorCallbackEnds 0 ].

(** A task is taken from the queue after its timeout has passed. *)
Definition stale_run : list Action :=
  [ enqueue hello; Tick 46; StartWorkers; WorkerGets 0 ].

(** The user clears the queue while the translator is still working on the
    task; the translator then answers and synthesis completes. *)
Definition cancelled_run : list Action :=
  [ StartWorkers; enqueue hello; Tick 1; WorkerGets 0;
    Tick 1; ClearPendingTasks;
    Tick 1; TranslateEnds 0 (Returned bonjour);
    TranslationCallbackEnds 0 (Returned tt);
    SynthesisCalls 0 [x01; x02] false "mp3";
    SynthesisCalls 0 [x01; x02] true "mp3";
    Tick 1; SynthesisEnds 0 (Returned (Some some_audio)) ].

(** The status of task [i], if the store has it. *)
Definition status_of (i : nat) (s : State) : option TaskStatus :=
  status <$> tasks s !! i.

(** The status, [started_at] and [completed_at] of task [i]. *)
Definition timestamps_of (i : nat) (s : State)
  : option (TaskStatus * option Q * option Q) :=
  (fun task => (status task, started_at task, completed_at task))
    <$> tasks s !! i.

(** No call of [add_task] is suspended. *)
Definition calm (s : State) : bool :=
  forallb (fun a => negb (suspended a)) (adders s).

(** The calls of [add_task] do not overlap along the run of [actions] from
    [s]: each one is made while no earlier one is suspended. *)
Fixpoint serial (actions : list Action) (s : State) : bool :=
  match actions with
  | [] => true
  | a :: rest =>
      match step a s with
      | Some s' =>
          match a with AddTask _ _ _ _ _ => calm s | _ => true end
          && serial rest s'
      | None => false
      end
  end.

(** What holds of the queue [q] and the calls [ads] of [add_task] as long
    as the calls do not overlap, for the capacity [c]: the queue is within
    capacity and in the order of the ids; a suspended call's new task is
    younger than every queued task; while its [get] waits the queue stays
    empty, and once its [get] has returned the queue has room for the new
    task; and at most one call is suspended. *)
Definition Serial (c : Z) (q : list nat) (ads : list Adder) : Prop :=
  Z.of_nat (length q) <= Z.max 1 c
  /\ StronglySorted lt q
  /\ (forall a ad, ads !! a = Some ad ->
        match ad with
        | Evicting t => Forall (fun j => (j < t)%nat) q
        | Waiting t => q = []
        | Evicted t o =>
            Z.of_nat (length q) + 1 <= Z.max 1 c
            /\ Forall (fun j => (j < t)%nat) q
        | Added _ => True
        end)
  /\ (forall a a' ad ad', ads !! a = Some ad -> ads !! a' = Some ad' ->
        suspended ad = true -> suspended ad' = true -> a = a').

Definition in_series (s : State) : Prop :=
  Serial (max_concurrent s) (pending_queue s) (adders s).

(** [_validate_api_clients], given what the probe translation of ["test"]
    came back with. *)
Definition _validate_api_clients (test_result : Result str) : bool :=
  match test_result with
  | Return r => negb (is_empty_result r)
  | Raise _ => false
  end.

(** *** Bookkeeping *)

(** Who holds what: the active set is the set of the tasks the workers
    hold, and no task is held by two workers. *)
Definition Held (ws : list Worker) (active : gset nat) : Prop :=
  (forall t, t ∈ active <->
             exists w pc, ws !! w = Some pc /\ held pc = Some t)
  /\ (forall w w' pc pc' t,
        ws !! w = Some pc -> ws !! w' = Some pc' ->
        held pc = Some t -> held pc' = Some t -> w = w').

(** The retained tasks are in the store and have been started; the store
    is keyed by the tasks' own ids. *)
Definition Kept (m : gmap nat TranslationTask) (completed : gset nat) : Prop :=
  (forall i, i ∈ completed ->
             exists task, m !! i = Some task /\ is_Some (started_at task))
  /\ (forall i task, m !! i = Some task -> id task = i).

(** The bookkeeping invariant of the scheduler. *)
Definition tracked (s : State) : Prop :=
  Held (workers s) (active_tasks s)
  /\ Kept (tasks s) (completed_tasks s)
  /\ length (workers s)
     = if is_running s then Z.to_nat (max_concurrent s) else 0%nat.

(** An update of a task object that keeps its identity and does not
    forget that it was started. *)
Definition keeps_start (f : TranslationTask -> TranslationTask) : Prop :=
  forall task, id (f task) = id task
               /\ (is_Some (started_at task) -> is_Some (started_at (f task))).

(** What the log says about the tasks: a task whose error callback was
    invoked is FAILED and, if a worker still holds it, that worker is
    awaiting the error callback; a task whose translation callback was
    invoked has been started and no worker is translating it; and the
    translation callback was invoked at most once for it. *)
Definition Rep (l : list Event) (m : gmap nat TranslationTask)
               (ws : list Worker) : Prop :=
  (forall t e, ErrorCallback t e ∈ l ->
     (exists task, m !! t = Some task /\ status task = FAILED)
     /\ forall w pc, ws !! w = Some pc -> held pc = Some t ->
                     pc = NotifyingError t)
  /\ (forall t r, TranslationCallback t r ∈ l ->
        (exists task, m !! t = Some task /\ is_Some (started_at task))
        /\ forall w, ws !! w <> Some (Translating t))
  /\ (forall j k t r r',
        l !! j = Some (TranslationCallback t r) ->
        l !! k = Some (TranslationCallback t r') -> j = k).

Definition reported (s : State) : Prop :=
  Rep (log s) (tasks s) (workers s).

End Queue.

(** * Properties of the utterance segmenter *)
Section SegmenterFacts.
Import Segmenter.

Lemma frombuffer_int16_pairs (n : nat) :
  forall b : bytes, length b = (2 * n)%nat ->
    exists l, frombuffer_int16 b = Some l /\ length l = n.
Proof.
  induction n as [|n IH]; intros b Hb.
  - destruct b; [|discriminate]. exists []. split; reflexivity.
  - destruct b as [|lo [|hi rest]]; simpl in Hb; try lia.
    destruct (IH rest) as [l [Hl Hn]]; [lia|].
    exists (int16_le lo hi :: l). simpl. rewrite Hl. split; [reflexivity|].
    simpl. congruence.
Qed.

Lemma concat_even_length (fs : list bytes) :
  Forall (fun f : bytes => Nat.even (length f) = true) fs ->
  exists n, length (concat fs) = (2 * n)%nat.
Proof.
  induction 1 as [|f fs Hf _ [n Hn]].
  - exists 0%nat. reflexivity.
  - apply Nat.even_spec in Hf. destruct Hf as [k Hk].
    exists (k + n)%nat. simpl. rewrite length_app. lia.
Qed.

Lemma finalize_consistent (ap : AudioProcessor) :
  Forall (fun f : bytes => Nat.even (length f) = true) (speech_frames ap) ->
  exists segment, _finalize_segment ap = Return segment
    /\ (2 * length segment = length (concat (speech_frames ap)))%nat.
Proof.
  intros Hev. unfold _finalize_segment.
  destruct (concat_even_length _ Hev) as [n Hn].
  destruct (frombuffer_int16_pairs n _ Hn) as [l [Hl Hlen]].
  destruct (speech_frames ap) as [|f fs] eqn:E.
  - exists []. split; reflexivity.
  - rewrite Hl. eexists. split; [reflexivity|].
    rewrite length_map. lia.
Qed.

Lemma reset_consistent (ap : AudioProcessor) : consistent (_reset_state ap).
Proof. split; simpl; auto. Qed.

Lemma reset_idle (ap : AudioProcessor) :
  speech_frames ap = [] -> silence_frames ap = 0 ->
  speech_started ap = false -> _reset_state ap = ap.
Proof. destruct ap; simpl; intros; subst; reflexivity. Qed.

Lemma process_frame_consistent is_speech ap frame :
  Nat.even (length frame) = true -> consistent ap ->
  consistent (snd (_process_frame is_speech ap frame)).
Proof.
  intros Hf [Hidle Hev]. unfold _process_frame.
  assert (Happ : forall fs : list bytes, fs ++ [frame] <> []).
  { intros fs H. apply app_eq_nil in H. destruct H; discriminate. }
  assert (Hne : speech_started ap = true -> speech_frames ap <> []).
  { intros Hst H. apply Hidle in H. destruct H; congruence. }
  destruct (is_speech frame (sample_rate ap)) as [[|]|e]; simpl;
    [ | | split; auto].
  - destruct (speech_started ap); simpl; split; simpl;
      solve [ intros H; exfalso; eapply Happ; eassumption
            | apply Forall_app; split; auto ].
  - destruct (speech_started ap) eqn:Hst; simpl;
      [|split; [rewrite Hst; exact Hidle | exact Hev]].
    specialize (Hne eq_refl).
    repeat match goal with
           | |- context [if ?b then _ else _] => destruct b; simpl
           | |- context [match _finalize_segment ?x with _ => _ end] =>
               destruct (_finalize_segment x); simpl
           end;
      try apply reset_consistent; split; simpl;
      solve [ intros H; exfalso; eapply Happ; eassumption
            | intros H; exfalso; auto
            | apply Forall_app; split; auto
            | auto ].
Qed.

Lemma process_frames_consistent is_speech frames :
  forall ap,
    Forall (fun f : bytes => Nat.even (length f) = true) frames ->
    consistent ap ->
    consistent (snd (process_frames is_speech frames ap)).
Proof.
  induction frames as [|f rest IH]; intros ap Hfs Hap; simpl; [exact Hap|].
  inversion Hfs; subst.
  pose proof (process_frame_consistent is_speech ap f) as Hstep.
  destruct (_process_frame is_speech ap f) as [seg ap1]. simpl in Hstep.
  specialize (IH ap1).
  destruct (process_frames is_speech rest ap1) as [segs ap2]. simpl in *.
  auto.
Qed.

(** Whatever the state, a segment handed out by [force_segment] was built
    from at least [min_speech_frames] buffered frames. *)
Lemma force_segment_some (ap ap' : AudioProcessor) (segment : ndarray) :
  force_segment ap = (Return (Some segment), ap') ->
  min_speech_frames ap <= Z.of_nat (length (speech_frames ap))
  /\ _finalize_segment ap = Return segment /\ ap' = _reset_state ap.
Proof.
  unfold force_segment. destruct (_ >=? _) eqn:Hge.
  - destruct (_finalize_segment ap) eqn:Hfin; intros H; inversion H; subst.
    repeat split. lia.
  - destruct (speech_frames ap); intros H; inversion H.
Qed.

(** A freshly constructed processor is consistent. *)
Lemma init_consistent sr fd vm st ms ap :
  init sr fd vm st ms = Return ap -> consistent ap.
Proof.
  unfold init. destruct (fd =? 0); [discriminate|].
  intros H; inversion H; subst. split; simpl; auto.
Qed.

Lemma force_segment_consistent (ap : AudioProcessor) :
  consistent ap ->
  (exists segment,
      force_segment ap = (Return (Some segment), _reset_state ap)
      /\ min_speech_frames ap <= Z.of_nat (length (speech_frames ap))
      /\ _finalize_segment ap = Return segment
      /\ (2 * length segment = length (concat (speech_frames ap)))%nat)
  \/ (force_segment ap = (Return None, _reset_state ap)
      /\ Z.of_nat (length (speech_frames ap)) < min_speech_frames ap).
Proof.
  intros [Hidle Hev].
  unfold force_segment. destruct (_ >=? _) eqn:Hge.
  - left. destruct (finalize_consistent ap Hev) as [seg [Hseg Hlen]].
    exists seg. rewrite Hseg. repeat split; auto. lia.
  - right. split; [|lia].
    destruct (speech_frames ap) eqn:E; [|reflexivity].
    destruct (Hidle eq_refl) as [Hs Hst].
    rewrite reset_idle; auto.
Qed.

(** C8.  Take a processor as [__init__] builds it and feed it any sequence
    of frames, each holding whole 16-bit samples, under any classifier.
    [force_segment] then does not raise; it returns either one segment,
    built from all the buffered frames, whose number is at least
    [min_speech_frames], or nothing, and then fewer than
    [min_speech_frames] frames were buffered.  A segment below the
    threshold is never returned.  Either way the processor is left reset:
    afterwards no frame is buffered, the count of silent frames is zero
    and no utterance is in progress (a buffer below the threshold has been
    discarded), while the bytes awaiting framing are kept. *)
Theorem force_segment_meets_threshold sr fd vm st ms ap0 is_speech frames :
  init sr fd vm st ms = Return ap0 ->
  Forall (fun f : bytes => Nat.even (length f) = true) frames ->
  let ap := snd (process_frames is_speech frames ap0) in
  ((exists segment,
       force_segment ap = (Return (Some segment), _reset_state ap)
       /\ min_speech_frames ap <= Z.of_nat (length (speech_frames ap))
       /\ _finalize_segment ap = Return segment
       /\ (2 * length segment = length (concat (speech_frames ap)))%nat)
   \/ (force_segment ap = (Return None, _reset_state ap)
       /\ Z.of_nat (length (speech_frames ap)) < min_speech_frames ap))
  /\ speech_frames (snd (force_segment ap)) = []
  /\ silence_frames (snd (force_segment ap)) = 0
  /\ speech_started (snd (force_segment ap)) = false
  /\ audio_buffer (snd (force_segment ap)) = audio_buffer ap.
Proof.
  intros H0 Hfs ap.
  assert (Hc : consistent ap).
  { apply process_frames_consistent; [exact Hfs|].
    eapply init_consistent; eauto. }
  pose proof (force_segment_consistent ap Hc) as Hf.
  split; [exact Hf|].
  destruct Hf as [(segment & -> & _)|[-> _]]; simpl; auto.
Qed.

Lemma force_segment_meets_threshold_witness :
  let ap := snd (process_frames scripted_vad
                   [speech_frame; speech_frame; silence_frame] tiny) in
  ((exists segment,
       force_segment ap = (Return (Some segment), _reset_state ap)
       /\ min_speech_frames ap <= Z.of_nat (length (speech_frames ap))
       /\ _finalize_segment ap = Return segment
       /\ (2 * length segment = length (concat (speech_frames ap)))%nat)
   \/ (force_segment ap = (Return None, _reset_state ap)
       /\ Z.of_nat (length (speech_frames ap)) < min_speech_frames ap))
  /\ speech_frames (snd (force_segment ap)) = []
  /\ silence_frames (snd (force_segment ap)) = 0
  /\ speech_started (snd (force_segment ap)) = false
  /\ audio_buffer (snd (force_segment ap)) = audio_buffer ap.
Proof.
  apply (force_segment_meets_threshold 1000 1 3 2 2 tiny scripted_vad
           [speech_frame; speech_frame; silence_frame]).
  - reflexivity.
  - repeat constructor.
Defined.

(** *** Chunks through [add_audio_chunk] *)

Lemma process_frame_keeps is_speech ap frame :
  frame_bytes (snd (_process_frame is_speech ap frame)) = frame_bytes ap
  /\ audio_buffer (snd (_process_frame is_speech ap frame)) = audio_buffer ap.
Proof.
  unfold _process_frame.
  destruct (is_speech frame (sample_rate ap)) as [[|]|e]; simpl;
    try (split; reflexivity).
  - destruct (speech_started ap); split; reflexivity.
  - destruct (speech_started ap); simpl; [|split; reflexivity].
    destruct (silence_frames ap + 1 <=? 3); simpl;
      destruct (_ >=? _); simpl; try (split; reflexivity);
      destruct (_ >=? _); simpl; try (split; reflexivity);
      destruct (_finalize_segment _); split; reflexivity.
Qed.

Lemma consistent_buffer b ap : consistent ap -> consistent (set_audio_buffer b ap).
Proof. intros H. exact H. Qed.

(** With a positive frame size the loop of [add_audio_chunk] terminates. *)
Lemma drain_buffer_total is_speech : forall fuel ap,
  0 < frame_bytes ap ->
  (length (audio_buffer ap) < fuel)%nat ->
  is_Some (drain_buffer is_speech fuel ap).
Proof.
  induction fuel as [|fuel IH]; intros ap Hpos Hlen; [lia|].
  cbn [drain_buffer]. destruct (_ >=? _) eqn:E; [|eauto].
  apply Z.geb_le in E.
  set (n := Z.to_nat (frame_bytes ap)).
  set (ap1 := set_audio_buffer (drop n (audio_buffer ap)) ap).
  destruct (process_frame_keeps is_speech ap1 (take n (audio_buffer ap)))
    as [Hfb Hab].
  destruct (_process_frame is_speech ap1 (take n (audio_buffer ap)))
    as [seg ap2]. simpl in Hfb, Hab.
  destruct (IH ap2) as [[segs ap3] H3].
  - rewrite Hfb. exact Hpos.
  - rewrite Hab. simpl. rewrite length_drop. unfold n. lia.
  - rewrite H3. eauto.
Qed.

(** It keeps the processor consistent when frames hold whole samples. *)
Lemma drain_buffer_consistent is_speech : forall fuel ap segments ap',
  Nat.even (Z.to_nat (frame_bytes ap)) = true ->
  consistent ap ->
  drain_buffer is_speech fuel ap = Some (segments, ap') ->
  consistent ap' /\ frame_bytes ap' = frame_bytes ap.
Proof.
  induction fuel as [|fuel IH]; intros ap segments ap' Hev Hc;
    cbn [drain_buffer]; destruct (_ >=? _) eqn:E;
    try discriminate;
    try (intros H; inversion H; subst; split; [exact Hc | reflexivity]).
  apply Z.geb_le in E.
  set (n := Z.to_nat (frame_bytes ap)) in *.
  set (ap1 := set_audio_buffer (drop n (audio_buffer ap)) ap).
  assert (Hframe : Nat.even (length (take n (audio_buffer ap))) = true).
  { rewrite length_take. replace (n `min` length (audio_buffer ap))%nat with n;
      [exact Hev | unfold n; lia]. }
  pose proof (process_frame_consistent is_speech ap1 _ Hframe
                (consistent_buffer _ _ Hc)) as Hc2.
  destruct (process_frame_keeps is_speech ap1 (take n (audio_buffer ap)))
    as [Hfb Hab].
  destruct (_process_frame is_speech ap1 (take n (audio_buffer ap)))
    as [seg ap2]. simpl in Hfb, Hab, Hc2.
  destruct (drain_buffer is_speech fuel ap2) as [[segs ap3]|] eqn:E3;
    [|discriminate].
  intros H; inversion H; subst.
  destruct (IH ap2 segs ap' ) as [H1 H2]; auto.
  - rewrite Hfb. exact Hev.
  - split; [exact H1|]. rewrite H2, Hfb. reflexivity.
Qed.

(** Every stream of chunks is processed to the end, and [force_segment]
    afterwards obeys the threshold: the property of C8 through the public
    entry point. *)
Theorem force_segment_after_chunks sr fd vm st ms ap0 is_speech chunks :
  init sr fd vm st ms = Return ap0 ->
  0 < frame_size ap0 ->
  exists segments ap,
    feed is_speech chunks ap0 = Some (segments, ap)
    /\ ((exists segment,
            force_segment ap = (Return (Some segment), _reset_state ap)
            /\ min_speech_frames ap <= Z.of_nat (length (speech_frames ap)))
        \/ (force_segment ap = (Return None, _reset_state ap)
            /\ Z.of_nat (length (speech_frames ap)) < min_speech_frames ap)).
Proof.
  intros Hinit Hpos.
  assert (Hfb : frame_bytes ap0 = frame_size ap0 * 2).
  { unfold init in Hinit. destruct (fd =? 0); [discriminate|].
    inversion Hinit; subst. reflexivity. }
  assert (Hinv : consistent ap0 /\ 0 < frame_bytes ap0
                 /\ Nat.even (Z.to_nat (frame_bytes ap0)) = true).
  { split; [eapply init_consistent; eauto|]. split; [lia|].
    rewrite Hfb. rewrite Z.mul_comm, Z2Nat.inj_mul by lia.
    apply Nat.even_spec. exists (Z.to_nat (frame_size ap0)).
    change (Z.to_nat 2) with 2%nat. lia. }
  clear Hinit Hpos Hfb. revert ap0 Hinv.
  induction chunks as [|c rest IH]; intros ap0 (Hc & Hpos & Hev).
  - exists [], ap0. split; [reflexivity|].
    destruct (force_segment_consistent ap0 Hc)
      as [(seg & H1 & H2 & _)|H]; [left; eauto | right; exact H].
  - cbn [feed]. unfold add_audio_chunk.
    set (ap1 := set_audio_buffer (audio_buffer ap0 ++ c) ap0).
    destruct (drain_buffer_total is_speech
                (S (length (audio_buffer ap0) + length c)) ap1)
      as [[segs ap2] H2].
    + exact Hpos.
    + simpl. rewrite length_app. lia.
    + rewrite H2.
      destruct (drain_buffer_consistent is_speech _ ap1 segs ap2 Hev
                  (consistent_buffer _ _ Hc) H2) as [Hc2 Hfb2].
      destruct (IH ap2) as (segs' & ap3 & H3 & Hforce).
      * simpl in Hfb2. rewrite Hfb2. auto.
      * rewrite H3. eauto.
Qed.

(** C9, refuted as stated.  With speech in progress, a frame on which the
    classifier raises leaves the silence counter where it was and appends
    nothing, whereas the same frame classified as silence advances the
    counter and joins the buffer. *)
Lemma vad_failure_not_silence :
  scripted_vad broken_frame (sample_rate speaking)
    = Raise "Error while processing frame"
  /\ speech_started speaking = true
  /\ silence_frames (snd (_process_frame scripted_vad speaking broken_frame))
     = silence_frames speaking
  /\ silence_frames (snd (_process_frame always_silence speaking broken_frame))
     = silence_frames speaking + 1
  /\ _process_frame scripted_vad speaking broken_frame
     <> _process_frame always_silence speaking broken_frame.
Proof.
  repeat split; try reflexivity. vm_compute. discriminate.
Qed.

(** C9, as the code has it.  A frame on which the classifier raises is
    dropped: no segment is produced and the processor is left exactly as it
    was (counter, buffer and flags).  This is what a silence frame does
    only while no speech is in progress. *)
Theorem vad_failure_drops_frame is_speech ap frame e :
  is_speech frame (sample_rate ap) = Raise e ->
  _process_frame is_speech ap frame = (None, ap)
  /\ (speech_started ap = false ->
      _process_frame is_speech ap frame
      = _process_frame always_silence ap frame).
Proof.
  intros Hraise. unfold _process_frame. rewrite Hraise.
  split; [reflexivity|]. intros Hst. simpl. rewrite Hst. reflexivity.
Qed.

Lemma vad_failure_drops_frame_witness :
  _process_frame scripted_vad speaking broken_frame = (None, speaking)
  /\ (speech_started speaking = false ->
      _process_frame scripted_vad speaking broken_frame
      = _process_frame always_silence speaking broken_frame).
Proof.
  apply (vad_failure_drops_frame scripted_vad speaking broken_frame
           "Error while processing frame").
  reflexivity.
Defined.

End SegmenterFacts.

(** * Properties of the streaming synthesis loop *)
Section T2VFacts.
Import T2V.

(** Running the loop over [pre ++ rest] is running it over [pre] and, if
    it is still going, over [rest]. *)
Lemma receive_app cb pre :
  forall st calls st' rest,
    receive cb st pre = (calls, st', Continue) ->
    receive cb st (pre ++ rest)
    = let '(calls', st'', c) := receive cb st' rest in
      (calls ++ calls', st'', c).
Proof.
  induction pre as [|r pre IH]; intros st calls st' rest H; simpl in *.
  - inversion H; subst. destruct (receive cb st' rest) as [[? ?] ?].
    reflexivity.
  - destruct (turn cb st r) as [[c1 st1] [| |]]; try discriminate.
    destruct (receive cb st1 pre) as [[c2 st2] ctl] eqn:E.
    inversion H; subst.
    rewrite (IH _ _ _ rest E).
    destruct (receive cb st' rest) as [[c3 st3] ctl3].
    rewrite app_assoc. reflexivity.
Qed.

Lemma last_nonempty_call_snoc calls c :
  last_nonempty_call (calls ++ [c])
  = if nonempty (chunk_data c) then Some c else last_nonempty_call calls.
Proof.
  induction calls as [|d calls IH]; simpl.
  - destruct (nonempty (chunk_data c)); reflexivity.
  - rewrite IH. destruct (nonempty (chunk_data c)); reflexivity.
Qed.

Lemma tracks_initial : tracks [] initial.
Proof. repeat split; constructor. Qed.

Lemma receive_audio_tracks calls st m calls' st' :
  tracks calls st ->
  receive_audio true st m = Some (calls', st') ->
  tracks (calls ++ calls') st'.
Proof.
  intros (Hmap & Hnf & Htot & Hlast). unfold receive_audio.
  destruct (audio m) as [h|].
  - destruct (decode_audio h) as [b|]; [|discriminate].
    intros H; inversion H; subst; clear H. simpl.
    repeat split; simpl.
    + rewrite map_app, Hmap. reflexivity.
    + apply Forall_app; split; [exact Hnf | repeat constructor].
    + rewrite length_app, Htot. simpl. lia.
    + rewrite last_nonempty_call_snoc. simpl.
      destruct (nonempty b); [reflexivity | exact Hlast].
  - intros H; inversion H; subst. rewrite app_nil_r.
    repeat split; assumption.
Qed.

Lemma turn_continue_tracks calls st r calls' st' :
  tracks calls st ->
  turn true st r = (calls', st', Continue) ->
  tracks (calls ++ calls') st'.
Proof.
  intros Ht. unfold turn. destruct r as [m| |e]; try discriminate.
  destruct (receive_audio true st m) as [[c1 st1]|] eqn:E; [|discriminate].
  repeat case_bool_decide; try discriminate.
  intros Heq; inversion Heq; subst. eapply receive_audio_tracks; eauto.
Qed.






(** C7, refuted as stated.  The payload ["zz"] is neither hex nor base64.
    The loop stops on it: nothing is forwarded, the chunk and the
    completion event that follow are never read, and the result is
    "no audio", whereas the same stream without the bad message delivers
    its chunk. *)
Lemma undecodable_payload_aborts_stream :
  decode_audio "zz" = None
  /\ synthesize_text true true true
       [Msg (chunk_message "zz"); Msg (chunk_message "0a");
        Msg finished_message]
     = ([], Some (Return None))
  /\ synthesize_text true true true
       [Msg (chunk_message "0a"); Msg finished_message]
     = ([ {| chunk_data := [x0a]; is_final := false; chunk_format := "mp3" |};
          {| chunk_data := [x0a]; is_final := true; chunk_format := "mp3" |} ],
        Some (Return (Some {| audio_data := [x0a]; format := "mp3" |}))).
Proof. repeat split; reflexivity. Qed.

(** C7, as the code has it.  A message whose audio payload decodes neither
    as hex nor as base64 ends the receive loop: the chunk is dropped (no
    callback, loop state untouched), nothing that follows is processed and
    no final callback is made; [synthesize_text] returns the audio
    collected before it, if any. *)
Theorem undecodable_payload_ends_loop cb pre m rest calls st h :
  receive cb initial pre = (calls, st, Continue) ->
  audio m = Some h ->
  decode_audio h = None ->
  receive cb initial (pre ++ Msg m :: rest) = (calls, st, Break)
  /\ synthesize_text true true cb (pre ++ Msg m :: rest)
     = (calls,
        Some (Return
                match audio_chunks st with
                | [] => None
                | _ => Some {| audio_data := concat (audio_chunks st);
                               format := audio_format st |}
                end)).
Proof.
  intros Hpre Ha Hd.
  assert (H : receive cb initial (pre ++ Msg m :: rest) = (calls, st, Break)).
  { rewrite (receive_app _ _ _ _ _ (Msg m :: rest) Hpre). simpl.
    unfold turn, receive_audio. rewrite Ha, Hd.
    rewrite app_nil_r. reflexivity. }
  split; [exact H|]. unfold synthesize_text. simpl. rewrite H. reflexivity.
Qed.

Lemma undecodable_payload_ends_loop_witness :
  receive true initial
    ([Msg (chunk_message "0a")] ++ Msg (chunk_message "zz")
       :: [Msg (chunk_message "0b"); Msg finished_message])
  = ([ {| chunk_data := [x0a]; is_final := false; chunk_format := "mp3" |} ],
     {| audio_chunks := [[x0a]]; audio_format := "mp3"; total_chunks := 1;
        last_chunk_info := Some ([x0a], "mp3") |}, Break)
  /\ synthesize_text true true true
       ([Msg (chunk_message "0a")] ++ Msg (chunk_message "zz")
          :: [Msg (chunk_message "0b"); Msg finished_message])
     = ([ {| chunk_data := [x0a]; is_final := false; chunk_format := "mp3" |} ],
        Some (Return (Some {| audio_data := concat [[x0a]];
                              format := "mp3" |}))).
Proof.
  exact (undecodable_payload_ends_loop true [Msg (chunk_message "0a")]
           (chunk_message "zz")
           [Msg (chunk_message "0b"); Msg finished_message]
           [ {| chunk_data := [x0a]; is_final := false;
                chunk_format := "mp3" |} ]
           {| audio_chunks := [[x0a]]; audio_format := "mp3";
              total_chunks := 1; last_chunk_info := Some ([x0a], "mp3") |}
           "zz" eq_refl eq_refl eq_refl).
Defined.

End T2VFacts.

(** * Properties of the translation client *)
Section MiniMaxFacts.
Import PyStr MiniMax.

Lemma lstrip_keeps (c : char) (r : str) :
  isspace c = false -> lstrip (c :: r) = c :: r.
Proof. intros H. simpl. rewrite H. reflexivity. Qed.

Lemma lstrip_head (s : str) (c : char) (r : str) :
  lstrip s = c :: r -> isspace c = false.
Proof.
  induction s as [|a s IH]; simpl; [discriminate|].
  destruct (isspace a) eqn:E; [exact IH|].
  intros H. inversion H; subst. exact E.
Qed.

Lemma rstrip_head (c : char) (r : str) :
  isspace c = false -> exists r', rstrip (c :: r) = c :: r'.
Proof.
  intros H. simpl. destruct (rstrip r); [rewrite H|]; eauto.
Qed.

Lemma rstrip_idempotent (s : str) : rstrip (rstrip s) = rstrip s.
Proof.
  induction s as [|c s IH]; simpl; [reflexivity|].
  destruct (rstrip s) as [|d r'] eqn:E.
  - destruct (isspace c) eqn:Hc; simpl; [reflexivity|]. rewrite Hc. reflexivity.
  - simpl in *. rewrite IH. reflexivity.
Qed.

Lemma strip_idempotent (s : str) : strip (strip s) = strip s.
Proof.
  unfold strip. destruct (lstrip s) as [|c r] eqn:E; [reflexivity|].
  pose proof (lstrip_head _ _ _ E) as Hc.
  destruct (rstrip_head c r Hc) as [r' Hr]. rewrite Hr.
  rewrite (lstrip_keeps c r' Hc), <- Hr. apply rstrip_idempotent.
Qed.

(** A stripped string that is not empty passes the scheduler's test. *)
Lemma stripped_not_empty (s : str) :
  truthy (strip s) = true -> Queue.is_empty_result (strip s) = false.
Proof.
  intros H. unfold Queue.is_empty_result.
  rewrite strip_idempotent, H. reflexivity.
Qed.

Lemma read_stream_silent (lines : list StreamLine) (acc : str) :
  Forall silent lines -> read_stream lines acc = inr acc.
Proof.
  induction 1 as [|l lines Hl _ IH]; simpl; [reflexivity|].
  destruct l as [| | |[c|]|e]; simpl in Hl; try exact IH; [|contradiction].
  rewrite Hl. simpl. destruct (finish_stop c); [reflexivity | exact IH].
Qed.

(** A returned translation is the input text itself or a stripped,
    non-empty string. *)
Lemma translate_text_returns text tl hw style http r :
  translate_text text tl hw style http = Return r ->
  r = text \/ (exists t, r = strip t /\ truthy (strip t) = true).
Proof.
  unfold translate_text, _translate_sync.
  destruct http as [e|code body lines].
  - destruct e; discriminate.
  - destruct (negb (code =? 200)); [discriminate|].
    destruct (read_stream lines []) as [e|t]; [destruct e; discriminate|].
    destruct (truthy (strip t)) eqn:E; simpl; intros H; inversion H; eauto.
Qed.

(** C10.  When the provider answers 200 and no line of the stream carries
    content, [translate_text] returns the input text unchanged, neither
    raising nor returning an empty string.  Consequently, whatever the
    provider does, a returned translation on which the scheduler's
    empty-or-whitespace test fires is the input text itself, which is then
    empty or whitespace. *)
Theorem no_content_returns_input_text text tl hw style body lines :
  Forall silent lines ->
  translate_text text tl hw style (Response 200 body lines) = Return text
  /\ (forall http r,
        translate_text text tl hw style http = Return r ->
        Queue.is_empty_result r = true ->
        r = text /\ Queue.is_empty_result text = true).
Proof.
  intros Hs. split.
  - unfold translate_text, _translate_sync. simpl.
    rewrite (read_stream_silent lines [] Hs). reflexivity.
  - intros http r Hr He.
    destruct (translate_text_returns _ _ _ _ _ _ Hr) as [->|[t [-> Ht]]].
    + split; [reflexivity | exact He].
    + rewrite (stripped_not_empty t Ht) in He. discriminate.
Qed.

Lemma no_content_returns_input_text_witness :
  translate_text Queue.hello "French" [] "default"
    (Response 200 ""
       [Blank; NotData; Data None;
        Data (Some {| content := []; finish_stop := true |})])
  = Return Queue.hello
  /\ (forall http r,
        translate_text Queue.hello "French" [] "default" http = Return r ->
        Queue.is_empty_result r = true ->
        r = Queue.hello /\ Queue.is_empty_result Queue.hello = true).
Proof.
  apply (no_content_returns_input_text Queue.hello "French" [] "default" "").
  repeat constructor.
Defined.

End MiniMaxFacts.

(** * Properties of the pipeline scheduler *)
Section QueueInvariant.
Import PyStr Queue.

(** ** Task-level facts *)

Lemma task_ok_later (c c' : Q) (task : TranslationTask) :
  (c <= c')%Q -> task_ok c task -> task_ok c' task.
Proof.
  intros Hc (H1 & H2 & H3 & H4 & H5). unfold task_ok.
  split; [lra|]. split; [|split; [|split; [exact H4 | exact H5]]].
  - intros a Ha. destruct (H2 _ Ha). split; [auto | lra].
  - intros d Hd. destruct (H3 _ Hd) as (a & Ha & Had & Hdc).
    exists a. repeat split; auto; lra.
Qed.

(** Marking a task FAILED or TIMEOUT leaves its timestamps alone. *)
Lemma task_ok_marked (c : Q) (st : TaskStatus) (e : option ErrorText)
                     (task : TranslationTask) :
  st = FAILED \/ st = TIMEOUT ->
  task_ok c task -> task_ok c (set_error e (set_status st task)).
Proof.
  intros Hst (H1 & H2 & H3 & H4 & H5). unfold task_ok. simpl.
  split; [exact H1|]. split; [exact H2|]. split; [exact H3|].
  split; intros Hx; exfalso; destruct Hst; congruence.
Qed.

Lemma task_ok_started (c : Q) (task : TranslationTask) :
  status task = PENDING -> task_ok c task ->
  task_ok c (set_started_at (Some c) (set_status PROCESSING task)).
Proof.
  intros Hp (H1 & H2 & H3 & H4 & H5). destruct (H5 Hp) as [Hs Hc].
  unfold task_ok. simpl.
  split; [exact H1|]. split; [|split; [|split; discriminate]].
  - intros a Ha. inversion Ha; subst. split; [exact H1 | lra].
  - intros d Hd. congruence.
Qed.

Lemma task_ok_completed (c : Q) (r : option TranslationResult)
                        (task : TranslationTask) :
  is_Some (started_at task) -> task_ok c task ->
  task_ok c (set_completed_at (Some c)
               (set_status COMPLETED (set_result r task))).
Proof.
  intros [a Ha] (H1 & H2 & H3 & H4 & H5). unfold task_ok. simpl.
  split; [exact H1|]. split; [exact H2|]. split; [|split; [eauto|discriminate]].
  intros d Hd. inversion Hd; subst. exists a.
  destruct (H2 _ Ha). repeat split; auto; lra.
Qed.

(** ** Store-level facts *)

Lemma WF_alter m q ws c n (f : TranslationTask -> TranslationTask) (t : nat) :
  WF m q ws c n ->
  t ∉ q ->
  (forall task, m !! t = Some task -> task_ok c task ->
     task_ok c (f task)
     /\ created_at (f task) = created_at task
     /\ (is_Some (started_at task) -> is_Some (started_at (f task)))) ->
  WF (alter f t m) q ws c n.
Proof.
  intros [Ht Hs Hq Hh Ha] Hnq Hf. split; auto.
  - intros i task. rewrite lookup_alter_Some.
    intros [[-> (x & Hx & ->)]|[Hne Hi]].
    + destruct (Ht _ _ Hx). split; [auto|]. apply Hf; auto.
    + apply Ht; auto.
  - intros i Hi. rewrite lookup_alter_ne.
    + apply Hq; auto.
    + intros ->. contradiction.
  - intros w pc t' Hw Hheld.
    destruct (Hh _ _ _ Hw Hheld) as (task & Htask & Hst).
    destruct (decide (t = t')) as [->|Hne].
    + exists (f task). rewrite lookup_alter_eq, Htask. split; [reflexivity|].
      destruct (Ht _ _ Htask). apply Hf; auto.
    + exists task. rewrite lookup_alter_ne; auto.
  - intros i j ti tj. rewrite !lookup_alter_Some.
    intros [[-> (x & Hx & ->)]|[Hne Hi]] [[-> (y & Hy & ->)]|[Hne' Hj]] Hij.
    + destruct (Ht _ _ Hx), (Ht _ _ Hy).
      destruct (Hf _ Hx) as (_ & -> & _); auto.
      destruct (Hf _ Hy) as (_ & -> & _); auto. eapply Ha; eauto.
    + destruct (Ht _ _ Hx).
      destruct (Hf _ Hx) as (_ & -> & _); auto. eapply Ha; eauto.
    + destruct (Ht _ _ Hy).
      destruct (Hf _ Hy) as (_ & -> & _); auto. eapply Ha; eauto.
    + eapply Ha; eauto.
Qed.

Lemma WF_pop m t rest ws c n :
  WF m (t :: rest) ws c n ->
  WF m rest ws c n /\ (t ∉ rest)
  /\ exists task, m !! t = Some task /\ status task = PENDING.
Proof.
  intros [Ht Hs Hq Hh Ha]. apply NoDup_cons in Hs as [Hnin Hs].
  split; [split; auto|split].
  - intros i Hi. apply Hq. right. exact Hi.
  - exact Hnin.
  - apply Hq. left.
Qed.

(** The invariant does not depend on the order of the waiting tasks, and
    survives letting some of them go. *)
Lemma WF_sub m q q' ws c n :
  NoDup q' -> (forall i, i ∈ q' -> i ∈ q) ->
  WF m q ws c n -> WF m q' ws c n.
Proof.
  intros Hn Hsub [Ht Hs Hq Hh Ha]. split; auto.
Qed.

Lemma WF_perm m q q' ws c n :
  q ≡ₚ q' -> WF m q ws c n -> WF m q' ws c n.
Proof.
  intros Hp H. apply (WF_sub m q); [| |exact H].
  - rewrite <- Hp. apply (wf_nodup _ _ _ _ _ H).
  - intros i. rewrite Hp. auto.
Qed.

Lemma WF_app_r m q q' ws c n : WF m (q ++ q') ws c n -> WF m q' ws c n.
Proof.
  intros H. apply (WF_sub m (q ++ q')); [| |exact H].
  - pose proof (wf_nodup _ _ _ _ _ H) as Hn.
    apply NoDup_app in Hn as (_ & _ & Hn). exact Hn.
  - intros i Hi. apply elem_of_app. right. exact Hi.
Qed.

(** ** The tasks in the hands of suspended calls *)

Lemma in_hand_snoc ads ad : in_hand (ads ++ [ad]) = in_hand ads ++ claimed ad.
Proof.
  unfold in_hand. rewrite bind_app. simpl. rewrite app_nil_r. reflexivity.
Qed.

Lemma in_hand_insert : forall ads a ad ad',
  ads !! a = Some ad ->
  claimed ad ++ in_hand (<[a := ad']> ads) ≡ₚ claimed ad' ++ in_hand ads.
Proof.
  unfold in_hand.
  induction ads as [|x ads IH]; intros a ad ad' Ha; [discriminate|].
  destruct a as [|a]; simpl in *.
  - inversion Ha; subst. apply Permutation_app_swap_app.
  - rewrite Permutation_app_swap_app, (IH _ _ ad' Ha).
    apply Permutation_app_swap_app.
Qed.

Lemma in_hand_wait ads a t :
  ads !! a = Some (Evicting t) ->
  in_hand (<[a := Waiting t]> ads) ≡ₚ in_hand ads.
Proof.
  intros Ha. pose proof (in_hand_insert _ _ _ (Waiting t) Ha) as H.
  simpl in H. apply Permutation_cons_inv in H. exact H.
Qed.

Lemma in_hand_take ads a ad t o :
  ads !! a = Some ad -> claimed ad = [t] ->
  in_hand (<[a := Evicted t o]> ads) ≡ₚ o :: in_hand ads.
Proof.
  intros Ha Hc. pose proof (in_hand_insert _ _ _ (Evicted t o) Ha) as H.
  rewrite Hc in H. simpl in H. apply Permutation_cons_inv in H. exact H.
Qed.

Lemma in_hand_added ads a ad t :
  ads !! a = Some ad ->
  in_hand ads ≡ₚ claimed ad ++ in_hand (<[a := Added t]> ads).
Proof.
  intros Ha. pose proof (in_hand_insert _ _ _ (Added t) Ha) as H.
  simpl in H. symmetry. exact H.
Qed.

Lemma WF_queued_below m q ws c n i : WF m q ws c n -> i ∈ q -> (i < n)%nat.
Proof.
  intros [Ht Hs Hq Hh Ha] Hi. destruct (Hq _ Hi) as (task & Htask & _).
  apply (Ht _ _ Htask).
Qed.

Lemma WF_held_not_queued m q ws c n w pc t :
  WF m q ws c n -> ws !! w = Some pc -> held pc = Some t -> t ∉ q.
Proof.
  intros [Ht Hs Hq Hh Ha] Hw Hheld Hin.
  destruct (Hh _ _ _ Hw Hheld) as (task & Htask & [a Hst]).
  destruct (Hq _ Hin) as (task' & Htask' & Hp).
  assert (task' = task) by congruence. subst.
  destruct (Ht _ _ Htask) as (_ & _ & _ & _ & _ & H5).
  destruct (H5 Hp). congruence.
Qed.

Lemma WF_insert_fresh m q ws c n (new : TranslationTask) :
  WF m q ws c n -> task_ok c new -> created_at new = c ->
  WF (<[n := new]> m) q ws c (S n).
Proof.
  intros [Ht Hs Hq Hh Ha] Hnew Hc.
  assert (Hnone : m !! n = None).
  { destruct (m !! n) eqn:E; [|reflexivity]. destruct (Ht _ _ E). lia. }
  split; auto.
  - intros i task. rewrite lookup_insert_Some.
    intros [[<- <-]|[Hne Hi]]; [split; [lia|auto]|].
    destruct (Ht _ _ Hi). split; [lia|auto].
  - intros i Hi. destruct (Hq _ Hi) as (task & Htask & Hp).
    exists task. rewrite lookup_insert_ne; [auto|]. congruence.
  - intros w pc t Hw Hheld. destruct (Hh _ _ _ Hw Hheld) as (task & Htask & Hst).
    exists task. rewrite lookup_insert_ne; [auto|]. congruence.
  - intros i j ti tj. rewrite !lookup_insert_Some.
    intros [[<- <-]|[Hne Hi]] [[<- <-]|[Hne' Hj]] Hij.
    + apply Qle_refl.
    + destruct (Ht _ _ Hj). lia.
    + destruct (Ht _ _ Hi) as (_ & H1 & _). rewrite Hc. exact H1.
    + eapply Ha; eauto.
Qed.

Lemma WF_enqueue m q ws c n i task :
  WF m q ws c n -> m !! i = Some task -> status task = PENDING ->
  i ∉ q ->
  WF m (i :: q) ws c n.
Proof.
  intros [Ht Hs Hq Hh Ha] Hi Hp Hnin. split; auto.
  - apply NoDup_cons. auto.
  - intros j Hj. apply elem_of_cons in Hj as [->|Hj]; eauto.
Qed.

Lemma WF_set_worker m q ws c n w pc :
  WF m q ws c n ->
  (forall t, held pc = Some t ->
     exists task, m !! t = Some task /\ is_Some (started_at task)) ->
  WF m q (<[w := pc]> ws) c n.
Proof.
  intros [Ht Hs Hq Hh Ha] Hpc. split; auto.
  intros w' pc' t. rewrite list_lookup_insert_Some.
  intros [(<- & <- & _)|[_ Hw]]; [apply Hpc | eapply Hh; eauto].
Qed.

Lemma WF_workers_nil m q ws c n : WF m q ws c n -> WF m q [] c n.
Proof.
  intros [Ht Hs Hq Hh Ha]. split; auto. intros w pc t Hw. inversion Hw.
Qed.

Lemma WF_workers_polling m q ws c n k :
  WF m q ws c n -> WF m q (ws ++ replicate k Polling) c n.
Proof.
  intros [Ht Hs Hq Hh Ha]. split; auto.
  intros w pc t. rewrite lookup_app_Some.
  intros [Hw|[_ Hw]]; [eapply Hh; eauto|].
  apply lookup_replicate in Hw as [-> _]. discriminate.
Qed.

Lemma WF_tick m q ws c c' n : WF m q ws c n -> (c <= c')%Q -> WF m q ws c' n.
Proof.
  intros [Ht Hs Hq Hh Ha] Hc. split; auto.
  intros i task Hi. destruct (Ht _ _ Hi). split; [auto|].
  eapply task_ok_later; eauto.
Qed.

Lemma WF_mark m q ws c n st e t :
  st = FAILED \/ st = TIMEOUT ->
  WF m q ws c n -> t ∉ q -> WF (alter (mark st e) t m) q ws c n.
Proof.
  intros Hst H Hnin. apply WF_alter; auto.
  intros task _ Hok. unfold mark.
  split; [apply task_ok_marked; [exact Hst | exact Hok]|].
  split; [reflexivity | intros Hs; exact Hs].
Qed.

Lemma WF_mark_each e ids : forall m q ws c n,
  WF m q ws c n -> (forall t, t ∈ ids -> t ∉ q) ->
  WF (mark_each e ids m) q ws c n.
Proof.
  induction ids as [|t ids IH]; intros m q ws c n H Hnin; simpl; [exact H|].
  apply IH.
  - apply WF_mark; [left; reflexivity | exact H |]. apply Hnin. left.
  - intros t' Ht'. apply Hnin. right. exact Ht'.
Qed.

(** Marking the waiting tasks [ids] lets them go. *)
Lemma WF_mark_each_waiting e ids : forall m q ws c n,
  WF m (ids ++ q) ws c n -> WF (mark_each e ids m) q ws c n.
Proof.
  induction ids as [|t ids IH]; intros m q ws c n H; simpl; [exact H|].
  simpl in H. destruct (WF_pop _ _ _ _ _ _ H) as (H1 & Hnin & _).
  apply IH. apply WF_mark; [left; reflexivity | exact H1 | exact Hnin].
Qed.

Lemma WF_initial c : WF ∅ [] [] c 0.
Proof.
  split.
  - intros i task H. rewrite lookup_empty in H. discriminate.
  - constructor.
  - intros i H. inversion H.
  - intros w pc t H. inversion H.
  - intros i j ti tj H. rewrite lookup_empty in H. discriminate.
Qed.

Lemma WF_rehold m q ws c n w pc pc' t :
  WF m q ws c n -> ws !! w = Some pc -> held pc = Some t ->
  (forall t', held pc' = Some t' -> t' = t) ->
  WF m q (<[w := pc']> ws) c n.
Proof.
  intros H Hw Hheld Hsame. apply WF_set_worker; [exact H|].
  intros t' Ht'. rewrite (Hsame _ Ht'). eapply wf_held; eauto.
Qed.

Lemma WF_alter_held m q ws c n (f : TranslationTask -> TranslationTask) t w pc :
  WF m q ws c n -> ws !! w = Some pc -> held pc = Some t ->
  (forall task, task_ok c task -> is_Some (started_at task) ->
     task_ok c (f task)
     /\ created_at (f task) = created_at task
     /\ is_Some (started_at (f task))) ->
  WF (alter f t m) q ws c n.
Proof.
  intros H Hw Hheld Hf.
  destruct (wf_held _ _ _ _ _ H _ _ _ Hw Hheld) as (task & Htask & Hst).
  apply WF_alter; [exact H | eapply WF_held_not_queued; eauto |].
  intros task' Htask' Hok. assert (task' = task) by congruence. subst.
  destruct (Hf _ Hok Hst) as (H1 & H2 & H3). auto.
Qed.

(** ** One action preserves the invariant *)

Lemma foldl_cancel_frame (ws : list Worker) : forall s,
  tasks (foldl cancel s ws) = tasks s
  /\ pending_queue (foldl cancel s ws) = pending_queue s
  /\ clock (foldl cancel s ws) = clock s
  /\ fresh (foldl cancel s ws) = fresh s
  /\ max_concurrent (foldl cancel s ws) = max_concurrent s
  /\ translation_callback (foldl cancel s ws) = translation_callback s
  /\ log (foldl cancel s ws) = log s
  /\ adders (foldl cancel s ws) = adders s.
Proof.
  induction ws as [|w ws IH]; intros s; simpl; [repeat split|].
  destruct (IH (cancel s w)) as (H1 & H2 & H3 & H4 & H5 & H6 & H7 & H8).
  rewrite H1, H2, H3, H4, H5, H6, H7, H8.
  unfold cancel. destruct (held w); repeat split.
Qed.

Lemma new_task_ok text tl hw style timeout s :
  task_ok (clock s) (new_task text tl hw style timeout s).
Proof.
  unfold task_ok, new_task. simpl.
  split; [apply Qle_refl|]. repeat split; try discriminate.
Qed.

Lemma add_task_id text tl hw style timeout s :
  fst (add_task text tl hw style timeout s) = fresh s.
Proof. unfold add_task. simpl. destruct (_ >=? _); reflexivity. Qed.

Lemma wf_add_task text tl hw style timeout s :
  wf s -> wf (snd (add_task text tl hw style timeout s)).
Proof.
  unfold wf, waiting, add_task. intros H. simpl.
  set (new := new_task text tl hw style timeout s).
  assert (H1 : WF (<[fresh s := new]> (tasks s))
                  (pending_queue s ++ in_hand (adders s)) (workers s)
                  (clock s) (S (fresh s))).
  { apply WF_insert_fresh; [exact H | apply new_task_ok | reflexivity]. }
  assert (Hnin : fresh s ∉ pending_queue s ++ in_hand (adders s)).
  { intros Hin. pose proof (WF_queued_below _ _ _ _ _ _ H Hin). lia. }
  assert (H2 : WF (<[fresh s := new]> (tasks s))
                  (fresh s :: pending_queue s ++ in_hand (adders s))
                  (workers s) (clock s) (S (fresh s))).
  { eapply WF_enqueue; [exact H1 | apply lookup_insert_eq | reflexivity
                        | exact Hnin]. }
  destruct (_ >=? _); simpl; unfold put; simpl.
  - rewrite in_hand_snoc. simpl. revert H2. apply WF_perm.
    rewrite app_assoc. apply Permutation_cons_append.
  - revert H2. apply WF_perm. rewrite <- app_assoc. simpl.
    apply Permutation_middle.
Qed.

Lemma wf_eviction_gets a s s' : wf s -> eviction_gets a s = Some s' -> wf s'.
Proof.
  unfold wf, waiting, eviction_gets. intros H.
  destruct (adders s !! a) as [[t|t|t o|t]|] eqn:Ha; try discriminate;
    destruct (pending_queue s) as [|oldest rest] eqn:Eq; try discriminate;
    intros Hs; inversion Hs; subst; simpl; rewrite ?Eq; revert H;
    apply WF_perm.
  - rewrite (in_hand_wait _ _ _ Ha). reflexivity.
  - rewrite (in_hand_take _ _ _ t oldest Ha eq_refl). simpl.
    apply Permutation_middle.
  - rewrite (in_hand_take _ _ _ t oldest Ha eq_refl). simpl.
    apply Permutation_middle.
Qed.

Lemma wf_eviction_ends a s r :
  wf s -> eviction_ends a s = Some r -> wf (snd r).
Proof.
  unfold wf, waiting, eviction_ends. intros H.
  destruct (adders s !! a) as [[t|t|t o|t]|] eqn:Ha; try discriminate.
  intros Hs; inversion Hs; subst; simpl. unfold put; simpl.
  assert (Hp : pending_queue s ++ in_hand (adders s)
               ≡ₚ o :: (pending_queue s ++ [t])
                         ++ in_hand (<[a := Added t]> (adders s))).
  { rewrite (in_hand_added _ _ _ t Ha). simpl.
    rewrite <- app_assoc. simpl. rewrite <- !Permutation_middle.
    apply perm_swap. }
  apply (WF_perm _ _ _ _ _ _ Hp) in H.
  destruct (WF_pop _ _ _ _ _ _ H) as (H1 & Hnin & _).
  apply WF_mark; [left; reflexivity | exact H1 | exact Hnin].
Qed.

Lemma wf_eviction_times_out a s r :
  wf s -> eviction_times_out a s = Some r -> wf (snd r).
Proof.
  unfold wf, waiting, eviction_times_out. intros H.
  destruct (adders s !! a) as [[t|t|t o|t]|] eqn:Ha; try discriminate.
  intros Hs; inversion Hs; subst; simpl. unfold put; simpl.
  revert H. apply WF_perm.
  rewrite (in_hand_added _ _ _ t Ha). simpl.
  rewrite <- app_assoc. simpl. reflexivity.
Qed.

Lemma wf_start_workers s : wf s -> wf (start_workers s).
Proof.
  unfold wf, waiting, start_workers. intros H.
  destruct (is_running s); [exact H|].
  simpl. apply WF_workers_polling. exact H.
Qed.

Lemma wf_stop_workers s : wf s -> wf (stop_workers s).
Proof.
  unfold wf, waiting, stop_workers. intros H. simpl.
  destruct (foldl_cancel_frame (workers s) (set_is_running false s))
    as (H1 & H2 & H3 & H4 & _ & _ & _ & H8).
  rewrite H1, H2, H3, H4, H8. simpl. eapply WF_workers_nil. exact H.
Qed.

Lemma wf_clear_pending_tasks s :
  wf s -> Held (workers s) (active_tasks s) -> wf (clear_pending_tasks s).
Proof.
  unfold wf, waiting, clear_pending_tasks. intros H [Hact _]. simpl.
  apply (WF_mark_each_waiting "Task cleared by user") in H.
  apply WF_mark_each; [exact H|].
  intros t Ht. apply elem_of_elements, Hact in Ht as (w & pc & Hw & Hp).
  eapply WF_held_not_queued; eauto.
Qed.

Lemma wf_worker_gets w s s' : wf s -> worker_gets w s = Some s' -> wf s'.
Proof.
  unfold wf, waiting, worker_gets. intros H.
  destruct (workers s !! w) as [[| | | |]|] eqn:Hw; try discriminate.
  destruct (pending_queue s) as [|t rest] eqn:Eq; [discriminate|].
  destruct (tasks s !! t) as [task|] eqn:Htask; [|discriminate].
  simpl in H.
  destruct (WF_pop _ _ _ _ _ _ H) as (H1 & Hnin & (task' & Htask' & Hp)).
  assert (task' = task) by congruence. subst task'.
  simpl. destruct (Qgt_bool _ _); intros Hs; inversion Hs; subst; simpl.
  - apply WF_alter; [exact H1 | exact Hnin |].
    intros x _ Hok. unfold mark.
    split; [apply task_ok_marked; [right; reflexivity | exact Hok]|].
    split; [reflexivity | intros Hst; exact Hst].
  - apply WF_set_worker.
    + apply WF_alter; [exact H1 | exact Hnin |].
      intros x Hx Hok. assert (x = task) by congruence. subst x.
      split; [apply task_ok_started; assumption|].
      split; [reflexivity | intros _; simpl; eauto].
    + intros t' Ht'. inversion Ht'; subst.
      eexists. rewrite lookup_alter_eq, Htask. simpl. split; [reflexivity|].
      simpl. eauto.
Qed.

Lemma wf_on_exception w pc t e s :
  wf s -> workers s !! w = Some pc -> held pc = Some t ->
  wf (on_exception w t e s).
Proof.
  unfold wf, waiting, on_exception. intros H Hw Hheld. simpl.
  assert (H1 : WF (alter (mark FAILED e) t (tasks s))
                  (pending_queue s ++ in_hand (adders s))
                  (workers s) (clock s) (fresh s)).
  { eapply WF_alter_held; eauto. intros task Hok Hst. unfold mark.
    split; [apply task_ok_marked; [left; reflexivity | exact Hok]|].
    split; [reflexivity | exact Hst]. }
  destruct (error_callback s); simpl.
  - eapply WF_rehold; eauto. intros t' Ht'. inversion Ht'. reflexivity.
  - eapply WF_rehold; eauto. intros t' Ht'. inversion Ht'.
Qed.

Lemma wf_on_timeout w pc t s :
  wf s -> workers s !! w = Some pc -> held pc = Some t ->
  wf (on_timeout w t s).
Proof.
  unfold wf, waiting, on_timeout. intros H Hw Hheld. simpl.
  eapply WF_rehold; eauto; [|intros t' Ht'; inversion Ht'].
  eapply WF_alter_held; eauto. intros task Hok Hst.
  split; [apply task_ok_marked; [right; reflexivity | exact Hok]|].
  split; [reflexivity | exact Hst].
Qed.

Lemma wf_translate_ends w r s s' :
  wf s -> translate_ends w r s = Some s' -> wf s'.
Proof.
  unfold translate_ends. intros H.
  destruct (workers s !! w) as [[|t|t x|t x|t]|] eqn:Hw; try discriminate.
  destruct r as [translated|e|].
  - destruct (is_empty_result translated).
    + intros Hs; inversion Hs; subst. eapply wf_on_exception; eauto.
    + destruct (tasks s !! t) as [task|]; [|discriminate].
      destruct (translation_callback s); intros Hs; inversion Hs; subst;
        unfold wf; simpl; eapply WF_rehold; eauto;
        intros t' Ht'; inversion Ht'; reflexivity.
  - intros Hs; inversion Hs; subst. eapply wf_on_exception; eauto.
  - intros Hs; inversion Hs; subst. eapply wf_on_timeout; eauto.
Qed.

Lemma wf_translation_callback_ends w r s s' :
  wf s -> translation_callback_ends w r s = Some s' -> wf s'.
Proof.
  unfold translation_callback_ends. intros H.
  destruct (workers s !! w) as [[|t|t x|t x|t]|] eqn:Hw; try discriminate.
  destruct r as [[]|e|]; intros Hs; inversion Hs; subst.
  - unfold wf, waiting; simpl. eapply WF_rehold; eauto.
    intros t' Ht'; inversion Ht'; reflexivity.
  - eapply wf_on_exception; eauto.
  - eapply wf_on_timeout; eauto.
Qed.

Lemma wf_synthesis_calls w chunk final fmt s s' :
  wf s -> synthesis_calls w chunk final fmt s = Some s' -> wf s'.
Proof.
  unfold synthesis_calls. intros H.
  destruct (workers s !! w) as [[|t|t x|t x|t]|] eqn:Hw; try discriminate.
  destruct (audio_chunk_callback s); intros Hs; inversion Hs; subst; exact H.
Qed.

Lemma wf_synthesis_ends w r s s' :
  wf s -> synthesis_ends w r s = Some s' -> wf s'.
Proof.
  unfold synthesis_ends. intros H.
  destruct (workers s !! w) as [[|t|t x|t x|t]|] eqn:Hw; try discriminate.
  destruct r as [audio|e|]; intros Hs; inversion Hs; subst.
  - unfold wf, waiting; simpl. eapply WF_rehold; eauto; [|intros t' Ht'; inversion Ht'].
    eapply WF_alter_held; eauto. intros task Hok Hst.
    split; [apply task_ok_completed; assumption|].
    split; [reflexivity | exact Hst].
  - eapply wf_on_exception; eauto.
  - eapply wf_on_timeout; eauto.
Qed.

Lemma wf_error_callback_ends w s s' :
  wf s -> error_callback_ends w s = Some s' -> wf s'.
Proof.
  unfold error_callback_ends. intros H.
  destruct (workers s !! w) as [[|t|t x|t x|t]|] eqn:Hw; try discriminate.
  intros Hs; inversion Hs; subst. unfold wf, waiting; simpl.
  eapply WF_rehold; eauto. intros t' Ht'; inversion Ht'.
Qed.

Lemma wf_step a s s' :
  wf s -> Held (workers s) (active_tasks s) -> step a s = Some s' -> wf s'.
Proof.
  intros H Hheld. destruct a; simpl.
  - destruct (Qle_bool 0 d) eqn:Hd; intros Hs; inversion Hs; subst.
    unfold wf, waiting; simpl. eapply WF_tick; [exact H|].
    apply Qle_bool_iff in Hd. lra.
  - intros Hs; inversion Hs; subst. apply wf_add_task; exact H.
  - apply wf_eviction_gets; exact H.
  - destruct (eviction_ends a s) as [r|] eqn:E; intros Hs; inversion Hs.
    eapply wf_eviction_ends; eauto.
  - destruct (eviction_times_out a s) as [r|] eqn:E; intros Hs; inversion Hs.
    eapply wf_eviction_times_out; eauto.
  - intros Hs; inversion Hs; subst. apply wf_start_workers; exact H.
  - intros Hs; inversion Hs; subst. apply wf_stop_workers; exact H.
  - intros Hs; inversion Hs; subst. apply wf_clear_pending_tasks; assumption.
  - apply wf_worker_gets; exact H.
  - apply wf_translate_ends; exact H.
  - apply wf_translation_callback_ends; exact H.
  - apply wf_synthesis_calls; exact H.
  - apply wf_synthesis_ends; exact H.
  - apply wf_error_callback_ends; exact H.
Qed.

(** An invariant of single actions holds along every run. *)
Lemma run_invariant (P : State -> Prop) :
  (forall a s s', P s -> step a s = Some s' -> P s') ->
  forall actions s s', P s -> run actions s = Some s' -> P s'.
Proof.
  intros Hstep. induction actions as [|a rest IH]; intros s s' Hs; simpl.
  - intros H; inversion H; subst; exact Hs.
  - destruct (step a s) as [s1|] eqn:E; [|discriminate].
    apply IH. eapply Hstep; eauto.
Qed.

Lemma wf_configured mc dt now tc ac acc ec :
  wf (configured mc dt now tc ac acc ec).
Proof. apply WF_initial. Qed.

End QueueInvariant.

(** * The scheduler's bookkeeping *)
Section QueueTracked.
Import PyStr Queue.

(** ** Workers and the active set *)

Lemma Held_rehold ws A w pc pc' t :
  Held ws A -> ws !! w = Some pc -> held pc = Some t -> held pc' = Some t ->
  Held (<[w := pc']> ws) A.
Proof.
  intros [Ha Hu] Hw Hh Hh'.
  assert (Hold : forall w0 p0 t', <[w := pc']> ws !! w0 = Some p0 ->
             held p0 = Some t' ->
             exists p, ws !! w0 = Some p /\ held p = Some t').
  { intros w0 p0 t' Hl Hp. apply list_lookup_insert_Some in Hl.
    destruct Hl as [(-> & -> & _)|[Hne Hl]];
      [exists pc; split; [exact Hw | congruence] | eauto]. }
  split.
  - intros t'. rewrite Ha. split; intros (w' & p & Hl & Hp).
    + destruct (decide (w' = w)) as [->|Hne].
      * exists w, pc'.
        rewrite list_lookup_insert_eq by (eapply lookup_lt_Some; eauto).
        split; [reflexivity | congruence].
      * exists w', p. rewrite list_lookup_insert_ne by congruence. auto.
    + destruct (Hold _ _ _ Hl Hp) as (q & Hq & Hq'). eauto.
  - intros w1 w2 p1 p2 t' H1 H2 Hp1 Hp2.
    destruct (Hold _ _ _ H1 Hp1) as (q1 & ? & ?).
    destruct (Hold _ _ _ H2 Hp2) as (q2 & ? & ?). eapply Hu; eauto.
Qed.

Lemma Held_release ws A w pc t :
  Held ws A -> ws !! w = Some pc -> held pc = Some t ->
  Held (<[w := Polling]> ws) (A ∖ {[t]}).
Proof.
  intros [Ha Hu] Hw Hh.
  assert (Hold : forall w0 p0 t', <[w := Polling]> ws !! w0 = Some p0 ->
             held p0 = Some t' -> w0 <> w /\ ws !! w0 = Some p0).
  { intros w0 p0 t' Hl Hp. apply list_lookup_insert_Some in Hl.
    destruct Hl as [(-> & <- & _)|[Hne Hl]]; [discriminate | auto]. }
  split.
  - intros t'. rewrite elem_of_difference, elem_of_singleton, Ha.
    split.
    + intros [(w' & p & Hl & Hp) Hne]. exists w', p.
      rewrite list_lookup_insert_ne; [auto|].
      intros ->. assert (p = pc) by congruence. subst. congruence.
    + intros (w' & p & Hl & Hp). destruct (Hold _ _ _ Hl Hp) as [Hne Hl'].
      split; [eauto|]. intros ->. apply Hne. eapply Hu; eauto.
  - intros w1 w2 p1 p2 t' H1 H2 Hp1 Hp2.
    destruct (Hold _ _ _ H1 Hp1) as [_ ?].
    destruct (Hold _ _ _ H2 Hp2) as [_ ?]. eapply Hu; eauto.
Qed.

Lemma Held_acquire ws A w pc' t :
  Held ws A -> ws !! w = Some Polling -> held pc' = Some t ->
  (forall w' pc, ws !! w' = Some pc -> held pc <> Some t) ->
  Held (<[w := pc']> ws) ({[t]} ∪ A).
Proof.
  intros [Ha Hu] Hw Hh Hfree. split.
  - intros t'. rewrite elem_of_union, elem_of_singleton, Ha. split.
    + intros [->|(w' & p & Hl & Hp)].
      * exists w, pc'.
        rewrite list_lookup_insert_eq by (eapply lookup_lt_Some; eauto). auto.
      * exists w', p. rewrite list_lookup_insert_ne; [auto|].
        intros ->. assert (p = Polling) by congruence. subst. discriminate.
    + intros (w' & p & Hl & Hp). apply list_lookup_insert_Some in Hl.
      destruct Hl as [(-> & -> & _)|[Hne Hl]]; [left; congruence | right; eauto].
  - intros w1 w2 p1 p2 t' H1 H2 Hp1 Hp2.
    apply list_lookup_insert_Some in H1, H2.
    destruct H1 as [(-> & -> & _)|[Hne1 H1]],
             H2 as [(-> & -> & _)|[Hne2 H2]]; auto.
    + exfalso. apply (Hfree _ _ H2). congruence.
    + exfalso. apply (Hfree _ _ H1). congruence.
    + eapply Hu; eauto.
Qed.

Lemma Held_idle ws A :
  (forall w pc, ws !! w = Some pc -> held pc = None) ->
  (forall t, t ∉ A) -> Held ws A.
Proof.
  intros Hidle Hempty. split.
  - intros t. split; [intros H; destruct (Hempty _ H)|].
    intros (w & pc & Hl & Hp). rewrite (Hidle _ _ Hl) in Hp. discriminate.
  - intros w w' pc pc' t H1 _ Hp. rewrite (Hidle _ _ H1) in Hp. discriminate.
Qed.

(** ** The store and the retained set *)

Lemma Kept_alter m C (f : TranslationTask -> TranslationTask) t :
  Kept m C -> keeps_start f -> Kept (alter f t m) C.
Proof.
  intros [Hc Hi] Hf. split.
  - intros i Hin. destruct (Hc _ Hin) as (task & Htask & Hst).
    destruct (decide (t = i)) as [->|Hne].
    + exists (f task). rewrite lookup_alter_eq, Htask.
      split; [reflexivity | apply Hf; exact Hst].
    + exists task. rewrite lookup_alter_ne by exact Hne. auto.
  - intros i task. rewrite lookup_alter_Some.
    intros [[-> (x & Hx & ->)]|[_ Hl]]; [|auto].
    destruct (Hf x) as [-> _]. auto.
Qed.

Lemma Kept_add m C t task :
  Kept m C -> m !! t = Some task -> is_Some (started_at task) ->
  Kept m ({[t]} ∪ C).
Proof.
  intros [Hc Hi] Ht Hst. split; [|exact Hi].
  intros i. rewrite elem_of_union, elem_of_singleton.
  intros [->|Hin]; [eauto | auto].
Qed.

Lemma Kept_subseteq m C C' : Kept m C -> C' ⊆ C -> Kept m C'.
Proof. intros [Hc Hi] Hsub. split; [|exact Hi]. intros i Hin. auto. Qed.

Lemma Kept_insert m C i task :
  Kept m C -> m !! i = None -> id task = i -> Kept (<[i := task]> m) C.
Proof.
  intros [Hc Hi] Hnone Hid. split.
  - intros j Hin. destruct (Hc _ Hin) as (x & Hx & Hst).
    exists x. rewrite lookup_insert_ne; [auto|]. congruence.
  - intros j x. rewrite lookup_insert_Some.
    intros [[<- <-]|[_ Hl]]; auto.
Qed.

Lemma keeps_start_mark st e : keeps_start (mark st e).
Proof. intros task. split; [reflexivity | intros H; exact H]. Qed.

Lemma Kept_mark_each e ids : forall m C,
  Kept m C -> Kept (mark_each e ids m) C.
Proof.
  induction ids as [|t ids IH]; intros m C H; simpl; [exact H|].
  apply IH, Kept_alter; [exact H | apply keeps_start_mark].
Qed.

(** ** Cancelling the workers *)

Lemma foldl_cancel_sets (ws : list Worker) : forall s t,
  (t ∈ active_tasks (foldl cancel s ws) <->
   t ∈ active_tasks s /\ ~ exists w, w ∈ ws /\ held w = Some t)
  /\ (t ∈ completed_tasks (foldl cancel s ws) <->
      (exists w, w ∈ ws /\ held w = Some t) \/ t ∈ completed_tasks s)
  /\ is_running (foldl cancel s ws) = is_running s.
Proof.
  induction ws as [|w ws IH]; intros s t; simpl.
  - split; [|split; [|reflexivity]].
    + split; [intros H; split; [exact H|] | intros [H _]; exact H].
      intros (w & Hw & _). inversion Hw.
    + split; [auto|]. intros [(w & Hw & _)|H]; [inversion Hw | exact H].
  - destruct (IH (cancel s w) t) as (Ha & Hc & Hr).
    rewrite Ha, Hc, Hr. unfold cancel.
    destruct (held w) as [t'|] eqn:Eh; simpl.
    + rewrite elem_of_difference, elem_of_union, !elem_of_singleton.
      split; [|split; [|reflexivity]].
      * split.
        -- intros [[Hin Hne] Hno]. split; [exact Hin|].
           intros (w' & Hw' & Hh'). apply elem_of_cons in Hw'.
           destruct Hw' as [->|Hw']; [congruence | eauto].
        -- intros [Hin Hno]. split; [split; [exact Hin|]|].
           ++ intros ->. apply Hno. exists w. split; [left | exact Eh].
           ++ intros (w' & Hw' & Hh'). apply Hno. exists w'.
              split; [right; exact Hw' | exact Hh'].
      * split.
        -- intros [(w' & Hw' & Hh')|[->|Hin]].
           ++ left. exists w'. split; [right; exact Hw' | exact Hh'].
           ++ left. exists w. split; [left | exact Eh].
           ++ right. exact Hin.
        -- intros [(w' & Hw' & Hh')|Hin]; [|right; right; exact Hin].
           apply elem_of_cons in Hw'. destruct Hw' as [->|Hw'].
           ++ right. left. congruence.
           ++ left. eauto.
    + split; [|split; [|reflexivity]].
      * split.
        -- intros [Hin Hno]. split; [exact Hin|].
           intros (w' & Hw' & Hh'). apply elem_of_cons in Hw'.
           destruct Hw' as [->|Hw']; [congruence | eauto].
        -- intros [Hin Hno]. split; [exact Hin|].
           intros (w' & Hw' & Hh'). apply Hno. exists w'.
           split; [right; exact Hw' | exact Hh'].
      * split.
        -- intros [(w' & Hw' & Hh')|Hin]; [|right; exact Hin].
           left. exists w'. split; [right; exact Hw' | exact Hh'].
        -- intros [(w' & Hw' & Hh')|Hin]; [|right; exact Hin].
           apply elem_of_cons in Hw'. destruct Hw' as [->|Hw'];
             [congruence | left; eauto].
Qed.

(** ** One action preserves the bookkeeping *)

Lemma tracked_add_task text tl hw style timeout s :
  wf s -> tracked s -> tracked (snd (add_task text tl hw style timeout s)).
Proof.
  intros Hwf (Hh & Hk & Hl). unfold tracked, add_task.
  set (new := new_task text tl hw style timeout s).
  assert (Hnone : tasks s !! fresh s = None).
  { destruct (tasks s !! fresh s) eqn:E; [|reflexivity].
    destruct (wf_tasks _ _ _ _ _ Hwf _ _ E). lia. }
  assert (Hk1 : Kept (<[fresh s := new]> (tasks s))
                  (filter (fun task_id =>
                     old (set_fresh (S (fresh s))
                            (set_tasks (<[id new := new]> (tasks s)) s))
                       task_id = false) (completed_tasks s))).
  { eapply Kept_subseteq; [apply Kept_insert; eauto|].
    intros i Hi. apply elem_of_filter in Hi. apply Hi. }
  simpl. destruct (_ >=? _); simpl;
    (split; [exact Hh|]; split; [exact Hk1 | exact Hl]).
Qed.

Lemma tracked_eviction_gets a s s' :
  tracked s -> eviction_gets a s = Some s' -> tracked s'.
Proof.
  intros Htr. unfold eviction_gets.
  destruct (adders s !! a) as [[t|t|t o|t]|]; try discriminate;
    destruct (pending_queue s); try discriminate;
    intros Hs; inversion Hs; subst; exact Htr.
Qed.

Lemma tracked_eviction_ends a s r :
  tracked s -> eviction_ends a s = Some r -> tracked (snd r).
Proof.
  intros (Hh & Hk & Hl). unfold eviction_ends.
  destruct (adders s !! a) as [[t|t|t o|t]|]; try discriminate.
  intros Hs; inversion Hs; subst. unfold tracked. simpl.
  split; [exact Hh|]. split; [|exact Hl].
  apply Kept_alter; [exact Hk | apply keeps_start_mark].
Qed.

Lemma tracked_eviction_times_out a s r :
  tracked s -> eviction_times_out a s = Some r -> tracked (snd r).
Proof.
  intros Htr. unfold eviction_times_out.
  destruct (adders s !! a) as [[t|t|t o|t]|]; try discriminate.
  intros Hs; inversion Hs; subst. exact Htr.
Qed.

Lemma tracked_start_workers s : tracked s -> tracked (start_workers s).
Proof.
  intros (Hh & Hk & Hl). unfold start_workers.
  destruct (is_running s) eqn:Er; [split; [|split]; auto; rewrite Er; exact Hl|].
  unfold tracked. simpl.
  destruct (workers s) as [|w ws] eqn:Ew; [|simpl in Hl; lia].
  split; [|split; [exact Hk|]].
  - apply Held_idle.
    + intros w pc Hw. apply lookup_replicate in Hw as [-> _]. reflexivity.
    + intros t Ht. apply Hh in Ht. destruct Ht as (w & pc & Hw & _).
      inversion Hw.
  - simpl. rewrite length_replicate. reflexivity.
Qed.

Lemma tracked_stop_workers s : wf s -> tracked s -> tracked (stop_workers s).
Proof.
  intros Hwf (Hh & Hk & Hl). unfold tracked, stop_workers. simpl.
  destruct (foldl_cancel_frame (workers s) (set_is_running false s))
    as (Hm & _).
  split; [|split].
  - apply Held_idle; [intros w pc Hw; inversion Hw|].
    intros t Ht.
    destruct (foldl_cancel_sets (workers s) (set_is_running false s) t)
      as (Ha & _ & _).
    apply Ha in Ht. destruct Ht as [Hin Hno]. simpl in Hin.
    apply Hh in Hin. destruct Hin as (w & pc & Hw & Hp).
    apply Hno. exists pc. split; [|exact Hp].
    eapply list_elem_of_lookup_2; eauto.
  - rewrite Hm. simpl. destruct Hk as [Hc Hi]. split; [|exact Hi].
    intros i Hin.
    destruct (foldl_cancel_sets (workers s) (set_is_running false s) i)
      as (_ & Hcs & _).
    apply Hcs in Hin. destruct Hin as [(pc & Hw & Hp)|Hin]; [|auto].
    apply list_elem_of_lookup in Hw. destruct Hw as [w Hw].
    eapply wf_held; eauto.
  - destruct (foldl_cancel_sets (workers s) (set_is_running false s) 0%nat)
      as (_ & _ & Hr).
    rewrite Hr. reflexivity.
Qed.

Lemma tracked_clear_pending_tasks s :
  tracked s -> tracked (clear_pending_tasks s).
Proof.
  intros (Hh & Hk & Hl). unfold tracked, clear_pending_tasks. simpl.
  split; [exact Hh|]. split; [|exact Hl].
  eapply Kept_subseteq; [apply Kept_mark_each, Kept_mark_each; exact Hk|].
  intros i Hi. inversion Hi.
Qed.

Lemma tracked_worker_gets w s s' :
  wf s -> tracked s -> worker_gets w s = Some s' -> tracked s'.
Proof.
  intros Hwf (Hh & Hk & Hl). unfold worker_gets.
  destruct (workers s !! w) as [[| | | |]|] eqn:Hw; try discriminate.
  destruct (pending_queue s) as [|t rest] eqn:Eq; [discriminate|].
  destruct (tasks s !! t) as [task|] eqn:Htask; [|discriminate].
  simpl. destruct (Qgt_bool _ _); intros Hs; inversion Hs; subst;
    unfold tracked; simpl.
  - split; [exact Hh|]. split; [|exact Hl].
    apply Kept_alter; [exact Hk | apply keeps_start_mark].
  - split; [|split].
    + eapply Held_acquire; eauto. intros w' pc Hw' Hp.
      eapply (WF_held_not_queued _ _ _ _ _ _ _ _ Hwf Hw' Hp).
      unfold waiting. rewrite Eq. left.
    + apply Kept_alter; [exact Hk|].
      intros x. split; [reflexivity | intros _; simpl; eauto].
    + rewrite length_insert. exact Hl.
Qed.

Lemma tracked_rehold w pc pc' t s :
  tracked s -> workers s !! w = Some pc -> held pc = Some t ->
  held pc' = Some t ->
  forall l, tracked (set_worker w pc' (set_log l s)).
Proof.
  intros (Hh & Hk & Hl) Hw Hp Hp' l. unfold tracked. simpl.
  split; [eapply Held_rehold; eauto|]. split; [exact Hk|].
  rewrite length_insert. exact Hl.
Qed.

Lemma tracked_release w pc t (f : TranslationTask -> TranslationTask) s :
  wf s -> tracked s -> workers s !! w = Some pc -> held pc = Some t ->
  keeps_start f ->
  tracked (set_worker w Polling (finally t (update_task f t s))).
Proof.
  intros Hwf (Hh & Hk & Hl) Hw Hp Hf. unfold tracked. simpl.
  split; [eapply Held_release; eauto|]. split; [|rewrite length_insert; exact Hl].
  destruct (wf_held _ _ _ _ _ Hwf _ _ _ Hw Hp) as (task & Htask & Hst).
  eapply (Kept_add _ _ _ (f task)).
  - apply Kept_alter; assumption.
  - rewrite lookup_alter_eq, Htask. reflexivity.
  - apply Hf. exact Hst.
Qed.

Lemma tracked_on_exception w pc t e s :
  wf s -> tracked s -> workers s !! w = Some pc -> held pc = Some t ->
  tracked (on_exception w t e s).
Proof.
  intros Hwf Htr Hw Hp. unfold on_exception. simpl.
  destruct (error_callback s).
  - destruct Htr as (Hh & Hk & Hl). unfold tracked. simpl.
    split; [eapply Held_rehold; eauto; reflexivity|].
    split; [apply Kept_alter; [exact Hk | apply keeps_start_mark]|].
    rewrite length_insert. exact Hl.
  - apply (tracked_release w pc t (mark FAILED e) s); auto.
    apply keeps_start_mark.
Qed.

Lemma tracked_on_timeout w pc t s :
  wf s -> tracked s -> workers s !! w = Some pc -> held pc = Some t ->
  tracked (on_timeout w t s).
Proof.
  intros Hwf Htr Hw Hp. unfold on_timeout.
  apply (tracked_release w pc t _ s); auto.
  intros task. split; [reflexivity | intros H; exact H].
Qed.

Lemma tracked_step a s s' :
  wf s -> tracked s -> step a s = Some s' -> tracked s'.
Proof.
  intros Hwf Htr.
  destruct a as [d|tx tl hw style timeout|a|a|a| | | |w|w r|w r
                 |w chunk final fmt|w r|w];
    simpl.
  - destruct (Qle_bool 0 d); intros Hs; inversion Hs; subst. exact Htr.
  - intros Hs; inversion Hs; subst. apply tracked_add_task; assumption.
  - apply tracked_eviction_gets; assumption.
  - destruct (eviction_ends a s) as [r|] eqn:E; intros Hs; inversion Hs.
    eapply tracked_eviction_ends; eauto.
  - destruct (eviction_times_out a s) as [r|] eqn:E; intros Hs; inversion Hs.
    eapply tracked_eviction_times_out; eauto.
  - intros Hs; inversion Hs; subst. apply tracked_start_workers; assumption.
  - intros Hs; inversion Hs; subst. apply tracked_stop_workers; assumption.
  - intros Hs; inversion Hs; subst.
    apply tracked_clear_pending_tasks; assumption.
  - apply tracked_worker_gets; assumption.
  - unfold translate_ends.
    destruct (workers s !! w) as [[|t|t x|t x|t]|] eqn:Hw; try discriminate.
    destruct r as [translated|e|].
    + destruct (is_empty_result translated).
      * intros Hs; inversion Hs; subst. eapply tracked_on_exception; eauto.
      * destruct (tasks s !! t) as [task|]; [|discriminate].
        destruct (translation_callback s); intros Hs; inversion Hs; subst.
        -- apply (tracked_rehold w _ _ t s Htr Hw); reflexivity.
        -- destruct Htr as (Hh & Hk & Hl). unfold tracked. simpl.
           split; [eapply Held_rehold; eauto; reflexivity|].
           split; [exact Hk | rewrite length_insert; exact Hl].
    + intros Hs; inversion Hs; subst. eapply tracked_on_exception; eauto.
    + intros Hs; inversion Hs; subst. eapply tracked_on_timeout; eauto.
  - unfold translation_callback_ends.
    destruct (workers s !! w) as [[|t|t x|t x|t]|] eqn:Hw; try discriminate.
    destruct r as [[]|e|]; intros Hs; inversion Hs; subst.
    + apply (tracked_rehold w _ _ t s Htr Hw); reflexivity.
    + eapply tracked_on_exception; eauto.
    + eapply tracked_on_timeout; eauto.
  - unfold synthesis_calls.
    destruct (workers s !! w) as [[|t|t x|t x|t]|] eqn:Hw; try discriminate.
    destruct (audio_chunk_callback s); intros Hs; inversion Hs; subst;
      exact Htr.
  - unfold synthesis_ends.
    destruct (workers s !! w) as [[|t|t x|t x|t]|] eqn:Hw; try discriminate.
    destruct r as [audio|e|]; intros Hs; inversion Hs; subst.
    + apply (tracked_release w _ t _ s Hwf Htr Hw); [reflexivity|].
      intros task. split; [reflexivity | intros H; exact H].
    + eapply tracked_on_exception; eauto.
    + eapply tracked_on_timeout; eauto.
  - unfold error_callback_ends.
    destruct (workers s !! w) as [[|t|t x|t x|t]|] eqn:Hw; try discriminate.
    intros Hs; inversion Hs; subst.
    destruct Htr as (Hh & Hk & Hl). unfold tracked. simpl.
    split; [eapply Held_release; eauto; reflexivity|].
    split; [|rewrite length_insert; exact Hl].
    destruct (wf_held _ _ _ _ _ Hwf _ _ _ Hw eq_refl) as (task & Htask & Hst).
    eapply Kept_add; eauto.
Qed.

Lemma tracked_configured mc dt now tc ac acc ec :
  tracked (configured mc dt now tc ac acc ec).
Proof.
  unfold tracked. simpl. split; [|split; [|reflexivity]].
  - apply Held_idle; [intros w pc Hw; inversion Hw|].
    intros t Ht. inversion Ht.
  - split; [intros i Hi; inversion Hi|].
    intros i task Hi. rewrite lookup_empty in Hi. discriminate.
Qed.

Lemma tracked_run mc dt now tc ac acc ec actions s :
  run actions (configured mc dt now tc ac acc ec) = Some s ->
  wf s /\ tracked s.
Proof.
  apply (run_invariant (fun s => wf s /\ tracked s)).
  - intros a s0 s1 [Hwf Htr] Hs. split.
    + eapply wf_step; eauto. apply Htr.
    + eapply tracked_step; eauto.
  - split; [apply wf_configured | apply tracked_configured].
Qed.

Lemma wf_run mc dt now tc ac acc ec actions s :
  run actions (configured mc dt now tc ac acc ec) = Some s -> wf s.
Proof. intros H. apply (tracked_run _ _ _ _ _ _ _ _ _ H). Qed.

End QueueTracked.
Section QueueClaims.
Import PyStr Queue.

(** ** What no action changes *)

Lemma step_configuration a s s' :
  step a s = Some s' ->
  max_concurrent s' = max_concurrent s
  /\ translation_callback s' = translation_callback s.
Proof.
  destruct a; simpl;
    unfold add_task, eviction_gets, eviction_ends, eviction_times_out,
      start_workers, stop_workers, clear_pending_tasks,
      worker_gets, translate_ends, translation_callback_ends,
      synthesis_calls, synthesis_ends, error_callback_ends,
      on_exception, on_timeout;
    try (destruct (foldl_cancel_frame (workers s) (set_is_running false s))
           as (_ & _ & _ & _ & Hm & Hc & _));
    repeat (case_match; try discriminate);
    intros Hs; inversion Hs; subst; simpl; auto.
Qed.

Lemma run_configuration actions : forall s s',
  run actions s = Some s' ->
  max_concurrent s' = max_concurrent s
  /\ translation_callback s' = translation_callback s.
Proof.
  induction actions as [|a rest IH]; intros s s'; simpl.
  - intros H; inversion H; auto.
  - destruct (step a s) as [s1|] eqn:E; [|discriminate]. intros H.
    destruct (IH _ _ H) as [-> ->]. eapply step_configuration; eauto.
Qed.

(** ** Calls of [add_task] that do not overlap (C4) *)

(** An action that is no part of [add_task] leaves the suspended calls as
    they are and takes tasks from the front of the queue, if any. *)
Definition of_add_task (a : Action) : bool :=
  match a with
  | AddTask _ _ _ _ _ | EvictionGets _ | EvictionEnds _
  | EvictionTimesOut _ => true
  | _ => false
  end.

Lemma step_shrinks a s s' :
  of_add_task a = false -> step a s = Some s' ->
  adders s' = adders s
  /\ exists k, pending_queue s' = drop k (pending_queue s).
Proof.
  destruct a; try discriminate; intros _; simpl;
    unfold start_workers, stop_workers, clear_pending_tasks,
      worker_gets, translate_ends, translation_callback_ends,
      synthesis_calls, synthesis_ends, error_callback_ends,
      on_exception, on_timeout;
    try (destruct (foldl_cancel_frame (workers s) (set_is_running false s))
           as (_ & Hq & _ & _ & _ & _ & _ & Ha));
    repeat (case_match; try discriminate);
    intros Hs; inversion Hs; subst; simpl;
    try (split; [auto | exists 0%nat; auto]; fail).
  - split; [reflexivity|]. exists (length (pending_queue s)).
    rewrite drop_all. reflexivity.
  - split; [reflexivity|]. exists 1%nat. reflexivity.
  - split; [reflexivity|]. exists 1%nat. reflexivity.
Qed.

Lemma StronglySorted_drop (q : list nat) : forall k,
  StronglySorted lt q -> StronglySorted lt (drop k q).
Proof.
  induction q as [|x q IH]; intros [|k] H; simpl; auto.
  apply IH. apply StronglySorted_cons in H as [_ H]. exact H.
Qed.

Lemma Serial_drop c q ads k : Serial c q ads -> Serial c (drop k q) ads.
Proof.
  intros (Hlen & Hs & Hads & Hone).
  assert (Hk : (length (drop k q) <= length q)%nat)
    by (rewrite length_drop; lia).
  split; [lia|]. split; [apply StronglySorted_drop; exact Hs|].
  split; [|exact Hone].
  intros a ad Ha. specialize (Hads a ad Ha). destruct ad; auto.
  - apply Forall_drop. exact Hads.
  - rewrite Hads. apply drop_nil.
  - destruct Hads as [H1 H2]. split; [lia | apply Forall_drop; exact H2].
Qed.

Lemma StronglySorted_snoc (q : list nat) t :
  StronglySorted lt q -> Forall (fun j => (j < t)%nat) q ->
  StronglySorted lt (q ++ [t]).
Proof.
  intros Hs Hall. apply StronglySorted_app_2; auto.
  - intros x1 x2 H1 H2. apply list_elem_of_singleton in H2. subst.
    rewrite Forall_forall in Hall. auto.
  - repeat constructor.
Qed.

Lemma calm_lookup s a ad :
  calm s = true -> adders s !! a = Some ad -> suspended ad = false.
Proof.
  unfold calm. rewrite forallb_forall. intros Hc Ha.
  apply negb_true_iff, Hc, list_elem_of_In. eapply list_elem_of_lookup_2; eauto.
Qed.

(** Once one call stands at [a], every other call has returned. *)
Lemma Serial_others c q ads a ad a' ad' :
  Serial c q ads -> ads !! a = Some ad -> suspended ad = true ->
  ads !! a' = Some ad' -> a' <> a -> suspended ad' = false.
Proof.
  intros (_ & _ & _ & Hone) Ha Hs Ha' Hne.
  destruct (suspended ad') eqn:E; [|reflexivity].
  exfalso. apply Hne. eapply Hone; eauto.
Qed.

Lemma Serial_resume c q q' ads a ad ad' :
  Serial c q ads -> ads !! a = Some ad -> suspended ad = true ->
  Z.of_nat (length q') <= Z.max 1 c ->
  StronglySorted lt q' ->
  match ad' with
  | Evicting t => Forall (fun j => (j < t)%nat) q'
  | Waiting t => q' = []
  | Evicted t o =>
      Z.of_nat (length q') + 1 <= Z.max 1 c
      /\ Forall (fun j => (j < t)%nat) q'
  | Added _ => True
  end ->
  Serial c q' (<[a := ad']> ads).
Proof.
  intros HS Ha Hsus Hlen Hsort Had'.
  split; [exact Hlen|]. split; [exact Hsort|]. split.
  - intros b bd Hb. apply list_lookup_insert_Some in Hb.
    destruct Hb as [(-> & <- & _)|[Hne Hb]]; [exact Had'|].
    assert (Hn : suspended bd = false)
      by (eapply (Serial_others _ _ _ a ad b bd); eauto).
    destruct bd; try discriminate. exact I.
  - intros b b' bd bd' Hb Hb' Hs Hs'.
    apply list_lookup_insert_Some in Hb, Hb'.
    destruct Hb as [(-> & <- & _)|[Hne Hb]];
      destruct Hb' as [(-> & <- & _)|[Hne' Hb']]; auto.
    + assert (Hn : suspended bd' = false)
        by (eapply (Serial_others _ _ _ b ad b' bd'); eauto).
      congruence.
    + assert (Hn : suspended bd = false)
        by (eapply (Serial_others _ _ _ b' ad b bd); eauto).
      congruence.
    + assert (Hn : suspended bd = false)
        by (eapply (Serial_others _ _ _ a ad b bd); eauto).
      congruence.
Qed.

Lemma in_series_add_task text tl hw style timeout s :
  wf s -> in_series s -> calm s = true ->
  in_series (snd (add_task text tl hw style timeout s)).
Proof.
  intros Hwf (Hlen & Hsort & Hads & Hone) Hcalm.
  assert (Hbelow : Forall (fun j => (j < fresh s)%nat) (pending_queue s)).
  { apply Forall_forall. intros j Hj. eapply WF_queued_below; [exact Hwf|].
    unfold waiting. apply elem_of_app. left. exact Hj. }
  assert (Hquiet : forall a ad, adders s !! a = Some ad ->
                                suspended ad = false).
  { intros a ad Ha. eapply calm_lookup; eauto. }
  unfold in_series, add_task. simpl.
  destruct (_ >=? _) eqn:E; simpl.
  - split; [exact Hlen|]. split; [exact Hsort|]. split.
    + intros a ad Ha. apply lookup_app_Some in Ha as [Ha|[_ Ha]].
      * specialize (Hquiet _ _ Ha). destruct ad; try discriminate. exact I.
      * apply list_lookup_singleton_Some in Ha as [_ <-]. exact Hbelow.
    + intros a a' ad ad' Ha Ha' Hs Hs'.
      apply lookup_app_Some in Ha as [Ha|[Hge Ha]];
        [specialize (Hquiet _ _ Ha); congruence|].
      apply lookup_app_Some in Ha' as [Ha'|[Hge' Ha']];
        [specialize (Hquiet _ _ Ha'); congruence|].
      apply list_lookup_singleton_Some in Ha as [Ha _].
      apply list_lookup_singleton_Some in Ha' as [Ha' _]. lia.
  - rewrite Z.geb_leb in E. apply Z.leb_gt in E.
    split; [rewrite length_app; simpl; lia|].
    split; [apply StronglySorted_snoc; assumption|]. split; [|exact Hone].
    intros a ad Ha. specialize (Hquiet _ _ Ha).
    destruct ad; try discriminate. exact I.
Qed.

Lemma in_series_eviction_gets a s s' :
  in_series s -> eviction_gets a s = Some s' -> in_series s'.
Proof.
  unfold in_series, eviction_gets. intros HS.
  pose proof HS as (Hlen & Hsort & Hads & Hone).
  destruct (adders s !! a) as [[t|t|t o|t]|] eqn:Ha; try discriminate;
    pose proof (Hads _ _ Ha) as Hq; simpl in Hq;
    destruct (pending_queue s) as [|oldest rest] eqn:Eq; try discriminate;
    intros Hs; inversion Hs; subst; simpl; rewrite ?Eq.
  - eapply Serial_resume; eauto.
  - apply StronglySorted_cons in Hsort as [_ Hsort].
    apply Forall_cons in Hq as [_ Hq]. simpl in Hlen.
    eapply Serial_resume; eauto; [lia|]. split; [lia | exact Hq].
Qed.

Lemma in_series_eviction_ends a s r :
  in_series s -> eviction_ends a s = Some r -> in_series (snd r).
Proof.
  unfold in_series, eviction_ends. intros HS.
  pose proof HS as (Hlen & Hsort & Hads & Hone).
  destruct (adders s !! a) as [[t|t|t o|t]|] eqn:Ha; try discriminate.
  destruct (Hads _ _ Ha) as [Hroom Hlt].
  intros Hs; inversion Hs; subst; simpl.
  eapply Serial_resume; eauto.
  - rewrite length_app. simpl. lia.
  - apply StronglySorted_snoc; assumption.
Qed.

Lemma in_series_eviction_times_out a s r :
  in_series s -> eviction_times_out a s = Some r -> in_series (snd r).
Proof.
  unfold in_series, eviction_times_out. intros HS.
  pose proof HS as (Hlen & Hsort & Hads & Hone).
  destruct (adders s !! a) as [[t|t|t o|t]|] eqn:Ha; try discriminate.
  pose proof (Hads _ _ Ha) as Hq. simpl in Hq.
  intros Hs; inversion Hs; subst; simpl. rewrite Hq. simpl.
  eapply Serial_resume; eauto.
  - simpl. lia.
  - repeat constructor.
Qed.

Lemma in_series_step a s s' :
  wf s -> in_series s ->
  match a with AddTask _ _ _ _ _ => calm s | _ => true end = true ->
  step a s = Some s' -> in_series s'.
Proof.
  intros Hwf HS Hcalm Hs.
  destruct (of_add_task a) eqn:Ea.
  - destruct a; try discriminate; simpl in Hs.
    + inversion Hs; subst. apply in_series_add_task; assumption.
    + eapply in_series_eviction_gets; eauto.
    + destruct (eviction_ends a s) as [r|] eqn:E; inversion Hs; subst.
      eapply in_series_eviction_ends; eauto.
    + destruct (eviction_times_out a s) as [r|] eqn:E; inversion Hs; subst.
      eapply in_series_eviction_times_out; eauto.
  - destruct (step_shrinks _ _ _ Ea Hs) as (Hads & k & Hq).
    destruct (step_configuration _ _ _ Hs) as [Hm _].
    unfold in_series. rewrite Hads, Hq, Hm. apply Serial_drop. exact HS.
Qed.

Lemma in_series_run actions : forall s s',
  wf s -> tracked s -> in_series s ->
  run actions s = Some s' -> serial actions s = true ->
  wf s' /\ tracked s' /\ in_series s'.
Proof.
  induction actions as [|a rest IH]; intros s s' Hwf Htr HS; simpl.
  - intros H _; inversion H; subst; auto.
  - destruct (step a s) as [s1|] eqn:E; [|discriminate].
    intros Hrun Hser. apply andb_true_iff in Hser as [Hcalm Hser].
    apply (IH s1); auto.
    + eapply wf_step; eauto. apply Htr.
    + eapply tracked_step; eauto.
    + eapply in_series_step; eauto.
Qed.

Lemma in_series_configured mc dt now tc ac acc ec :
  in_series (configured mc dt now tc ac acc ec).
Proof.
  unfold in_series.
  split; [change (0 <= Z.max 1 mc); lia|]. simpl. split; [constructor|].
  split; [intros a ad Ha; inversion Ha|].
  intros a a' ad ad' Ha; inversion Ha.
Qed.

Lemma in_hand_claimed ads a ad t :
  ads !! a = Some ad -> t ∈ claimed ad -> t ∈ in_hand ads.
Proof.
  intros Ha Ht. unfold in_hand. apply list_elem_of_bind.
  exists ad. split; [exact Ht|]. eapply list_elem_of_lookup_2; eauto.
Qed.

(** A task in the hands of a suspended call is PENDING. *)
Lemma wf_claimed s a ad t :
  wf s -> adders s !! a = Some ad -> t ∈ claimed ad ->
  exists task, tasks s !! t = Some task /\ status task = PENDING.
Proof.
  intros Hwf Ha Ht. apply (wf_queued _ _ _ _ _ Hwf).
  unfold waiting. apply elem_of_app. right. eapply in_hand_claimed; eauto.
Qed.

Lemma wf_evicted_distinct s a t o :
  wf s -> adders s !! a = Some (Evicted t o) -> t <> o.
Proof.
  intros Hwf Ha ->. pose proof (wf_nodup _ _ _ _ _ Hwf) as Hn.
  unfold waiting in Hn. apply NoDup_app in Hn as (_ & _ & Hn).
  rewrite (in_hand_added _ _ _ o Ha) in Hn. simpl in Hn.
  apply NoDup_cons in Hn as [Hn _]. apply Hn. left.
Qed.

(** C4, refuted as stated, on three runs.  With a capacity of zero the
    first task finds the queue at capacity and empty: the wait for a task to
    evict times out, nothing is evicted, the task is admitted and the
    reported pending count, one, exceeds the capacity.  With a capacity of
    one and a polling worker, the worker takes the queued task while the
    second call waits: nothing is evicted (the first task is PROCESSING)
    although the queue was at capacity on arrival.  With a capacity of one
    and two calls that overlap, the later call finds the queue emptied by
    the earlier call's eviction and puts its task at once; the earlier call
    then puts its own: two tasks are pending, the one created later
    first. *)
Lemma zero_capacity_overflows :
  get_queue_stats <$> run zero_capacity_run
                        (configured 0 45 1000 true false true true)
  = Some {| pending_count := 1; active_count := 0; completed_count := 0;
            stats_max_concurrent := 0; stats_is_running := false;
            workers_count := 0 |}
  /\ (fun s => (pending_queue s, status_of 0 s))
       <$> run zero_capacity_run (configured 0 45 1000 true false true true)
     = Some ([0%nat], Some PENDING)
  /\ (fun s => (pending_queue s, status_of 0 s, status_of 1 s))
       <$> run (take 3 overtaken_run)
             (configured 1 45 1000 true false true true)
     = Some ([0%nat], Some PENDING, Some PENDING)
  /\ (fun s => (pending_queue s, status_of 0 s, status_of 1 s))
       <$> run overtaken_run (configured 1 45 1000 true false true true)
     = Some ([1%nat], Some PROCESSING, Some PENDING)
  /\ (fun s => (pending_count (get_queue_stats s),
                stats_max_concurrent (get_queue_stats s),
                pending_queue s, status_of 0 s,
                created_at <$> tasks s !! 1%nat,
                created_at <$> tasks s !! 2%nat))
       <$> run overlapping_run (configured 1 45 1000 true false true true)
     = Some (2, 1, [2%nat; 1%nat], Some FAILED, Some 1001%Q,
             Some (1001001 # 1000)%Q).
Proof. vm_compute. repeat split; reflexivity. Qed.

(** C4, for a capacity of at least one and calls of [add_task] that do not
    overlap.  In every state reached from a fresh queue the reported
    pending count is within capacity.  [add_task] creates a PENDING task
    under a fresh id and touches no other task.  Below capacity it puts the
    task last in the queue and returns at once; nothing is evicted.  At
    capacity the call is suspended, and a suspended call can always go on
    until it returns the new task's id.  When its [get] runs on a queue
    that is not empty it takes the head, which is PENDING and was created
    no later than any other queued task; the call then marks exactly that
    task FAILED with the error "Queue overflow", puts the new task last,
    and the pending count is within capacity again.  When its [get] runs
    on a queue that workers have emptied in the meantime it waits; the
    queue then stays empty, the wait times out, nothing is evicted and the
    new task is put all the same. *)
Theorem add_task_within_capacity mc dt now tc ac acc ec actions s
    text tl hw style timeout :
  1 <= mc ->
  run actions (configured mc dt now tc ac acc ec) = Some s ->
  serial actions (configured mc dt now tc ac acc ec) = true ->
  let new_id := fst (add_task text tl hw style timeout s) in
  let s1 := snd (add_task text tl hw style timeout s) in
  pending_count (get_queue_stats s) <= stats_max_concurrent (get_queue_stats s)
  /\ new_id = fresh s
  /\ (exists task, tasks s1 !! new_id = Some task /\ status task = PENDING)
  /\ (forall j, j <> new_id -> tasks s1 !! j = tasks s !! j)
  /\ (pending_count (get_queue_stats s)
      < stats_max_concurrent (get_queue_stats s) ->
      pending_queue s1 = pending_queue s ++ [new_id]
      /\ adders s1 = adders s)
  /\ (stats_max_concurrent (get_queue_stats s)
      <= pending_count (get_queue_stats s) ->
      pending_queue s1 = pending_queue s
      /\ adders s1 = adders s ++ [Evicting new_id])
  /\ (forall a t, adders s !! a = Some (Evicting t) ->
        match pending_queue s with
        | [] => eviction_gets a s = Some (set_adder a (Waiting t) s)
        | oldest :: rest =>
            eviction_gets a s
            = Some (set_adder a (Evicted t oldest) (set_pending_queue rest s))
            /\ exists oldest_task,
                 tasks s !! oldest = Some oldest_task
                 /\ status oldest_task = PENDING
                 /\ forall j tj, j ∈ rest -> tasks s !! j = Some tj ->
                      (created_at oldest_task <= created_at tj)%Q
        end)
  /\ (forall a t oldest, adders s !! a = Some (Evicted t oldest) ->
        exists s' oldest_task,
          eviction_ends a s = Some (t, s')
          /\ tasks s !! oldest = Some oldest_task
          /\ status oldest_task = PENDING
          /\ tasks s' !! oldest
             = Some (mark FAILED "Queue overflow" oldest_task)
          /\ (forall j, j <> oldest -> tasks s' !! j = tasks s !! j)
          /\ (exists task, tasks s' !! t = Some task /\ status task = PENDING)
          /\ pending_queue s' = pending_queue s ++ [t]
          /\ adders s' = <[a := Added t]> (adders s)
          /\ pending_count (get_queue_stats s')
             <= stats_max_concurrent (get_queue_stats s'))
  /\ (forall a t, adders s !! a = Some (Waiting t) ->
        pending_queue s = []
        /\ eviction_gets a s = None
        /\ exists s',
             eviction_times_out a s = Some (t, s')
             /\ tasks s' = tasks s
             /\ (exists task, tasks s' !! t = Some task
                              /\ status task = PENDING)
             /\ pending_queue s' = [t]
             /\ adders s' = <[a := Added t]> (adders s)).
Proof.
  intros Hmc Hrun Hser new_id s1. subst new_id s1.
  rewrite add_task_id.
  destruct (in_series_run actions _ _
              (wf_configured mc dt now tc ac acc ec)
              (tracked_configured mc dt now tc ac acc ec)
              (in_series_configured mc dt now tc ac acc ec) Hrun Hser)
    as (Hwf & Htr & HS).
  pose proof HS as (Hlen & Hsort & Hads & Hone).
  assert (Hm : max_concurrent s = mc).
  { apply run_configuration in Hrun as [-> _]. reflexivity. }
  assert (Hstats : pending_count (get_queue_stats s)
                   = Z.of_nat (length (pending_queue s))
                   /\ stats_max_concurrent (get_queue_stats s)
                      = max_concurrent s) by (split; reflexivity).
  destruct Hstats as [-> ->]. rewrite Hm in *.
  split; [lia|]. split; [reflexivity|].
  split; [|split; [|split; [|split; [|split; [|split]]]]].
  - unfold add_task. simpl. destruct (_ >=? _); simpl;
      eexists; rewrite lookup_insert_eq; split; reflexivity.
  - intros j Hj. unfold add_task. simpl.
    destruct (_ >=? _); simpl; rewrite lookup_insert_ne by auto; reflexivity.
  - intros Hlt. unfold add_task. simpl.
    destruct (_ >=? _) eqn:E; [apply Z.geb_le in E; lia|].
    split; reflexivity.
  - intros Hle. unfold add_task. simpl.
    destruct (_ >=? _) eqn:E; [split; reflexivity|].
    rewrite Z.geb_leb in E. apply Z.leb_gt in E. lia.
  - intros a t Ha. unfold eviction_gets. rewrite Ha.
    destruct (pending_queue s) as [|oldest rest] eqn:Eq; [reflexivity|].
    split; [reflexivity|].
    destruct (wf_queued _ _ _ _ _ Hwf oldest) as (ot & Hot & Hp).
    { unfold waiting. rewrite Eq. left. }
    exists ot. split; [exact Hot|]. split; [exact Hp|].
    intros j tj Hj Htj. eapply (wf_ages _ _ _ _ _ Hwf); eauto.
    apply StronglySorted_cons in Hsort as [Hall _].
    rewrite Forall_forall in Hall. specialize (Hall _ Hj). lia.
  - intros a t oldest Ha. unfold eviction_ends. rewrite Ha.
    destruct (wf_claimed s a _ oldest Hwf Ha) as (ot & Hot & Hp);
      [right; left|].
    destruct (wf_claimed s a _ t Hwf Ha) as (nt & Hnt & Hnp); [left|].
    pose proof (wf_evicted_distinct _ _ _ _ Hwf Ha) as Hne.
    destruct (Hads _ _ Ha) as [Hroom _].
    eexists. exists ot. split; [reflexivity|]. simpl.
    split; [exact Hot|]. split; [exact Hp|].
    split; [rewrite lookup_alter_eq, Hot; reflexivity|].
    split; [intros j Hj; rewrite lookup_alter_ne by auto; reflexivity|].
    split; [exists nt; rewrite lookup_alter_ne by auto; auto|].
    split; [reflexivity|]. split; [reflexivity|].
    rewrite length_app, Hm. simpl. lia.
  - intros a t Ha. pose proof (Hads _ _ Ha) as Hq. simpl in Hq.
    split; [exact Hq|]. unfold eviction_gets, eviction_times_out.
    rewrite Ha, Hq. split; [reflexivity|].
    destruct (wf_claimed s a _ t Hwf Ha) as (nt & Hnt & Hnp); [left|].
    eexists. split; [reflexivity|]. simpl. rewrite Hq.
    split; [reflexivity|]. split; [eauto|]. split; reflexivity.
Qed.

Lemma add_task_within_capacity_witness :
  exists s,
    run (take 3 overflow_run) (configured 1 45 1000 true false true true)
    = Some s
    /\ adders s !! 0%nat = Some (Evicted 1 0)
    /\ exists s' oldest_task,
         eviction_ends 0 s = Some (1%nat, s')
         /\ tasks s' !! 0%nat
            = Some (mark FAILED "Queue overflow" oldest_task)
         /\ pending_queue s' = pending_queue s ++ [1%nat]
         /\ pending_count (get_queue_stats s')
            <= stats_max_concurrent (get_queue_stats s').
Proof.
  destruct (run (take 3 overflow_run)
              (configured 1 45 1000 true false true true))
    as [s|] eqn:E; [|vm_compute in E; discriminate E].
  assert (Ha : adders <$> Some s = Some [Evicted 1 0])
    by (rewrite <- E; vm_compute; reflexivity).
  injection Ha as Ha.
  assert (Ha0 : adders s !! 0%nat = Some (Evicted 1 0))
    by (rewrite Ha; reflexivity).
  exists s. split; [reflexivity|]. split; [exact Ha0|].
  destruct (add_task_within_capacity 1 45 1000 true false true true
              (take 3 overflow_run) s hello "French" [] "default" None
              ltac:(lia) E ltac:(vm_compute; reflexivity))
    as (_ & _ & _ & _ & _ & _ & _ & Hev & _).
  destruct (Hev _ _ _ Ha0)
    as (s' & ot & H1 & _ & _ & H4 & _ & _ & H7 & _ & H9).
  exists s', ot. auto.
Defined.

End QueueClaims.

Section QueueStatus.
Import PyStr Queue.

(** ** How one action changes a task's status (C1) *)

Lemma forward_refl a : forward a a.
Proof. split; [lia|]. intros [-> H]. discriminate. Qed.

Lemma forward_failed a : forward a FAILED.
Proof. split; [destruct a; simpl; lia|]. intros [_ H]. discriminate. Qed.

Lemma forward_timeout a : forward a TIMEOUT.
Proof. split; [destruct a; simpl; lia|]. intros [_ H]. discriminate. Qed.

Lemma moves_refl s i a : moves s i a a.
Proof. split; [apply forward_refl | auto]. Qed.

Lemma moves_marked s i a b : b = FAILED \/ b = TIMEOUT -> moves s i a b.
Proof.
  intros [-> | ->]; (split; [|discriminate]);
    [apply forward_failed | apply forward_timeout].
Qed.

Lemma alter_moves s (m : gmap nat TranslationTask) f t i task :
  m !! i = Some task ->
  (i = t -> moves s i (status task) (status (f task))) ->
  exists task', alter f t m !! i = Some task'
                /\ moves s i (status task) (status task').
Proof.
  intros Hi Hf. destruct (decide (t = i)) as [->|Hne].
  - exists (f task). rewrite lookup_alter_eq, Hi. split; [reflexivity|auto].
  - exists task. rewrite lookup_alter_ne by exact Hne.
    split; [exact Hi | apply moves_refl].
Qed.

Lemma mark_each_moves e ids : forall (m : gmap nat TranslationTask) i task,
  m !! i = Some task ->
  exists task', mark_each e ids m !! i = Some task'
                /\ (status task' = status task \/ status task' = FAILED).
Proof.
  induction ids as [|t ids IH]; intros m i task Hi; simpl; [eauto|].
  destruct (decide (t = i)) as [->|Hne].
  - destruct (IH (alter (mark FAILED e) i m) i (mark FAILED e task))
      as (task' & H1 & H2).
    { rewrite lookup_alter_eq, Hi. reflexivity. }
    exists task'. split; [exact H1|]. right. destruct H2 as [-> | ->]; reflexivity.
  - apply IH. rewrite lookup_alter_ne by exact Hne. exact Hi.
Qed.

Lemma moves_of_status s i a b : b = a \/ b = FAILED -> moves s i a b.
Proof.
  intros [-> | ->]; [apply moves_refl | apply moves_marked; left; reflexivity].
Qed.

Lemma on_exception_moves w t e s i task :
  tasks s !! i = Some task ->
  exists task', tasks (on_exception w t e s) !! i = Some task'
                /\ moves s i (status task) (status task').
Proof.
  intros Hi. unfold on_exception. simpl.
  destruct (error_callback s); simpl;
    (apply alter_moves; [exact Hi|]); intros _;
    apply moves_marked; left; reflexivity.
Qed.

Lemma on_timeout_moves w t s i task :
  tasks s !! i = Some task ->
  exists task', tasks (on_timeout w t s) !! i = Some task'
                /\ moves s i (status task) (status task').
Proof.
  intros Hi. unfold on_timeout. simpl.
  apply alter_moves; [exact Hi|]. intros _.
  apply moves_marked; right; reflexivity.
Qed.

(** One action moves every task of the store forward. *)
Lemma step_moves a s s' i task :
  wf s -> step a s = Some s' -> tasks s !! i = Some task ->
  exists task', tasks s' !! i = Some task'
                /\ moves s i (status task) (status task').
Proof.
  intros Hwf Hs Hi.
  assert (Hsame : forall x, tasks x = tasks s ->
            exists task', tasks x !! i = Some task'
                          /\ moves s i (status task) (status task')).
  { intros x ->. exists task. split; [exact Hi | apply moves_refl]. }
  destruct a as [d|tx tl hw style timeout|a|a|a| | | |w|w r|w r
                 |w chunk final fmt|w r|w];
    simpl in Hs.
  - destruct (Qle_bool 0 d); inversion Hs; subst. apply Hsame. reflexivity.
  - inversion Hs; subst; clear Hs. unfold add_task. simpl.
    assert (Hne : i <> fresh s).
    { destruct (wf_tasks _ _ _ _ _ Hwf _ _ Hi). lia. }
    assert (Hi' : <[fresh s := new_task tx tl hw style timeout s]> (tasks s) !! i
                  = Some task).
    { rewrite lookup_insert_ne by auto. exact Hi. }
    destruct (_ >=? _); simpl; eauto using moves_refl.
  - apply Hsame. unfold eviction_gets in Hs.
    destruct (adders s !! a) as [[t|t|t o|t]|]; try discriminate;
      destruct (pending_queue s); inversion Hs; reflexivity.
  - unfold eviction_ends in Hs.
    destruct (adders s !! a) as [[t|t|t o|t]|]; try discriminate.
    inversion Hs; subst; simpl.
    apply alter_moves; [exact Hi|]. intros _.
    apply moves_marked; left; reflexivity.
  - apply Hsame. unfold eviction_times_out in Hs.
    destruct (adders s !! a) as [[t|t|t o|t]|]; try discriminate.
    inversion Hs; reflexivity.
  - inversion Hs; subst. apply Hsame. unfold start_workers.
    destruct (is_running s); reflexivity.
  - inversion Hs; subst. apply Hsame. unfold stop_workers. simpl.
    destruct (foldl_cancel_frame (workers s) (set_is_running false s))
      as (-> & _). reflexivity.
  - inversion Hs; subst; clear Hs. unfold clear_pending_tasks. simpl.
    destruct (mark_each_moves "Task cleared by user" (pending_queue s)
                _ _ _ Hi) as (t1 & H1 & Hst1).
    destruct (mark_each_moves "Task cancelled by user"
                (elements (active_tasks s)) _ _ _ H1) as (t2 & H2 & Hst2).
    exists t2. split; [exact H2|]. apply moves_of_status.
    destruct Hst2 as [-> | ->]; auto.
  - unfold worker_gets in Hs.
    destruct (workers s !! w) as [[| | | |]|] eqn:Hw; try discriminate.
    destruct (pending_queue s) as [|t rest] eqn:Eq; [discriminate|].
    destruct (tasks s !! t) as [head|] eqn:Hhead; [|discriminate].
    unfold wf, waiting in Hwf. rewrite Eq in Hwf. simpl in Hwf.
    destruct (WF_pop _ _ _ _ _ _ Hwf) as (_ & _ & (head' & Hh' & Hp)).
    assert (head' = head) by congruence. subst head'.
    simpl in Hs. destruct (Qgt_bool _ _); inversion Hs; subst; simpl.
    + apply alter_moves; [exact Hi|]. intros _.
      apply moves_marked; right; reflexivity.
    + apply alter_moves; [exact Hi|]. intros ->.
      assert (task = head) by congruence. subst. simpl. rewrite Hp.
      split; [|discriminate]. split; [simpl; lia|].
      intros [_ H]. discriminate.
  - unfold translate_ends in Hs.
    destruct (workers s !! w) as [[|t|t x|t x|t]|] eqn:Hw; try discriminate.
    destruct r as [translated|e|].
    + destruct (is_empty_result translated).
      * inversion Hs; subst. apply on_exception_moves; exact Hi.
      * destruct (tasks s !! t); [|discriminate].
        destruct (translation_callback s); inversion Hs; subst;
          apply Hsame; reflexivity.
    + inversion Hs; subst. apply on_exception_moves; exact Hi.
    + inversion Hs; subst. apply on_timeout_moves; exact Hi.
  - unfold translation_callback_ends in Hs.
    destruct (workers s !! w) as [[|t|t x|t x|t]|] eqn:Hw; try discriminate.
    destruct r as [[]|e|]; inversion Hs; subst.
    + apply Hsame; reflexivity.
    + apply on_exception_moves; exact Hi.
    + apply on_timeout_moves; exact Hi.
  - unfold synthesis_calls in Hs.
    destruct (workers s !! w) as [[|t|t x|t x|t]|] eqn:Hw; try discriminate.
    destruct (audio_chunk_callback s); inversion Hs; subst;
      apply Hsame; reflexivity.
  - unfold synthesis_ends in Hs.
    destruct (workers s !! w) as [[|t|t x|t x|t]|] eqn:Hw; try discriminate.
    destruct r as [audio|e|]; inversion Hs; subst.
    + simpl. apply alter_moves; [exact Hi|]. intros ->. simpl.
      destruct (wf_held _ _ _ _ _ Hwf _ _ _ Hw eq_refl)
        as (task0 & Ht0 & [a Ha]).
      assert (task0 = task) by congruence. subst task0.
      destruct (wf_tasks _ _ _ _ _ Hwf _ _ Hi) as (_ & _ & _ & _ & _ & H5).
      split; [|intros _; right; eauto].
      split; [destruct (status task); simpl; lia|].
      intros [Hp _]. destruct (H5 Hp). congruence.
    + apply on_exception_moves; exact Hi.
    + apply on_timeout_moves; exact Hi.
  - unfold error_callback_ends in Hs.
    destruct (workers s !! w) as [[|t|t x|t x|t]|] eqn:Hw; try discriminate.
    inversion Hs; subst. apply Hsame; reflexivity.
Qed.

(** When synthesis returns, the task's status becomes COMPLETED whatever it
    was, FAILED by cancellation included. *)
Lemma synthesis_ends_completes w t x audio s :
  workers s !! w = Some (Synthesizing t x) ->
  is_Some (tasks s !! t) ->
  exists s', synthesis_ends w (Returned audio) s = Some s'
             /\ status_of t s' = Some COMPLETED.
Proof.
  intros Hw [task Ht]. unfold synthesis_ends. rewrite Hw.
  eexists. split; [reflexivity|]. unfold status_of. simpl.
  rewrite lookup_alter_eq, Ht. reflexivity.
Qed.

End QueueStatus.

Section QueueLog.
Import PyStr Queue.

(** ** The order of callbacks (C2) *)

Lemma before_snoc e k l x : before e k l -> before e k (l ++ [x]).
Proof.
  intros (j & Hj & He). exists j. split; [exact Hj|].
  apply lookup_app_l_Some. exact He.
Qed.

Lemma before_end e l x : e ∈ l -> before e (length l) (l ++ [x]).
Proof.
  intros He. apply list_elem_of_lookup in He as [j Hj].
  exists j. split; [eapply lookup_lt_Some; eauto|].
  apply lookup_app_l_Some. exact Hj.
Qed.

Lemma ordered_snoc l e : ordered l -> announced l e -> ordered (l ++ [e]).
Proof.
  intros Ho Ha k x Hk. apply lookup_snoc_Some in Hk as [[Hlt Hk]|[-> ->]].
  - specialize (Ho _ _ Hk). destruct x; auto.
    + destruct Ho as [r Hr]. exists r. apply before_snoc. exact Hr.
    + apply before_snoc. exact Ho.
  - destruct x; simpl in Ha; auto.
    + destruct Ha as [r Hr]. exists r. apply before_end. exact Hr.
    + apply before_end. exact Ha.
Qed.

Lemma notified_snoc l e pc : notified l pc -> notified (l ++ [e]) pc.
Proof.
  destruct pc; simpl; auto.
  - intros [r Hr]. exists r. apply elem_of_app. left. exact Hr.
  - intros H. apply elem_of_app. left. exact H.
Qed.

Lemma Obs_emit l ws e : Obs l ws -> announced l e -> Obs (l ++ [e]) ws.
Proof.
  intros [Ho Hn] Ha. split; [apply ordered_snoc; assumption|].
  intros w pc Hw. apply notified_snoc. eapply Hn; eauto.
Qed.

Lemma Obs_set_worker l ws w pc :
  Obs l ws -> notified l pc -> Obs l (<[w := pc]> ws).
Proof.
  intros [Ho Hn] Hpc. split; [exact Ho|].
  intros w' pc'. rewrite list_lookup_insert_Some.
  intros [(_ & <- & _)|[_ Hw]]; [exact Hpc | eapply Hn; eauto].
Qed.

Lemma Obs_no_workers l ws : Obs l ws -> Obs l [].
Proof. intros [Ho _]. split; [exact Ho|]. intros w pc H. inversion H. Qed.

Lemma Obs_polling l ws k : Obs l ws -> Obs l (ws ++ replicate k Polling).
Proof.
  intros [Ho Hn]. split; [exact Ho|].
  intros w pc. rewrite lookup_app_Some.
  intros [Hw|[_ Hw]]; [eapply Hn; eauto|].
  apply lookup_replicate in Hw as [-> _]. exact I.
Qed.

Lemma Obs_on_exception w t e s :
  Obs (log s) (workers s) ->
  Obs (log (on_exception w t e s)) (workers (on_exception w t e s)).
Proof.
  intros H. unfold on_exception. simpl. destruct (error_callback s); simpl.
  - apply Obs_set_worker; [apply Obs_emit; [exact H | exact I] | exact I].
  - apply Obs_set_worker; [exact H | exact I].
Qed.

Lemma Obs_on_timeout w t s :
  Obs (log s) (workers s) ->
  Obs (log (on_timeout w t s)) (workers (on_timeout w t s)).
Proof.
  intros H. unfold on_timeout. simpl.
  apply Obs_set_worker; [exact H | exact I].
Qed.

(** One action keeps the log ordered and in step with the workers, provided
    the translation callback is registered. *)
Lemma Obs_step a s s' :
  translation_callback s = true ->
  Obs (log s) (workers s) -> step a s = Some s' ->
  Obs (log s') (workers s').
Proof.
  intros Htc H Hs.
  destruct a as [d|tx tl hw style timeout|a|a|a| | | |w|w r|w r
                 |w chunk final fmt|w r|w];
    simpl in Hs.
  - destruct (Qle_bool 0 d); inversion Hs; subst. exact H.
  - inversion Hs; subst. unfold add_task. simpl.
    repeat (case_match; simpl); exact H.
  - unfold eviction_gets in Hs.
    repeat (case_match; try discriminate); inversion Hs; subst; exact H.
  - unfold eviction_ends in Hs.
    repeat (case_match; try discriminate); inversion Hs; subst; exact H.
  - unfold eviction_times_out in Hs.
    repeat (case_match; try discriminate); inversion Hs; subst; exact H.
  - inversion Hs; subst. unfold start_workers.
    destruct (is_running s); simpl; [exact H | apply Obs_polling; exact H].
  - inversion Hs; subst. unfold stop_workers. simpl.
    destruct (foldl_cancel_frame (workers s) (set_is_running false s))
      as (_ & _ & _ & _ & _ & _ & -> & _). simpl.
    eapply Obs_no_workers; exact H.
  - inversion Hs; subst. exact H.
  - unfold worker_gets in Hs.
    repeat (case_match; try discriminate); inversion Hs; subst; simpl;
      [exact H | apply Obs_set_worker; [exact H | exact I]].
  - unfold translate_ends in Hs.
    destruct (workers s !! w) as [[|t|t x|t x|t]|] eqn:Hw; try discriminate.
    destruct r as [translated|e|].
    + destruct (is_empty_result translated).
      * inversion Hs; subst. apply Obs_on_exception; exact H.
      * destruct (tasks s !! t); [|discriminate]. rewrite Htc in Hs.
        inversion Hs; subst. simpl.
        apply Obs_set_worker; [apply Obs_emit; [exact H | exact I]|].
        simpl. eexists. apply elem_of_app. right. left.
    + inversion Hs; subst. apply Obs_on_exception; exact H.
    + inversion Hs; subst. apply Obs_on_timeout; exact H.
  - unfold translation_callback_ends in Hs.
    destruct (workers s !! w) as [[|t|t x|t x|t]|] eqn:Hw; try discriminate.
    destruct r as [[]|e|]; inversion Hs; subst.
    + simpl. apply Obs_set_worker.
      * apply Obs_emit; [exact H|]. apply (proj2 H _ _ Hw).
      * simpl. apply elem_of_app. right. left.
    + apply Obs_on_exception; exact H.
    + apply Obs_on_timeout; exact H.
  - unfold synthesis_calls in Hs.
    destruct (workers s !! w) as [[|t|t x|t x|t]|] eqn:Hw; try discriminate.
    destruct (audio_chunk_callback s); inversion Hs; subst; simpl;
      [|exact H].
    apply Obs_emit; [exact H|]. apply (proj2 H _ _ Hw).
  - unfold synthesis_ends in Hs.
    destruct (workers s !! w) as [[|t|t x|t x|t]|] eqn:Hw; try discriminate.
    destruct r as [audio|e|]; inversion Hs; subst.
    + simpl. apply Obs_set_worker; [exact H | exact I].
    + apply Obs_on_exception; exact H.
    + apply Obs_on_timeout; exact H.
  - unfold error_callback_ends in Hs.
    destruct (workers s !! w) as [[|t|t x|t x|t]|] eqn:Hw; try discriminate.
    inversion Hs; subst. simpl. apply Obs_set_worker; [exact H | exact I].
Qed.

(** The log only grows. *)
Lemma step_log a s s' e : step a s = Some s' -> e ∈ log s -> e ∈ log s'.
Proof.
  intros Hs He.
  assert (Hsnoc : forall x, e ∈ log s ++ [x])
    by (intros; apply elem_of_app; left; exact He).
  destruct a; simpl in Hs;
    unfold add_task, eviction_gets, eviction_ends, eviction_times_out,
      start_workers, stop_workers, clear_pending_tasks,
      worker_gets, translate_ends, translation_callback_ends,
      synthesis_calls, synthesis_ends, error_callback_ends,
      on_exception, on_timeout in Hs;
    try (destruct (foldl_cancel_frame (workers s) (set_is_running false s))
           as (_ & _ & _ & _ & _ & _ & Hl & _));
    repeat (case_match; try discriminate);
    inversion Hs; subst; simpl; try rewrite Hl; simpl; auto.
Qed.

Lemma mark_each_None e ids : forall (m : gmap nat TranslationTask) i,
  m !! i = None -> mark_each e ids m !! i = None.
Proof.
  induction ids as [|t ids IH]; intros m i Hi; simpl; [exact Hi|].
  apply IH. apply lookup_alter_None. exact Hi.
Qed.

Lemma on_exception_None w t e s i :
  tasks s !! i = None -> tasks (on_exception w t e s) !! i = None.
Proof.
  intros Hi. unfold on_exception. simpl.
  destruct (error_callback s); simpl; apply lookup_alter_None; exact Hi.
Qed.

Lemma on_timeout_None w t s i :
  tasks s !! i = None -> tasks (on_timeout w t s) !! i = None.
Proof.
  intros Hi. unfold on_timeout. simpl. apply lookup_alter_None. exact Hi.
Qed.

(** A task that enters the store is PENDING. *)
Lemma step_new_task a s s' i task' :
  wf s -> step a s = Some s' ->
  tasks s !! i = None -> tasks s' !! i = Some task' ->
  status task' = PENDING.
Proof.
  intros Hwf Hs Hi Hi'.
  assert (Hkept : tasks s' !! i = None -> status task' = PENDING)
    by (intros H; congruence).
  destruct a as [d|tx tl hw style timeout|a|a|a| | | |w|w r|w r
                 |w chunk final fmt|w r|w];
    simpl in Hs.
  - destruct (Qle_bool 0 d); inversion Hs; subst. auto.
  - inversion Hs; subst; clear Hs Hkept. revert Hi'.
    unfold add_task. simpl.
    assert (Hnew : forall x,
              <[fresh s := new_task tx tl hw style timeout s]> (tasks s) !! i
              = Some x -> status x = PENDING).
    { intros x Hx. apply lookup_insert_Some in Hx as [[_ <-]|[_ Hx]];
        [reflexivity | congruence]. }
    destruct (_ >=? _); simpl; apply Hnew.
  - apply Hkept. unfold eviction_gets in Hs.
    repeat (case_match; try discriminate); inversion Hs; subst; exact Hi.
  - apply Hkept. unfold eviction_ends in Hs.
    repeat (case_match; try discriminate); inversion Hs; subst; simpl.
    apply lookup_alter_None. exact Hi.
  - apply Hkept. unfold eviction_times_out in Hs.
    repeat (case_match; try discriminate); inversion Hs; subst; exact Hi.
  - inversion Hs; subst. apply Hkept. unfold start_workers.
    destruct (is_running s); exact Hi.
  - inversion Hs; subst. apply Hkept. unfold stop_workers. simpl.
    destruct (foldl_cancel_frame (workers s) (set_is_running false s))
      as (-> & _). exact Hi.
  - inversion Hs; subst. apply Hkept. unfold clear_pending_tasks. simpl.
    apply mark_each_None, mark_each_None. exact Hi.
  - unfold worker_gets in Hs.
    destruct (workers s !! w) as [[| | | |]|]; try discriminate.
    destruct (pending_queue s) as [|t rest]; [discriminate|].
    destruct (tasks s !! t); [|discriminate].
    simpl in Hs. apply Hkept.
    destruct (Qgt_bool _ _); inversion Hs; subst; simpl;
      apply lookup_alter_None; exact Hi.
  - unfold translate_ends in Hs.
    destruct (workers s !! w) as [[|t|t x|t x|t]|]; try discriminate.
    apply Hkept. destruct r as [translated|e|].
    + destruct (is_empty_result translated).
      * inversion Hs; subst. apply on_exception_None; exact Hi.
      * destruct (tasks s !! t); [|discriminate].
        destruct (translation_callback s); inversion Hs; subst; exact Hi.
    + inversion Hs; subst. apply on_exception_None; exact Hi.
    + inversion Hs; subst. apply on_timeout_None; exact Hi.
  - unfold translation_callback_ends in Hs.
    destruct (workers s !! w) as [[|t|t x|t x|t]|]; try discriminate.
    apply Hkept. destruct r as [[]|e|]; inversion Hs; subst.
    + exact Hi.
    + apply on_exception_None; exact Hi.
    + apply on_timeout_None; exact Hi.
  - unfold synthesis_calls in Hs.
    destruct (workers s !! w) as [[|t|t x|t x|t]|]; try discriminate.
    apply Hkept. destruct (audio_chunk_callback s); inversion Hs; subst;
      exact Hi.
  - unfold synthesis_ends in Hs.
    destruct (workers s !! w) as [[|t|t x|t x|t]|]; try discriminate.
    apply Hkept. destruct r as [audio|e|]; inversion Hs; subst.
    + simpl. apply lookup_alter_None; exact Hi.
    + apply on_exception_None; exact Hi.
    + apply on_timeout_None; exact Hi.
  - unfold error_callback_ends in Hs.
    destruct (workers s !! w) as [[|t|t x|t x|t]|]; try discriminate.
    apply Hkept. inversion Hs; subst. exact Hi.
Qed.

Lemma observed_step a s s' :
  translation_callback s = true -> wf s ->
  observed s -> step a s = Some s' -> observed s'.
Proof.
  intros Htc Hwf [Hobs Hdone] Hs. split; [eapply Obs_step; eauto|].
  intros i task' Hi' Hc.
  destruct (tasks s !! i) as [task|] eqn:Hi.
  - destruct (step_moves _ _ _ _ _ Hwf Hs Hi) as (task'' & H'' & [_ Hm]).
    assert (task'' = task') by congruence. subst task''.
    eapply step_log; [exact Hs|].
    destruct (Hm Hc) as [Hold|(w & x & Hw)].
    + eapply Hdone; eauto.
    + apply (proj2 Hobs _ _ Hw).
  - pose proof (step_new_task _ _ _ _ _ Hwf Hs Hi Hi'). congruence.
Qed.

Lemma observed_run actions : forall s s',
  translation_callback s = true -> wf s -> tracked s -> observed s ->
  run actions s = Some s' -> observed s'.
Proof.
  induction actions as [|a rest IH]; intros s s' Htc Hwf Htr Hobs; simpl.
  - intros H; inversion H; subst; exact Hobs.
  - destruct (step a s) as [s1|] eqn:E; [|discriminate].
    apply IH.
    + destruct (step_configuration _ _ _ E) as [_ ->]. exact Htc.
    + eapply wf_step; eauto. apply Htr.
    + eapply tracked_step; eauto.
    + eapply observed_step; eauto.
Qed.

(** C2.  In every state reached from a fresh queue whose translation callback
    is registered, the log of callback invocations is ordered: each
    audio-chunk callback of a task comes strictly after the return of that
    task's translation callback, which comes strictly after its invocation.
    And every task that completed has had its translation callback invoked
    and awaited. *)
Theorem translation_callback_precedes_audio mc dt now ac acc ec actions s :
  run actions (configured mc dt now true ac acc ec) = Some s ->
  (forall k t chunk final fmt,
      log s !! k = Some (AudioChunkCallback t chunk final fmt) ->
      exists j r i, (i < j < k)%nat
        /\ log s !! i = Some (TranslationCallback t r)
        /\ log s !! j = Some (TranslationCallbackDone t))
  /\ (forall i task, tasks s !! i = Some task -> status task = COMPLETED ->
        TranslationCallbackDone i ∈ log s).
Proof.
  intros Hrun.
  assert (Hobs : observed s).
  { eapply observed_run; [| | | |exact Hrun].
    - reflexivity.
    - apply wf_configured.
    - apply tracked_configured.
    - split; [split|].
      + intros k e H. inversion H.
      + intros w pc H. inversion H.
      + intros i task H. simpl in H. rewrite lookup_empty in H. discriminate. }
  destruct Hobs as [[Hord _] Hdone]. split; [|exact Hdone].
  intros k t chunk final fmt Hk.
  destruct (Hord _ _ Hk) as (j & Hjk & Hj).
  destruct (Hord _ _ Hj) as (r & i & Hij & Hi).
  exists j, r, i. repeat split; auto.
Qed.

Lemma translation_callback_precedes_audio_witness :
  exists s, run success_run (configured 3 45 1000 true false true true)
            = Some s
    /\ (forall k t chunk final fmt,
          log s !! k = Some (AudioChunkCallback t chunk final fmt) ->
          exists j r i, (i < j < k)%nat
            /\ log s !! i = Some (TranslationCallback t r)
            /\ log s !! j = Some (TranslationCallbackDone t))
    /\ (forall i task, tasks s !! i = Some task -> status task = COMPLETED ->
          TranslationCallbackDone i ∈ log s).
Proof.
  destruct (run success_run (configured 3 45 1000 true false true true))
    as [s|] eqn:E; [|vm_compute in E; discriminate E].
  exists s. split; [reflexivity|].
  apply (translation_callback_precedes_audio 3 45 1000 false true true
           success_run s E).
Defined.

End QueueLog.

Section QueueTasks.
Import PyStr Queue.

(** ** Status changes (C1) *)

(** C1 on the code.  A worker is translating task 0 when the user calls
    [clear_pending_tasks], which marks the task FAILED with "Task cancelled
    by user" and cancels nothing: the worker still holds the task, which
    stays active.  The translator then answers; the completion is not
    discarded: the translation callback and the audio callbacks fire, the
    synthesis returns, and the task leaves its terminal state: it ends
    COMPLETED, with a result and a completion time, still carrying the
    cancellation error. *)
Lemma cancelled_task_completes :
  status_of 0 <$> run (take 5 cancelled_run)
                    (configured 3 45 1000 true false true true)
  = Some (Some PROCESSING)
  /\ (fun s => (status_of 0 s, error <$> tasks s !! 0%nat,
                workers s !! 0%nat, bool_decide (0%nat ∈ active_tasks s),
                log s))
       <$> run (take 6 cancelled_run)
             (configured 3 45 1000 true false true true)
     = Some (Some FAILED, Some (Some (Message "Task cancelled by user")),
             Some (Translating 0), true, [])
  /\ (fun s => (status_of 0 s, error <$> tasks s !! 0%nat,
                completed_at <$> tasks s !! 0%nat,
                snap_status <$> get_task_status 0 s, log s))
       <$> run cancelled_run (configured 3 45 1000 true false true true)
     = Some (Some COMPLETED,
             Some (Some (Message "Task cancelled by user")),
             Some (Some 1004%Q),
             Some "completed",
             [ TranslationCallback 0
                 {| original_text := hello; translated_text := bonjour;
                    result_target_language := "French"; result_task_id := 0;
                    audio_size := None |};
               TranslationCallbackDone 0;
               AudioChunkCallback 0 [x01; x02] false "mp3";
               AudioChunkCallback 0 [x01; x02] true "mp3" ]).
Proof. repeat split; vm_compute; reflexivity. Qed.

(** ** Timestamps (C5) *)

(** C5, refuted as stated.  A task whose translation raised is FAILED with
    [started_at] set and [completed_at] unset; a task evicted on overflow is
    FAILED and a task found stale on dequeue is TIMEOUT, both with neither
    timestamp set. *)
Lemma terminal_task_without_completed_at :
  timestamps_of 0 <$> run failure_run
                        (configured 3 45 1000 true false true true)
  = Some (Some (FAILED, Some 1001%Q, None))
  /\ timestamps_of 0 <$> run overflow_run
                           (configured 1 45 1000 true false true true)
     = Some (Some (FAILED, None, None))
  /\ timestamps_of 0 <$> run stale_run
                           (configured 3 45 1000 true false true true)
     = Some (Some (TIMEOUT, None, None)).
Proof. repeat split; vm_compute; reflexivity. Qed.

(** C5, as the code has it.  For every task of a state reached from a fresh
    queue, the timestamps that are set are ordered: [started_at] is not
    before [created_at], and [completed_at] is set only together with
    [started_at] and is not before it.  A COMPLETED task has all three
    set. *)
Theorem completed_task_timestamps mc dt now tc ac acc ec actions s i task :
  run actions (configured mc dt now tc ac acc ec) = Some s ->
  tasks s !! i = Some task ->
  (forall a, started_at task = Some a -> (created_at task <= a)%Q)
  /\ (forall d, completed_at task = Some d ->
        exists a, started_at task = Some a /\ (a <= d)%Q)
  /\ (status task = COMPLETED ->
      exists a d, started_at task = Some a /\ completed_at task = Some d
                  /\ (created_at task <= a)%Q /\ (a <= d)%Q).
Proof.
  intros Hrun Hi. pose proof (wf_run _ _ _ _ _ _ _ _ _ Hrun) as Hwf.
  destruct (wf_tasks _ _ _ _ _ Hwf _ _ Hi) as (_ & _ & H2 & H3 & H4 & _).
  split; [|split].
  - intros a Ha. apply (H2 _ Ha).
  - intros d Hd. destruct (H3 _ Hd) as (a & Ha & Had & _). eauto.
  - intros Hc. destruct (H4 Hc) as [d Hd].
    destruct (H3 _ Hd) as (a & Ha & Had & _).
    exists a, d. repeat split; auto. apply (H2 _ Ha).
Qed.

Lemma completed_task_timestamps_witness :
  exists s task,
    run success_run (configured 3 45 1000 true false true true) = Some s
    /\ tasks s !! 0%nat = Some task
    /\ (status task = COMPLETED ->
        exists a d, started_at task = Some a /\ completed_at task = Some d
                    /\ (created_at task <= a)%Q /\ (a <= d)%Q).
Proof.
  destruct (run success_run (configured 3 45 1000 true false true true))
    as [s|] eqn:E; [|vm_compute in E; discriminate E].
  destruct (tasks s !! 0%nat) as [task|] eqn:Et.
  - exists s, task. split; [reflexivity|]. split; [exact Et|].
    apply (completed_task_timestamps 3 45 1000 true false true true
             success_run s 0%nat task E Et).
  - exfalso. assert (H : (fun s => tasks s !! 0%nat) <$> Some s = Some None)
      by (simpl; rewrite Et; reflexivity).
    rewrite <- E in H. vm_compute in H. discriminate H.
Defined.

(** ** Retention (C6) *)

(** C6 on the code.  With a capacity of one, [add_task] returns id 0 for the
    first task; the second task evicts it, which marks it FAILED, and
    [get_task_status 0] then answers not-found.  Likewise a task found stale
    on dequeue is marked TIMEOUT and is not found afterwards.  A task that
    went through [_process_task] is found. *)
Theorem evicted_task_not_queryable :
  fst (add_task hello "French" [] "default" None
         (configured 1 45 1000 true false true true)) = 0%nat
  /\ (fun s => (status_of 0 s, get_task_status 0 s))
       <$> run overflow_run (configured 1 45 1000 true false true true)
     = Some (Some FAILED, None)
  /\ (fun s => (status_of 0 s, get_task_status 0 s))
       <$> run stale_run (configured 3 45 1000 true false true true)
     = Some (Some TIMEOUT, None)
  /\ (fun s => (status_of 0 s, snap_status <$> get_task_status 0 s))
       <$> run failure_run (configured 3 45 1000 true false true true)
     = Some (Some FAILED, Some "failed").
Proof. repeat split; vm_compute; reflexivity. Qed.

End QueueTasks.

(** * The segmenter on whole streams *)
Section SegmenterStreams.
Import Segmenter.

(** [_process_frame] neither reads nor writes the byte buffer. *)
Lemma process_frame_buffer is_speech b ap frame :
  _process_frame is_speech (set_audio_buffer b ap) frame
  = (fst (_process_frame is_speech ap frame),
     set_audio_buffer b (snd (_process_frame is_speech ap frame))).
Proof.
  unfold _process_frame. destruct ap; simpl.
  destruct (is_speech frame sample_rate0) as [[|]|e]; simpl;
    try reflexivity.
  - destruct speech_started0; reflexivity.
  - destruct speech_started0; simpl; [|reflexivity].
    destruct (silence_frames0 + 1 <=? 3); simpl;
      destruct (_ >=? _); simpl; try reflexivity;
      destruct (_ >=? _); simpl; try reflexivity;
      unfold _finalize_segment; simpl;
      repeat (case_match; simpl; try reflexivity).
Qed.

Lemma process_frames_buffer is_speech b frames : forall ap,
  process_frames is_speech frames (set_audio_buffer b ap)
  = (fst (process_frames is_speech frames ap),
     set_audio_buffer b (snd (process_frames is_speech frames ap))).
Proof.
  induction frames as [|f rest IH]; intros ap; [reflexivity|].
  cbn [process_frames]. rewrite process_frame_buffer.
  destruct (_process_frame is_speech ap f) as [seg ap1]. cbn [fst snd].
  rewrite IH.
  destruct (process_frames is_speech rest ap1) as [segs ap2]. reflexivity.
Qed.

Lemma process_frames_app is_speech xs ys : forall ap,
  process_frames is_speech (xs ++ ys) ap
  = (fst (process_frames is_speech xs ap)
     ++ fst (process_frames is_speech ys
               (snd (process_frames is_speech xs ap))),
     snd (process_frames is_speech ys
            (snd (process_frames is_speech xs ap)))).
Proof.
  induction xs as [|f rest IH]; intros ap.
  - simpl. destruct (process_frames is_speech ys ap). reflexivity.
  - cbn [app process_frames].
    destruct (_process_frame is_speech ap f) as [seg ap1].
    rewrite IH.
    destruct (process_frames is_speech rest ap1) as [segs ap2]. cbn [fst snd].
    destruct (process_frames is_speech ys ap2) as [segs' ap3]. cbn [fst snd].
    destruct seg; reflexivity.
Qed.

Lemma process_frames_frame_bytes is_speech frames : forall ap,
  frame_bytes (snd (process_frames is_speech frames ap)) = frame_bytes ap.
Proof.
  induction frames as [|f rest IH]; intros ap; [reflexivity|].
  cbn [process_frames].
  pose proof (process_frame_keeps is_speech ap f) as [Hfb _].
  destruct (_process_frame is_speech ap f) as [seg ap1].
  specialize (IH ap1).
  destruct (process_frames is_speech rest ap1) as [segs ap2].
  cbn [snd] in *. congruence.
Qed.

Lemma split_frames (n : nat) : (0 < n)%nat -> forall k (b : bytes),
  (length b < k)%nat ->
  exists frames tail, b = concat frames ++ tail /\ framed n frames tail.
Proof.
  intros Hn. induction k as [|k IH]; intros b Hk; [lia|].
  destruct (decide (length b < n)%nat) as [Hlt|Hge].
  - exists [], b. split; [reflexivity|]. split; [constructor | exact Hlt].
  - destruct (IH (drop n b)) as (frames & tail & Hb & Hf & Ht).
    { rewrite length_drop. lia. }
    exists (take n b :: frames), tail. split.
    + simpl. rewrite <- app_assoc, <- Hb. symmetry. apply take_drop.
    + split; [|exact Ht]. constructor; [|exact Hf].
      rewrite length_take. lia.
Qed.

(** The loop of [add_audio_chunk] hands the whole frames of the buffer to
    [_process_frame], first to last, and leaves the rest in the buffer. *)
Lemma drain_buffer_frames is_speech frames : forall fuel ap tail,
  0 < frame_bytes ap ->
  framed (Z.to_nat (frame_bytes ap)) frames tail ->
  audio_buffer ap = concat frames ++ tail ->
  (length frames <= fuel)%nat ->
  drain_buffer is_speech fuel ap
  = Some (fst (process_frames is_speech frames ap),
          set_audio_buffer tail (snd (process_frames is_speech frames ap))).
Proof.
  induction frames as [|f rest IH]; intros fuel ap tail Hpos [Hf Ht] Hb Hfuel.
  - simpl in Hb. assert (E : (Z.of_nat (length (audio_buffer ap))
                               >=? frame_bytes ap) = false).
    { rewrite Z.geb_leb. apply Z.leb_gt. rewrite Hb. lia. }
    destruct fuel; cbn [drain_buffer]; rewrite E; simpl; rewrite <- Hb;
      destruct ap; reflexivity.
  - inversion Hf as [|? ? Hlen Hrest]; subst.
    destruct fuel as [|fuel]; [simpl in Hfuel; lia|].
    cbn [drain_buffer].
    assert (E : (Z.of_nat (length (audio_buffer ap)) >=? frame_bytes ap)
                = true).
    { apply Z.geb_le. rewrite Hb. simpl. rewrite !length_app. lia. }
    rewrite E. rewrite Hb. simpl concat. rewrite <- app_assoc.
    rewrite <- Hlen. rewrite take_app_length, drop_app_length.
    rewrite process_frame_buffer.
    cbn [process_frames].
    pose proof (process_frame_keeps is_speech ap f) as [Hfb _].
    destruct (_process_frame is_speech ap f) as [seg ap1].
    cbn [fst snd] in *.
    rewrite (IH fuel (set_audio_buffer (concat rest ++ tail) ap1) tail).
    + rewrite process_frames_buffer.
      destruct (process_frames is_speech rest ap1) as [segs ap2].
      cbn [fst snd]. destruct ap2; reflexivity.
    + simpl. rewrite Hfb. exact Hpos.
    + simpl. rewrite Hfb. split; [exact Hrest | exact Ht].
    + reflexivity.
    + simpl in Hfuel. lia.
Qed.

Lemma concat_frames_length n (frames : list bytes) :
  Forall (fun f : bytes => length f = n) frames ->
  length (concat frames) = (length frames * n)%nat.
Proof.
  induction 1 as [|f rest Hl _ IH]; simpl; [lia|].
  rewrite length_app, IH, Hl. lia.
Qed.

Lemma framed_app n xs ys t :
  Forall (fun f : bytes => length f = n) xs -> framed n ys t ->
  framed n (xs ++ ys) t.
Proof.
  intros Hx [Hy Ht]. split; [apply Forall_app; split; assumption | exact Ht].
Qed.

Lemma framed_frames_bound n frames tail :
  (0 < n)%nat -> framed n frames tail ->
  (length frames <= length (concat frames ++ tail))%nat.
Proof.
  intros Hn [Hf _]. rewrite length_app.
  induction Hf as [|f rest Hlen _ IH]; simpl; [lia|].
  rewrite length_app. lia.
Qed.

(** [add_audio_chunk], with fuel for every byte, in terms of the frames
    it finds. *)
Lemma add_audio_chunk_frames is_speech ap chunk frames tail fuel :
  0 < frame_bytes ap ->
  framed (Z.to_nat (frame_bytes ap)) frames tail ->
  audio_buffer ap ++ chunk = concat frames ++ tail ->
  (length (audio_buffer ap) + length chunk <= fuel)%nat ->
  add_audio_chunk is_speech fuel chunk ap
  = Some (fst (process_frames is_speech frames ap),
          set_audio_buffer tail (snd (process_frames is_speech frames ap))).
Proof.
  intros Hpos Hfr Hb Hfuel. unfold add_audio_chunk.
  rewrite (drain_buffer_frames is_speech frames fuel _ tail);
    try assumption; try exact Hb.
  - rewrite process_frames_buffer. cbn [fst snd].
    destruct (snd (process_frames is_speech frames ap)); reflexivity.
  - assert (Hn : (0 < Z.to_nat (frame_bytes ap))%nat) by lia.
    pose proof (framed_frames_bound _ _ _ Hn Hfr) as H.
    rewrite <- Hb, length_app in H. lia.
Qed.

(** X1.  With a positive frame size, [add_audio_chunk] returns, and
    afterwards the byte buffer holds less than one frame: it is what
    remains of the old buffer followed by the chunk once a whole number of
    frames has been cut from the front. *)
Theorem add_audio_chunk_leaves_partial_frame is_speech ap chunk fuel :
  0 < frame_bytes ap ->
  (length (audio_buffer ap) + length chunk <= fuel)%nat ->
  exists segments ap' k,
    add_audio_chunk is_speech fuel chunk ap = Some (segments, ap')
    /\ Z.of_nat (length (audio_buffer ap')) < frame_bytes ap
    /\ audio_buffer ap'
       = drop (k * Z.to_nat (frame_bytes ap)) (audio_buffer ap ++ chunk)
    /\ (k * Z.to_nat (frame_bytes ap) <= length (audio_buffer ap ++ chunk))%nat
    /\ frame_bytes ap' = frame_bytes ap.
Proof.
  intros Hpos Hfuel.
  destruct (split_frames (Z.to_nat (frame_bytes ap)) ltac:(lia)
              (S (length (audio_buffer ap ++ chunk))) (audio_buffer ap ++ chunk))
    as (frames & tail & Hb & Hfr); [lia|].
  exists (fst (process_frames is_speech frames ap)),
         (set_audio_buffer tail (snd (process_frames is_speech frames ap))),
         (length frames).
  split; [apply add_audio_chunk_frames; assumption|].
  assert (Hlen : length (concat frames)
                 = (length frames * Z.to_nat (frame_bytes ap))%nat).
  { apply concat_frames_length, Hfr. }
  destruct Hfr as [Hf Ht]. simpl. repeat split.
  - lia.
  - rewrite Hb, <- Hlen. rewrite drop_app_length. reflexivity.
  - rewrite Hb, length_app. lia.
  - apply process_frames_frame_bytes.
Qed.

Lemma add_audio_chunk_leaves_partial_frame_witness :
  exists segments ap' k,
    add_audio_chunk scripted_vad 5 [x01; x00; x01] tiny = Some (segments, ap')
    /\ Z.of_nat (length (audio_buffer ap')) < frame_bytes tiny
    /\ audio_buffer ap'
       = drop (k * Z.to_nat (frame_bytes tiny))
           (audio_buffer tiny ++ [x01; x00; x01])
    /\ (k * Z.to_nat (frame_bytes tiny)
        <= length (audio_buffer tiny ++ [x01; x00; x01]))%nat
    /\ frame_bytes ap' = frame_bytes tiny.
Proof.
  apply (add_audio_chunk_leaves_partial_frame scripted_vad tiny
           [x01; x00; x01] 5); [reflexivity | simpl; lia].
Defined.

(** X2.  Where the chunk boundaries fall does not matter: handing over two
    chunks one after the other produces the segments and leaves the
    processor in the state that handing over their concatenation does. *)
Theorem add_audio_chunk_rechunk is_speech ap c1 c2 :
  0 < frame_bytes ap ->
  feed is_speech [c1; c2] ap = feed is_speech [c1 ++ c2] ap
  /\ is_Some (feed is_speech [c1 ++ c2] ap).
Proof.
  intros Hpos.
  set (n := Z.to_nat (frame_bytes ap)).
  assert (Hn : (0 < n)%nat) by (unfold n; lia).
  destruct (split_frames n Hn (S (length (audio_buffer ap ++ c1)))
              (audio_buffer ap ++ c1)) as (F1 & t1 & Hb1 & Hfr1); [lia|].
  destruct (split_frames n Hn (S (length (t1 ++ c2))) (t1 ++ c2))
    as (F2 & t2 & Hb2 & Hfr2); [lia|].
  set (ap1 := snd (process_frames is_speech F1 ap)).
  assert (Hfb1 : frame_bytes ap1 = frame_bytes ap)
    by apply process_frames_frame_bytes.
  assert (H1 : add_audio_chunk is_speech
                 (S (length (audio_buffer ap) + length c1)) c1 ap
               = Some (fst (process_frames is_speech F1 ap),
                       set_audio_buffer t1 ap1)).
  { apply add_audio_chunk_frames; try assumption. lia. }
  assert (H2 : add_audio_chunk is_speech
                 (S (length t1 + length c2)) c2 (set_audio_buffer t1 ap1)
               = Some (fst (process_frames is_speech F2 (set_audio_buffer t1 ap1)),
                       set_audio_buffer t2
                         (snd (process_frames is_speech F2
                                 (set_audio_buffer t1 ap1))))).
  { apply add_audio_chunk_frames; simpl; try assumption.
    - rewrite Hfb1. exact Hpos.
    - rewrite Hfb1. exact Hfr2.
    - lia. }
  assert (H12 : add_audio_chunk is_speech
                  (S (length (audio_buffer ap) + length (c1 ++ c2)))
                  (c1 ++ c2) ap
                = Some (fst (process_frames is_speech (F1 ++ F2) ap),
                        set_audio_buffer t2
                          (snd (process_frames is_speech (F1 ++ F2) ap)))).
  { apply add_audio_chunk_frames; try assumption.
    - apply framed_app; [apply Hfr1 | exact Hfr2].
    - rewrite app_assoc, Hb1, concat_app, <- !app_assoc, Hb2. reflexivity.
    - lia. }
  cbn [feed]. rewrite H1. cbn [audio_buffer set_audio_buffer].
  rewrite H2, H12. split; [|eauto].
  rewrite process_frames_app. fold ap1.
  rewrite process_frames_buffer. cbn [fst snd].
  rewrite !app_nil_r.
  destruct (snd (process_frames is_speech F2 ap1)); reflexivity.
Qed.

Lemma add_audio_chunk_rechunk_witness :
  feed scripted_vad [[x01; x00; x01]; [x00; x00; x00; x00]] tiny
  = feed scripted_vad [[x01; x00; x01] ++ [x00; x00; x00; x00]] tiny
  /\ is_Some (feed scripted_vad [[x01; x00; x01] ++ [x00; x00; x00; x00]] tiny).
Proof.
  apply (add_audio_chunk_rechunk scripted_vad tiny). reflexivity.
Defined.

(** Frames that are not speech leave an idle processor as it is. *)
Lemma process_frames_idle is_speech frames ap :
  speech_started ap = false ->
  (forall f, is_speech f (sample_rate ap) <> Return true) ->
  process_frames is_speech frames ap = ([], ap).
Proof.
  intros Hidle Hns. induction frames as [|f rest IH]; [reflexivity|].
  cbn [process_frames]. unfold _process_frame.
  destruct (is_speech f (sample_rate ap)) as [[|]|e] eqn:E.
  - exfalso. exact (Hns f E).
  - rewrite Hidle, IH. reflexivity.
  - rewrite IH. reflexivity.
Qed.

(** X3.  As long as the classifier never answers "speech", a processor
    with no utterance in progress emits no segment, whatever is fed to it,
    and only its byte buffer changes. *)
Theorem silence_emits_nothing is_speech chunks : forall ap,
  0 < frame_bytes ap ->
  speech_started ap = false ->
  (forall f, is_speech f (sample_rate ap) <> Return true) ->
  exists rest,
    feed is_speech chunks ap = Some ([], set_audio_buffer rest ap).
Proof.
  induction chunks as [|c chunks IH]; intros ap Hpos Hidle Hns.
  - exists (audio_buffer ap). destruct ap; reflexivity.
  - destruct (split_frames (Z.to_nat (frame_bytes ap)) ltac:(lia)
                (S (length (audio_buffer ap ++ c))) (audio_buffer ap ++ c))
      as (frames & tail & Hb & Hfr); [lia|].
    cbn [feed].
    rewrite (add_audio_chunk_frames is_speech ap c frames tail); auto.
    rewrite (process_frames_idle is_speech frames ap Hidle Hns).
    cbn [fst snd].
    destruct (IH (set_audio_buffer tail ap) Hpos Hidle Hns) as [rest Hrest].
    rewrite Hrest. exists rest. destruct ap; reflexivity.
Qed.

Lemma silence_emits_nothing_witness :
  exists rest,
    feed always_silence [[x01; x00; x01]; [x00; x00; x00; x00]] tiny
    = Some ([], set_audio_buffer rest tiny).
Proof.
  apply (silence_emits_nothing always_silence
           [[x01; x00; x01]; [x00; x00; x00; x00]] tiny);
    [reflexivity | reflexivity | discriminate].
Defined.

(** A run of speech frames is buffered whole. *)
Lemma process_frames_speech is_speech sp : forall ap,
  Forall (fun f => is_speech f (sample_rate ap) = Return true) sp ->
  sp <> [] ->
  process_frames is_speech sp ap
  = ([], speaking_with (speech_frames ap ++ sp) 0 ap).
Proof.
  induction sp as [|f rest IH]; intros ap Hsp Hne; [congruence|].
  inversion Hsp as [|? ? Hf Hrest]; subst.
  cbn [process_frames]. unfold _process_frame. rewrite Hf.
  destruct rest as [|g rest].
  - simpl. destruct ap; simpl. destruct speech_started0; reflexivity.
  - match goal with
    | |- context [process_frames _ _ ?a] =>
        assert (Hsr : sample_rate a = sample_rate ap)
          by (destruct ap; simpl; destruct speech_started0; reflexivity);
        assert (Hfs : speech_frames a = speech_frames ap ++ [f])
          by (destruct ap; simpl; destruct speech_started0; reflexivity);
        rewrite (IH a)
    end.
    + rewrite Hfs, <- app_assoc. simpl.
      destruct ap; simpl; destruct speech_started0; reflexivity.
    + rewrite Hsr. exact Hrest.
    + discriminate.
Qed.

(** One silent frame while an utterance is in progress. *)
Lemma process_frame_silence is_speech fs n ap f :
  is_speech f (sample_rate ap) = Return false ->
  _process_frame is_speech (speaking_with fs n ap) f
  = let fs' := if n + 1 <=? 3 then fs ++ [f] else fs in
    if n + 1 >=? silence_threshold_frames ap then
      if Z.of_nat (length fs') >=? min_speech_frames ap then
        match _finalize_segment (speaking_with fs' (n + 1) ap) with
        | Return segment => (Some segment, _reset_state ap)
        | Raise _ => (None, speaking_with fs' (n + 1) ap)
        end
      else (None, _reset_state ap)
    else (None, speaking_with fs' (n + 1) ap).
Proof.
  intros Hf. unfold _process_frame.
  replace (sample_rate (speaking_with fs n ap)) with (sample_rate ap)
    by (destruct ap; reflexivity).
  rewrite Hf. destruct ap; simpl.
  destruct (n + 1 <=? 3); simpl;
    destruct (n + 1 >=? silence_threshold_frames0); simpl; try reflexivity;
    destruct (_ >=? min_speech_frames0); simpl; try reflexivity;
    unfold speaking_with; simpl;
    destruct (_finalize_segment _); reflexivity.
Qed.

(** Silent frames short of the threshold: the first three of a silent run
    join the buffer, the others are only counted. *)
Lemma process_frames_silence is_speech si : forall fs n ap,
  Forall (fun f => is_speech f (sample_rate ap) = Return false) si ->
  0 <= n ->
  n + Z.of_nat (length si) < silence_threshold_frames ap ->
  process_frames is_speech si (speaking_with fs n ap)
  = ([], speaking_with (fs ++ take (Z.to_nat (3 - n)) si)
           (n + Z.of_nat (length si)) ap).
Proof.
  induction si as [|f rest IH]; intros fs n ap Hsi Hn Hlt.
  - simpl. rewrite take_nil, app_nil_r, Z.add_0_r. reflexivity.
  - inversion Hsi as [|? ? Hf Hrest]; subst.
    cbn [process_frames]. rewrite (process_frame_silence _ _ _ _ _ Hf).
    simpl length in Hlt. rewrite Nat2Z.inj_succ in Hlt. cbv zeta.
    assert (Hn1 : 0 <= n + 1) by lia.
    assert (Hlt1 : n + 1 + Z.of_nat (length rest)
                   < silence_threshold_frames ap) by lia.
    assert (E : (n + 1 >=? silence_threshold_frames ap) = false).
    { rewrite Z.geb_leb. apply Z.leb_gt. lia. }
    rewrite E.
    destruct (n + 1 <=? 3) eqn:E3.
    + apply Z.leb_le in E3.
      specialize (IH (fs ++ [f]) (n + 1) ap Hrest Hn1 Hlt1).
      rewrite IH. f_equal.
      replace (Z.to_nat (3 - n)) with (S (Z.to_nat (3 - (n + 1)))) by lia.
      simpl length. rewrite Nat2Z.inj_succ.
      simpl. rewrite <- app_assoc. simpl.
      f_equal. lia.
    + apply Z.leb_gt in E3.
      specialize (IH fs (n + 1) ap Hrest Hn1 Hlt1).
      rewrite IH.
      replace (Z.to_nat (3 - n)) with 0%nat by lia.
      replace (Z.to_nat (3 - (n + 1))) with 0%nat by lia.
      rewrite !take_0. simpl length. rewrite Nat2Z.inj_succ.
      f_equal. f_equal. lia.
Qed.


Lemma finalize_samples (ap : AudioProcessor) :
  speech_frames ap <> [] ->
  _finalize_segment ap
  = match samples_of (concat (speech_frames ap)) with
    | Some segment => Return segment
    | None => Raise "ValueError"
    end.
Proof.
  intros Hne. unfold _finalize_segment, samples_of.
  destruct (speech_frames ap) as [|f fs]; [congruence|].
  destruct (frombuffer_int16 (concat (f :: fs))); reflexivity.
Qed.

Lemma samples_of_even (b : bytes) (n : nat) :
  length b = (2 * n)%nat ->
  exists segment, samples_of b = Some segment /\ length segment = n.
Proof.
  intros Hb. destruct (frombuffer_int16_pairs n b Hb) as (l & Hl & Hn).
  exists (map (fun s => inject_Z s / 32768)%Q l). unfold samples_of.
  rewrite Hl. split; [reflexivity|]. rewrite length_map. exact Hn.
Qed.

(** X4.  An utterance followed by silence.  On an idle processor, a run of
    speech frames followed by exactly as many silent frames as the silence
    threshold counts ends the utterance at the last of them: the segment
    holds the speech frames and the first three silent frames at most, it
    is emitted when that makes at least [min_speech_frames] frames and
    dropped otherwise, and the processor is idle again. *)
Theorem utterance_ends_at_silence_threshold is_speech ap sp si fuel :
  0 < frame_bytes ap ->
  Nat.even (Z.to_nat (frame_bytes ap)) = true ->
  audio_buffer ap = [] -> speech_frames ap = [] -> speech_started ap = false ->
  Forall (fun f => length f = Z.to_nat (frame_bytes ap)
                   /\ is_speech f (sample_rate ap) = Return true) sp ->
  Forall (fun f => length f = Z.to_nat (frame_bytes ap)
                   /\ is_speech f (sample_rate ap) = Return false) si ->
  sp <> [] -> si <> [] ->
  Z.of_nat (length si) = silence_threshold_frames ap ->
  (length (concat (sp ++ si)) <= fuel)%nat ->
  exists segment,
    samples_of (concat (sp ++ take 3 si)) = Some segment
    /\ (2 * length segment
        = length (sp ++ take 3 si) * Z.to_nat (frame_bytes ap))%nat
    /\ add_audio_chunk is_speech fuel (concat (sp ++ si)) ap
       = Some (if Z.of_nat (length (sp ++ take 3 si)) >=? min_speech_frames ap
               then [segment] else [],
               _reset_state ap).
Proof.
  intros Hpos Hev Hbuf Hfs Hidle Hsp Hsi Hspne Hsine Hth Hfuel.
  set (n := Z.to_nat (frame_bytes ap)) in *.
  assert (Hlsp : Forall (fun f : bytes => length f = n) sp)
    by (eapply Forall_impl; [exact Hsp | intros f [H _]; exact H]).
  assert (Hlsi : Forall (fun f : bytes => length f = n) si)
    by (eapply Forall_impl; [exact Hsi | intros f [H _]; exact H]).
  assert (Hssp : Forall (fun f => is_speech f (sample_rate ap) = Return true) sp)
    by (eapply Forall_impl; [exact Hsp | intros f [_ H]; exact H]).
  assert (Hssi : Forall (fun f => is_speech f (sample_rate ap) = Return false) si)
    by (eapply Forall_impl; [exact Hsi | intros f [_ H]; exact H]).
  set (kept := sp ++ take 3 si).
  assert (Hlk : Forall (fun f : bytes => length f = n) kept).
  { apply Forall_app. split; [exact Hlsp | apply Forall_take; exact Hlsi]. }
  destruct (Nat.even_spec n) as [Heven _].
  destruct (Heven Hev) as [h Hh].
  destruct (samples_of_even (concat kept) (length kept * h)) as (segment & Hseg & Hlen).
  { rewrite (concat_frames_length n) by exact Hlk. lia. }
  exists segment. split; [exact Hseg|]. split; [lia|].
  rewrite (add_audio_chunk_frames is_speech ap _ (sp ++ si) []).
  2: exact Hpos.
  2: { split; [apply Forall_app; split; assumption | simpl; fold n; lia]. }
  2: { rewrite Hbuf, app_nil_r. reflexivity. }
  2: { rewrite Hbuf. simpl. lia. }
  destruct (exists_last Hsine) as (si0 & l & Hsi0). subst si.
  apply Forall_app in Hssi. destruct Hssi as [Hssi0 Hl].
  inversion Hl as [|? ? Hlast _]; subst.
  rewrite length_app in Hth. simpl in Hth.
  rewrite (process_frames_app is_speech sp (si0 ++ [l])).
  rewrite (process_frames_speech is_speech sp ap Hssp Hspne).
  rewrite Hfs. cbn [fst snd app].
  rewrite (process_frames_app is_speech si0 [l]).
  assert (Hsr : forall fs k, sample_rate (speaking_with fs k ap) = sample_rate ap)
    by (intros; destruct ap; reflexivity).
  assert (Hthr : forall fs k, silence_threshold_frames (speaking_with fs k ap)
                              = silence_threshold_frames ap)
    by (intros; destruct ap; reflexivity).
  assert (Hsw : forall a b c d,
             speaking_with a b (speaking_with c d ap) = speaking_with a b ap)
    by (intros; destruct ap; reflexivity).
  assert (Hrs : forall a b, _reset_state (speaking_with a b ap) = _reset_state ap)
    by (intros; destruct ap; reflexivity).
  rewrite (process_frames_silence is_speech si0 sp 0 ap Hssi0); [|lia|lia].
  cbn [fst snd app process_frames].
  rewrite (process_frame_silence is_speech _ _ ap l Hlast). cbv zeta.
  assert (E : (0 + Z.of_nat (length si0) + 1 >=? silence_threshold_frames ap)
              = true) by (apply Z.geb_le; lia).
  rewrite E.
  assert (Hkept : (if 0 + Z.of_nat (length si0) + 1 <=? 3
                   then (sp ++ take (Z.to_nat (3 - 0)) si0) ++ [l]
                   else sp ++ take (Z.to_nat (3 - 0)) si0) = kept).
  { unfold kept. change (Z.to_nat (3 - 0)) with 3%nat.
    destruct (_ <=? 3) eqn:E3.
    - apply Z.leb_le in E3.
      rewrite !take_ge by (rewrite ?length_app; simpl; lia).
      rewrite app_assoc. reflexivity.
    - apply Z.leb_gt in E3. rewrite take_app_le by lia. reflexivity. }
  rewrite Hkept.
  rewrite finalize_samples.
  2: { destruct ap; simpl. unfold kept. destruct sp; [congruence | discriminate]. }
  replace (speech_frames (speaking_with kept (0 + Z.of_nat (length si0) + 1) ap))
    with kept by (destruct ap; reflexivity).
  rewrite Hseg.
  replace (min_speech_frames ap) with (min_speech_frames ap) by reflexivity.
  destruct (Z.of_nat (length kept) >=? min_speech_frames ap);
    simpl; rewrite ?Hrs; destruct ap; simpl in *; subst; reflexivity.
Qed.

Lemma utterance_ends_at_silence_threshold_witness :
  exists segment,
    samples_of (concat ([speech_frame]
                        ++ take 3 [silence_frame; silence_frame]))
    = Some segment
    /\ (2 * length segment
        = length ([speech_frame] ++ take 3 [silence_frame; silence_frame])
          * Z.to_nat (frame_bytes tiny))%nat
    /\ add_audio_chunk scripted_vad 6
         (concat ([speech_frame] ++ [silence_frame; silence_frame])) tiny
       = Some (if Z.of_nat (length ([speech_frame]
                                    ++ take 3 [silence_frame; silence_frame]))
                  >=? min_speech_frames tiny
               then [segment] else [],
               _reset_state tiny).
Proof.
  apply (utterance_ends_at_silence_threshold scripted_vad tiny
           [speech_frame] [silence_frame; silence_frame] 6);
    try reflexivity; try discriminate;
    try (repeat constructor); simpl; lia.
Defined.

Lemma int16_le_range (lo hi : byte) :
  -32768 <= int16_le lo hi <= 32767.
Proof.
  unfold int16_le.
  pose proof (Byte.to_N_bounded lo). pose proof (Byte.to_N_bounded hi).
  destruct (_ <? 32768) eqn:E; [apply Z.ltb_lt in E | apply Z.ltb_ge in E]; lia.
Qed.

Lemma frombuffer_int16_range : forall (n : nat) (b : bytes) l,
  (length b <= n)%nat ->
  frombuffer_int16 b = Some l ->
  Forall (fun z => -32768 <= z <= 32767) l.
Proof.
  induction n as [|n IH]; intros b l Hn.
  - destruct b; [|simpl in Hn; lia]. intros H; inversion H. constructor.
  - destruct b as [|lo [|hi rest]]; simpl.
    + intros H; inversion H. constructor.
    + discriminate.
    + destruct (frombuffer_int16 rest) as [l'|] eqn:E; [|discriminate].
      intros H; inversion H; subst. constructor.
      * apply int16_le_range.
      * apply (IH rest); [simpl in Hn; lia | exact E].
Qed.

(** X5.  Every sample of a finished segment lies in [-1, 1). *)
Theorem segment_samples_in_range (ap : AudioProcessor) (segment : ndarray) :
  _finalize_segment ap = Return segment ->
  Forall (fun q => -1 <= q /\ q < 1)%Q segment.
Proof.
  unfold _finalize_segment.
  destruct (speech_frames ap) as [|f fs].
  - intros H; inversion H. constructor.
  - destruct (frombuffer_int16 (concat (f :: fs))) as [l|] eqn:E;
      [|discriminate].
    intros H; inversion H; subst.
    apply Forall_map.
    eapply Forall_impl; [exact (frombuffer_int16_range _ _ _ (le_n _) E)|].
    intros z Hz. simpl in Hz.
    split; unfold Qdiv, Qmult, Qinv, inject_Z, Qle, Qlt; simpl; lia.
Qed.

Lemma segment_samples_in_range_witness :
  _finalize_segment speaking
  = Return [ (inject_Z 1 / 32768)%Q; (inject_Z 1 / 32768)%Q ]
  /\ Forall (fun q => -1 <= q /\ q < 1)%Q
       [ (inject_Z 1 / 32768)%Q; (inject_Z 1 / 32768)%Q ].
Proof.
  split; [reflexivity|].
  apply (segment_samples_in_range speaking). reflexivity.
Defined.

(** The loop of [add_audio_chunk] cannot make progress on frames of no
    bytes. *)
Lemma drain_buffer_zero_frame is_speech : forall fuel ap,
  frame_bytes ap = 0 -> drain_buffer is_speech fuel ap = None.
Proof.
  induction fuel as [|fuel IH]; intros ap Hz; cbn [drain_buffer];
    rewrite Hz;
    replace (Z.of_nat (length (audio_buffer ap)) >=? 0) with true
      by (symmetry; apply Z.geb_le; lia);
    [reflexivity|].
  rewrite process_frame_buffer.
  pose proof (process_frame_keeps is_speech ap
                (take (Z.to_nat 0) (audio_buffer ap))) as [Hfb _].
  destruct (_process_frame is_speech ap (take (Z.to_nat 0) (audio_buffer ap)))
    as [seg ap1]. cbn [fst snd] in *.
  rewrite IH; [reflexivity|]. simpl. rewrite Hfb. exact Hz.
Qed.

(** X6.  A processor constructed with less than one sample per frame
    (sample rate times frame duration below 1000) has a frame size of
    zero, and [add_audio_chunk] never returns on it: the loop finds a
    whole frame in any buffer, the empty one included, and removes
    nothing. *)
Theorem zero_frame_size_never_returns is_speech sr fd vm st ms ap :
  init sr fd vm st ms = Return ap ->
  0 <= sr * fd < 1000 ->
  forall fuel chunk, add_audio_chunk is_speech fuel chunk ap = None.
Proof.
  intros Hinit Hsmall fuel chunk. unfold add_audio_chunk.
  apply drain_buffer_zero_frame. simpl.
  unfold init in Hinit. destruct (fd =? 0); [discriminate|].
  inversion Hinit; subst. simpl.
  rewrite Z.quot_small by lia. reflexivity.
Qed.

Lemma zero_frame_size_never_returns_witness :
  exists ap, init 30 30 3 500 800 = Return ap
             /\ forall fuel chunk,
                  add_audio_chunk scripted_vad fuel chunk ap = None.
Proof.
  eexists. split; [reflexivity|].
  apply (zero_frame_size_never_returns scripted_vad 30 30 3 500 800);
    [reflexivity | lia].
Defined.

(** X7.  [force_segment] leaves nothing behind: on a processor whose
    buffered frames hold whole samples it does not raise and empties the
    frame buffer, so that a second call right after it finds no frames;
    the second call returns [None] when the minimum is at least one frame
    and an empty segment when the minimum is zero or less. *)
Theorem force_segment_twice (ap : AudioProcessor) :
  consistent ap ->
  exists r,
    fst (force_segment ap) = Return r
    /\ speech_frames (snd (force_segment ap)) = []
    /\ force_segment (snd (force_segment ap))
       = (Return (if Z.of_nat 0 >=? min_speech_frames ap
                  then Some [] else None),
          snd (force_segment ap)).
Proof.
  intros Hc.
  assert (Hidle : forall a, speech_frames a = [] ->
            force_segment a
            = (Return (if Z.of_nat 0 >=? min_speech_frames a
                       then Some [] else None),
               if Z.of_nat 0 >=? min_speech_frames a
               then _reset_state a else a)).
  { intros a Ha. unfold force_segment, _finalize_segment. rewrite Ha. simpl.
    destruct (_ >=? min_speech_frames a); reflexivity. }
  destruct (force_segment_consistent ap Hc)
    as [(seg & H1 & _)|[H1 _]]; rewrite H1; cbn [fst snd].
  - exists (Some seg). split; [reflexivity|]. split; [reflexivity|].
    rewrite Hidle by reflexivity.
    replace (min_speech_frames (_reset_state ap)) with (min_speech_frames ap)
      by (destruct ap; reflexivity).
    destruct (Z.of_nat 0 >=? min_speech_frames ap); reflexivity.
  - exists None. split; [reflexivity|]. split; [reflexivity|].
    rewrite Hidle by reflexivity.
    replace (min_speech_frames (_reset_state ap)) with (min_speech_frames ap)
      by (destruct ap; reflexivity).
    destruct (Z.of_nat 0 >=? min_speech_frames ap); reflexivity.
Qed.

Lemma force_segment_twice_witness :
  exists r,
    fst (force_segment speaking) = Return r
    /\ speech_frames (snd (force_segment speaking)) = []
    /\ force_segment (snd (force_segment speaking))
       = (Return (if Z.of_nat 0 >=? min_speech_frames speaking
                  then Some [] else None),
          snd (force_segment speaking)).
Proof.
  apply (force_segment_twice speaking).
  split; [discriminate | repeat constructor].
Defined.

End SegmenterStreams.

(** * The synthesis loop: what is returned and how the stream can end *)
Section T2VStreams.
Import T2V.

Lemma format_tracks_initial : format_tracks [] initial.
Proof. reflexivity. Qed.

Lemma receive_audio_format calls st m calls' st' :
  format_tracks calls st ->
  receive_audio true st m = Some (calls', st') ->
  format_tracks (calls ++ calls') st'.
Proof.
  unfold format_tracks, receive_audio. intros Hf.
  destruct (audio m) as [h|].
  - destruct (decode_audio h) as [b|]; [|discriminate].
    intros H; inversion H; subst; clear H. simpl.
    rewrite last_snoc. reflexivity.
  - intros H; inversion H; subst. rewrite app_nil_r. exact Hf.
Qed.

Lemma finish_final cb st : Forall (fun c => is_final c = true) (finish cb st).
Proof.
  unfold finish, invoke.
  destruct (cb && (total_chunks st >? 0)) eqn:E;
    destruct (last_chunk_info st) as [[? ?]|]; destruct cb;
    repeat constructor.
Qed.

Lemma on_timeout_final cb st :
  Forall (fun c => is_final c = true) (on_timeout cb st).
Proof.
  unfold on_timeout. destruct (cb && _); repeat constructor.
Qed.

Lemma turn_continue_format calls st r calls' st' :
  format_tracks calls st ->
  turn true st r = (calls', st', Continue) ->
  format_tracks (calls ++ calls') st'.
Proof.
  intros Hf. unfold turn. destruct r as [m| |e]; try discriminate.
  destruct (receive_audio true st m) as [[c1 st1]|] eqn:E; [|discriminate].
  repeat case_bool_decide; try discriminate.
  intros Heq; inversion Heq; subst. eapply receive_audio_format; eauto.
Qed.

(** The calls of a whole run: the received chunks, forwarded in order,
    then the final calls, none unless the loop broke off. *)
Lemma receive_shape script : forall calls0 st calls st' ctl,
  tracks calls0 st -> format_tracks calls0 st ->
  receive true st script = (calls, st', ctl) ->
  exists forwarded finals,
    calls = forwarded ++ finals
    /\ tracks (calls0 ++ forwarded) st'
    /\ format_tracks (calls0 ++ forwarded) st'
    /\ Forall (fun c => is_final c = true) finals
    /\ (ctl <> Break -> finals = []).
Proof.
  induction script as [|r rest IH]; intros calls0 st calls st' ctl Ht Hf H;
    simpl in H.
  - inversion H; subst. exists [], [].
    split_and!; rewrite ?app_nil_r; auto.
  - destruct (turn true st r) as [[c1 st1] ctl1] eqn:E. destruct ctl1.
    + destruct (receive true st1 rest) as [[c3 st3] ctl3] eqn:E3.
      inversion H; subst.
      pose proof (turn_continue_tracks _ _ _ _ _ Ht E) as Ht2.
      pose proof (turn_continue_format _ _ _ _ _ Hf E) as Hf2.
      destruct (IH _ _ _ _ _ Ht2 Hf2 E3)
        as (fw & fin & -> & Ht3 & Hf3 & Hfin & Hnb).
      exists (c1 ++ fw), fin. rewrite <- !app_assoc in *.
      split_and!; auto.
    + inversion H; subst; clear H. unfold turn in E.
      destruct r as [m| |e].
      * destruct (receive_audio true st m) as [[c2 st2]|] eqn:Ea.
        -- pose proof (receive_audio_tracks _ _ _ _ _ Ht Ea) as Ht2.
           pose proof (receive_audio_format _ _ _ _ _ Hf Ea) as Hf2.
           repeat case_bool_decide; inversion E; subst; clear E.
           exists c2, (finish true st'). split_and!; auto.
           ++ apply finish_final.
           ++ congruence.
        -- inversion E; subst. exists [], [].
           split_and!; rewrite ?app_nil_r; auto.
      * inversion E; subst. exists [], (on_timeout true st').
        split_and!; rewrite ?app_nil_r; auto.
        -- apply on_timeout_final.
        -- congruence.
      * inversion E; subst. exists [], [].
        split_and!; rewrite ?app_nil_r; auto.
    + inversion H; subst; clear H. unfold turn in E.
      destruct r as [m| |e]; try discriminate.
      destruct (receive_audio true st m) as [[c2 st2]|] eqn:Ea;
        [|discriminate].
      pose proof (receive_audio_tracks _ _ _ _ _ Ht Ea) as Ht2.
      pose proof (receive_audio_format _ _ _ _ _ Hf Ea) as Hf2.
      repeat case_bool_decide; inversion E; subst; clear E.
      exists calls, []. split_and!; rewrite ?app_nil_r; auto.
Qed.






(** X10.  When [recv] times out while the loop is running, the stream is
    taken to be complete.  With a callback and at least one chunk received
    there is exactly one final call, and it re-sends the chunk received
    last, empty or not, with the current format; with no chunk received
    there is no final call at all and nothing is returned. *)
Theorem timeout_resends_last_chunk pre rest calls_pre st_pre :
  receive true initial pre = (calls_pre, st_pre, Continue) ->
  synthesize_text true true true (pre ++ TimedOut :: rest)
  = match last calls_pre with
    | Some c =>
        (calls_pre ++ [as_final c],
         Some (Return (Some {| audio_data := concat (map chunk_data calls_pre);
                               format := chunk_format c |})))
    | None => ([], Some (Return None))
    end.
Proof.
  intros Hpre.
  pose proof (receive_shape pre [] initial _ _ _ tracks_initial
                format_tracks_initial Hpre)
    as (fw & fin & Heq & Ht & Hf & _ & Hnb).
  rewrite (Hnb ltac:(discriminate)), app_nil_r in Heq. subst fw.
  simpl in Ht, Hf. destruct Ht as (Hmap & _ & Htot & _).
  unfold synthesize_text. simpl.
  rewrite (receive_app _ _ _ _ _ (TimedOut :: rest) Hpre). simpl.
  unfold on_timeout. simpl. rewrite Htot, <- Hmap, length_map.
  unfold format_tracks in Hf. rewrite Hf.
  destruct (last calls_pre) as [c|] eqn:El.
  - apply last_Some in El. destruct El as [l' ->].
    rewrite length_app. simpl.
    replace (Z.of_nat (length l' + 1) >? 0) with true
      by (symmetry; apply Z.gtb_lt; lia).
    rewrite map_app. simpl.
    replace (List.last (map chunk_data l' ++ [chunk_data c]) [])
      with (chunk_data c) by (symmetry; apply List.last_last).
    destruct (map chunk_data l' ++ [chunk_data c]) eqn:E.
    { apply app_eq_nil in E. destruct E; discriminate. }
    reflexivity.
  - apply last_None in El. subst. reflexivity.
Qed.

Lemma timeout_resends_last_chunk_witness :
  synthesize_text true true true
    ([Msg (chunk_message "0a"); Msg (chunk_message "")]
       ++ TimedOut :: [Msg finished_message])
  = match last [ {| chunk_data := [x0a]; is_final := false;
                    chunk_format := "mp3" |};
                 {| chunk_data := []; is_final := false;
                    chunk_format := "mp3" |} ] with
    | Some c =>
        ([ {| chunk_data := [x0a]; is_final := false; chunk_format := "mp3" |};
           {| chunk_data := []; is_final := false; chunk_format := "mp3" |} ]
           ++ [as_final c],
         Some (Return (Some {| audio_data :=
                                 concat (map chunk_data
                                   [ {| chunk_data := [x0a]; is_final := false;
                                        chunk_format := "mp3" |};
                                     {| chunk_data := []; is_final := false;
                                        chunk_format := "mp3" |} ]);
                               format := chunk_format c |})))
    | None => ([], Some (Return None))
    end.
Proof.
  apply (timeout_resends_last_chunk
           [Msg (chunk_message "0a"); Msg (chunk_message "")]
           [Msg finished_message]
           [ {| chunk_data := [x0a]; is_final := false; chunk_format := "mp3" |};
             {| chunk_data := []; is_final := false; chunk_format := "mp3" |} ]
           {| audio_chunks := [[x0a]; []]; audio_format := "mp3";
              total_chunks := 2; last_chunk_info := Some ([x0a], "mp3") |}).
  reflexivity.
Defined.

Lemma receive_audio_state st m :
  snd <$> receive_audio true st m = snd <$> receive_audio false st m.
Proof.
  unfold receive_audio. destruct (audio m) as [h|]; [|reflexivity].
  destruct (decode_audio h); reflexivity.
Qed.

Lemma receive_state script : forall st,
  (snd (fst (receive true st script)), snd (receive true st script))
  = (snd (fst (receive false st script)), snd (receive false st script))
  /\ fst (fst (receive false st script)) = [].
Proof.
  induction script as [|r rest IH]; intros st; [split; reflexivity|].
  cbn [receive]. unfold turn.
  destruct r as [m| |e]; [|split; reflexivity ..].
  pose proof (receive_audio_state st m) as Hs.
  assert (Hno : forall c s, receive_audio false st m = Some (c, s) -> c = []).
  { unfold receive_audio. intros c s. destruct (audio m) as [h|].
    - destruct (decode_audio h); [|discriminate].
      intros H; inversion H; reflexivity.
    - intros H; inversion H; reflexivity. }
  destruct (receive_audio true st m) as [[c1 s1]|];
    destruct (receive_audio false st m) as [[c2 s2]|] eqn:E2;
    simpl in Hs; try discriminate; [|split; reflexivity].
  inversion Hs; subst. rewrite (Hno _ _ eq_refl).
  repeat case_bool_decide; try (split; reflexivity).
  specialize (IH s2).
  destruct (receive true s2 rest) as [[c3 s3] ctl3].
  destruct (receive false s2 rest) as [[c4 s4] ctl4].
  simpl in *. destruct IH as [IH1 IH2]. inversion IH1; subst.
  split; reflexivity.
Qed.

(** X11.  The callback is an observer: what [synthesize_text] returns
    does not depend on whether a callback was passed, and without one no
    call is made. *)
Theorem callback_does_not_change_result connected sent script :
  snd (synthesize_text connected sent true script)
  = snd (synthesize_text connected sent false script)
  /\ fst (synthesize_text connected sent false script) = [].
Proof.
  unfold synthesize_text.
  destruct connected; [|split; reflexivity].
  destruct sent; [|split; reflexivity]. simpl.
  destruct (receive_state script initial) as [H1 H2].
  destruct (receive true initial script) as [[c1 s1] ctl1].
  destruct (receive false initial script) as [[c2 s2] ctl2].
  simpl in *. inversion H1; subst.
  destruct ctl2; split; reflexivity.
Qed.

End T2VStreams.

(** * The translation client on whole streams *)
Section MiniMaxStreams.
Import PyStr MiniMax.

Lemma read_stream_flowing (pre : list StreamLine) : forall rest acc,
  Forall flowing pre ->
  read_stream (pre ++ rest) acc
  = read_stream rest (acc ++ joined_content pre).
Proof.
  induction pre as [|l pre IH]; intros rest acc Hfl.
  - simpl. rewrite app_nil_r. reflexivity.
  - inversion Hfl as [|? ? Hl Hpre]; subst.
    destruct l as [| | |[c|]|e]; simpl in Hl; try contradiction;
      cbn [app read_stream]; try (rewrite IH by exact Hpre; reflexivity).
    rewrite Hl. rewrite IH by exact Hpre.
    unfold joined_content. cbn [map concat]. fold (joined_content pre).
    destruct (content c); simpl; rewrite ?app_nil_r, <- ?app_assoc;
      reflexivity.
Qed.

(** X12.  The translation is what the stream carries up to its end or up
    to the line with [finish_reason] ["stop"], that line included: the
    content pieces joined in order and stripped.  Blank lines, lines
    without the data prefix and lines that are not JSON add nothing, and
    whatever follows the stop line is never read.  When the joined text
    is empty or blank, the input text is returned in its place. *)
Theorem translation_joins_content text tl hw style body pre tail :
  Forall flowing pre ->
  tail = [] \/ (exists l rest, tail = l :: rest /\ stopping l) ->
  _translate_sync text tl hw style (Response 200 body (pre ++ tail))
  = Return (if truthy (strip (joined_content (pre ++ take 1 tail)))
            then strip (joined_content (pre ++ take 1 tail))
            else text).
Proof.
  intros Hfl Htail. unfold _translate_sync. simpl.
  rewrite (read_stream_flowing pre tail [] Hfl). simpl.
  assert (H : read_stream tail (joined_content pre)
              = inr (joined_content (pre ++ take 1 tail))).
  { destruct Htail as [->|(l & rest & -> & Hl)].
    - simpl. rewrite app_nil_r. reflexivity.
    - destruct l as [| | |[c|]|e]; simpl in Hl; try contradiction.
      simpl. rewrite Hl. unfold joined_content.
      rewrite map_app, concat_app. simpl. rewrite app_nil_r.
      destruct (content c); simpl; rewrite ?app_nil_r; reflexivity. }
  rewrite H.
  destruct (truthy (strip (joined_content (pre ++ take 1 tail))));
    reflexivity.
Qed.

Lemma translation_joins_content_witness :
  let pre := [Blank; Data (Some {| content := lit " bon";
                                   finish_stop := false |}); BadJson] in
  let tail := [Data (Some {| content := lit "jour "; finish_stop := true |});
               Broken ReqTimeout] in
  _translate_sync Queue.hello "French" [] "default"
    (Response 200 "ok" (pre ++ tail))
  = Return (if truthy (strip (joined_content (pre ++ take 1 tail)))
            then strip (joined_content (pre ++ take 1 tail))
            else Queue.hello)
  /\ strip (joined_content (pre ++ take 1 tail)) = Queue.bonjour.
Proof.
  split; [|reflexivity].
  apply (translation_joins_content Queue.hello "French" [] "default" "ok").
  - repeat constructor.
  - right. eexists _, _. split; reflexivity.
Defined.

(** X13.  A failure while the stream is being read discards what was
    received: if reading raises before the stop line, the call raises,
    with the message of the handler for that exception, however much
    content had arrived. *)
Theorem stream_failure_discards_content text tl hw style body pre e rest :
  Forall flowing pre ->
  _translate_sync text tl hw style
    (Response 200 body (pre ++ Broken e :: rest))
  = Raise match e with
          | ReqTimeout => "Translation timeout"
          | ReqConnectionError ce => "Network error: " +:+ ce
          | ReqOther e => "Translation API error: " +:+ e
          end.
Proof.
  intros Hfl. unfold _translate_sync. simpl.
  rewrite (read_stream_flowing pre _ [] Hfl). simpl.
  destruct e; reflexivity.
Qed.

Lemma stream_failure_discards_content_witness :
  _translate_sync Queue.hello "French" [] "default"
    (Response 200 "ok"
       ([Data (Some {| content := Queue.bonjour; finish_stop := false |})]
          ++ Broken ReqTimeout :: []))
  = Raise match ReqTimeout with
          | ReqTimeout => "Translation timeout"
          | ReqConnectionError ce => "Network error: " +:+ ce
          | ReqOther e => "Translation API error: " +:+ e
          end.
Proof.
  apply (stream_failure_discards_content Queue.hello "French" [] "default"
           "ok"
           [Data (Some {| content := Queue.bonjour; finish_stop := false |})]).
  repeat constructor.
Defined.

(** X14.  With this translator behind it, the probe of
    [_validate_api_clients] fails only when the translator raises: an
    answer without content comes back as the probe text ["test"] itself,
    which passes the emptiness test, so the "empty result" branch is never
    taken. *)
Theorem validation_fails_only_on_exception (http : Http) :
  Queue._validate_api_clients
    (translate_text (lit "test") "English" [] "default" http)
  = match translate_text (lit "test") "English" [] "default" http with
    | Return _ => true
    | Raise _ => false
    end.
Proof.
  destruct (translate_text (lit "test") "English" [] "default" http)
    as [r|e] eqn:E; [|reflexivity].
  simpl. destruct (translate_text_returns _ _ _ _ _ _ E) as [->|[t [-> Ht]]].
  - reflexivity.
  - rewrite (stripped_not_empty t Ht). reflexivity.
Qed.

End MiniMaxStreams.

(** * What the bookkeeping gives *)
Section QueueBookkeeping.
Import PyStr Queue.

Lemma value_pending st : value st = "pending" -> st = PENDING.
Proof. destruct st; simpl; intros H; try discriminate H; reflexivity. Qed.

(** Where a task is looked up by [get_task_status]. *)
Lemma get_task_status_Some i s snap :
  get_task_status i s = Some snap ->
  (i ∈ active_tasks s \/ i ∈ completed_tasks s)
  /\ exists task, tasks s !! i = Some task /\ snap = snapshot task.
Proof.
  unfold get_task_status. repeat case_bool_decide; try discriminate;
    (destruct (tasks s !! i) as [task|]; [|discriminate]);
    intros Heq; inversion Heq; subst; eauto.
Qed.

Lemma tracked_started s i :
  wf s -> tracked s -> i ∈ active_tasks s \/ i ∈ completed_tasks s ->
  exists task, tasks s !! i = Some task /\ is_Some (started_at task).
Proof.
  intros Hwf (Hh & Hk & _) [Hin|Hin].
  - apply Hh in Hin. destruct Hin as (w & pc & Hw & Hp).
    eapply wf_held; eauto.
  - apply Hk. exact Hin.
Qed.

Lemma tracked_waiting s i :
  wf s -> tracked s -> i ∈ waiting s ->
  (i ∉ active_tasks s) /\ (i ∉ completed_tasks s).
Proof.
  intros Hwf Htr Hq.
  destruct (wf_queued _ _ _ _ _ Hwf _ Hq) as (task & Htask & Hp).
  destruct (wf_tasks _ _ _ _ _ Hwf _ _ Htask) as (_ & _ & _ & _ & _ & H5).
  destruct (H5 Hp) as [Hs _].
  assert (Hno : ~ (i ∈ active_tasks s \/ i ∈ completed_tasks s)).
  { intros Hin. destruct (tracked_started s i Hwf Htr Hin)
      as (task' & Htask' & [a Ha]). congruence. }
  split; intros Hin; apply Hno; auto.
Qed.

Lemma tracked_pending s i :
  wf s -> tracked s -> i ∈ pending_queue s ->
  (i ∉ active_tasks s) /\ (i ∉ completed_tasks s).
Proof.
  intros Hwf Htr Hq. apply tracked_waiting; auto.
  unfold waiting. apply elem_of_app. left. exact Hq.
Qed.

(** X16.  [get_task_status] knows a task only once a worker has taken
    it.  In every state reached from a fresh queue, a task waiting in the
    pending queue is reported as not found; and a snapshot that is
    returned is the one of the task asked for, never has status
    ["pending"], has [started_at] set, and its duration, when there is
    one, is [completed_at - started_at] and not negative. *)
Theorem status_known_once_started mc dt now tc ac acc ec actions s i :
  run actions (configured mc dt now tc ac acc ec) = Some s ->
  (i ∈ pending_queue s -> get_task_status i s = None)
  /\ (forall snap, get_task_status i s = Some snap ->
        snap_id snap = i
        /\ snap_status snap <> "pending"
        /\ is_Some (snap_started_at snap)
        /\ forall d, snap_duration snap = Some d ->
             (0 <= d)%Q
             /\ exists a c, snap_started_at snap = Some a
                            /\ snap_completed_at snap = Some c
                            /\ d = (c - a)%Q).
Proof.
  intros Hrun. destruct (tracked_run _ _ _ _ _ _ _ _ _ Hrun) as [Hwf Htr].
  split.
  - intros Hq. destruct (tracked_pending s i Hwf Htr Hq) as [Ha Hc].
    unfold get_task_status.
    rewrite !bool_decide_eq_false_2 by assumption. reflexivity.
  - intros snap Hsnap.
    destruct (get_task_status_Some _ _ _ Hsnap) as (Hin & task & Htask & ->).
    destruct (tracked_started s i Hwf Htr Hin) as (task' & Htask' & Hst).
    assert (task' = task) by congruence. subst task'.
    destruct (wf_tasks _ _ _ _ _ Hwf _ _ Htask)
      as (_ & _ & H2 & H3 & _ & H5).
    destruct Htr as (_ & [_ Hid] & _).
    split; [apply Hid; exact Htask|].
    split; [|split; [exact Hst|]].
    + simpl. intros Hv. apply value_pending in Hv.
      destruct (H5 Hv) as [Hnone _]. destruct Hst as [a Ha]. congruence.
    + simpl. intros d.
      destruct (started_at task) as [a|] eqn:Ea; [|discriminate].
      destruct (completed_at task) as [c|] eqn:Ec; [|discriminate].
      destruct (negb (Qeq_bool a 0) && negb (Qeq_bool c 0)); [|discriminate].
      intros Hd. inversion Hd; subst.
      destruct (H3 _ eq_refl) as (a' & Ha' & Hle & _).
      inversion Ha'; subst. split; [lra | eauto].
Qed.

Lemma status_known_once_started_witness :
  exists s,
    run (take 2 success_run) (configured 3 45 1000 true false true true)
    = Some s
    /\ (0%nat ∈ pending_queue s -> get_task_status 0 s = None)
    /\ 0%nat ∈ pending_queue s.
Proof.
  destruct (run (take 2 success_run)
              (configured 3 45 1000 true false true true))
    as [s|] eqn:E; [|vm_compute in E; discriminate E].
  exists s. split; [reflexivity|]. split.
  - apply (status_known_once_started 3 45 1000 true false true true
             (take 2 success_run) s 0%nat E).
  - assert (H : pending_queue <$> Some s = Some [0%nat]).
    { rewrite <- E. vm_compute. reflexivity. }
    inversion H as [Hq]. rewrite Hq. left.
Defined.

Lemma mark_mark st e st' e' task :
  mark st e (mark st' e' task) = mark st e task.
Proof. destruct task; reflexivity. Qed.

Lemma mark_each_lookup e ids : forall (m : gmap nat TranslationTask) i,
  mark_each e ids m !! i
  = if decide (i ∈ ids) then mark FAILED e <$> m !! i else m !! i.
Proof.
  induction ids as [|t ids IH]; intros m i; simpl.
  - destruct (decide (i ∈ [])) as [H|_]; [inversion H | reflexivity].
  - rewrite IH. destruct (decide (t = i)) as [->|Hne].
    + rewrite lookup_alter_eq.
      destruct (decide (i ∈ i :: ids)) as [_|Hn]; [|exfalso; apply Hn; left].
      destruct (decide (i ∈ ids)); [|reflexivity].
      destruct (m !! i); simpl; [rewrite mark_mark|]; reflexivity.
    + rewrite lookup_alter_ne by exact Hne.
      destruct (decide (i ∈ ids)) as [Hin|Hnin];
        destruct (decide (i ∈ t :: ids)) as [Hin'|Hnin']; try reflexivity.
      * exfalso. apply Hnin'. right. exact Hin.
      * exfalso. apply elem_of_cons in Hin'. destruct Hin'; congruence.
Qed.

(** X17.  [clear_pending_tasks] marks and forgets, it does not stop
    anything.  Every task that was pending becomes FAILED with "Task
    cleared by user" and every active task FAILED with "Task cancelled by
    user"; the pending queue and the retained set are emptied; but the
    workers and the active set are left as they are, no callback is
    invoked, and no other task object is touched. *)
Theorem clear_pending_tasks_marks_and_forgets s :
  pending_queue (clear_pending_tasks s) = []
  /\ completed_tasks (clear_pending_tasks s) = ∅
  /\ active_tasks (clear_pending_tasks s) = active_tasks s
  /\ workers (clear_pending_tasks s) = workers s
  /\ log (clear_pending_tasks s) = log s
  /\ forall i,
       tasks (clear_pending_tasks s) !! i
       = if decide (i ∈ active_tasks s)
         then mark FAILED "Task cancelled by user" <$> tasks s !! i
         else if decide (i ∈ pending_queue s)
              then mark FAILED "Task cleared by user" <$> tasks s !! i
              else tasks s !! i.
Proof.
  unfold clear_pending_tasks. simpl. repeat split.
  intros i. rewrite !mark_each_lookup.
  destruct (decide (i ∈ elements (active_tasks s))) as [Hin|Hnin];
    destruct (decide (i ∈ active_tasks s)) as [Hin'|Hnin'].
  - destruct (decide (i ∈ pending_queue s)); [|reflexivity].
    destruct (tasks s !! i); simpl; [rewrite mark_mark|]; reflexivity.
  - exfalso. apply Hnin', elem_of_elements. exact Hin.
  - exfalso. apply Hnin, elem_of_elements. exact Hin'.
  - reflexivity.
Qed.

(** What [add_task] leaves alone. *)
Lemma add_task_frame text tl hw style timeout s :
  active_tasks (snd (add_task text tl hw style timeout s)) = active_tasks s
  /\ workers (snd (add_task text tl hw style timeout s)) = workers s
  /\ log (snd (add_task text tl hw style timeout s)) = log s
  /\ (forall j, j <> fresh s ->
        (j ∈ completed_tasks (snd (add_task text tl hw style timeout s))
         <-> j ∈ completed_tasks s /\ old s j = false))
  /\ (forall j, j <> fresh s -> j ∉ pending_queue s ->
        tasks (snd (add_task text tl hw style timeout s)) !! j
        = tasks s !! j).
Proof.
  assert (Hold : forall j, j <> fresh s ->
            old (set_fresh (S (fresh s))
                   (set_tasks (<[fresh s := new_task text tl hw style timeout s]>
                                 (tasks s)) s)) j
            = old s j).
  { intros j Hj. unfold old. simpl. rewrite lookup_insert_ne by auto.
    reflexivity. }
  unfold add_task. simpl.
  destruct (_ >=? _); simpl;
    (split; [reflexivity|]); (split; [reflexivity|]); (split; [reflexivity|]);
    (split; [intros j Hj; rewrite elem_of_filter, (Hold j Hj); tauto|]);
    intros j Hj Hq; rewrite lookup_insert_ne; auto.
Qed.

(** X19.  [add_task] forgets by age of creation.  In a state reached from
    a fresh queue, a task that [get_task_status] reports is reported in
    the same way after an [add_task] if it is active or was created at
    most 300 seconds ago, and is not found any more otherwise, however
    recently it finished. *)
Theorem add_task_forgets_by_creation_age mc dt now tc ac acc ec actions s
    text tl hw style timeout i snap :
  run actions (configured mc dt now tc ac acc ec) = Some s ->
  get_task_status i s = Some snap ->
  get_task_status i (snd (add_task text tl hw style timeout s))
  = if decide (i ∈ active_tasks s) then Some snap
    else if Qle_bool (clock s - snap_created_at snap) 300 then Some snap
         else None.
Proof.
  intros Hrun Hsnap.
  destruct (tracked_run _ _ _ _ _ _ _ _ _ Hrun) as [Hwf Htr].
  destruct (get_task_status_Some _ _ _ Hsnap) as (Hin & task & Htask & ->).
  assert (Hne : i <> fresh s).
  { destruct (wf_tasks _ _ _ _ _ Hwf _ _ Htask). lia. }
  assert (Hnq : i ∉ pending_queue s).
  { intros Hq. destruct (tracked_pending s i Hwf Htr Hq). tauto. }
  destruct (add_task_frame text tl hw style timeout s)
    as (Ha & _ & _ & Hc & Hm).
  unfold get_task_status. rewrite Ha, (Hm i Hne Hnq), Htask. simpl.
  destruct (decide (i ∈ active_tasks s)) as [Hact|Hact].
  - rewrite bool_decide_eq_true_2 by exact Hact. reflexivity.
  - rewrite bool_decide_eq_false_2 by exact Hact.
    destruct Hin as [Hin|Hin]; [contradiction|].
    assert (Hold : old s i = negb (Qle_bool (clock s - created_at task) 300)).
    { unfold old. rewrite Htask. reflexivity. }
    destruct (Qle_bool (clock s - created_at task) 300).
    + rewrite bool_decide_eq_true_2; [reflexivity|].
      apply Hc; auto.
    + rewrite bool_decide_eq_false_2; [reflexivity|].
      intros H. apply Hc in H; [|exact Hne]. destruct H as [_ H].
      rewrite Hold in H. discriminate.
Qed.

Lemma add_task_forgets_by_creation_age_witness :
  exists s snap,
    run (success_run ++ [Tick 300])
      (configured 3 45 1000 true false true true) = Some s
    /\ get_task_status 0 s = Some snap
    /\ snap_status snap = "completed"
    /\ get_task_status 0 (snd (add_task hello "French" [] "default" None s))
       = None.
Proof.
  destruct (run (success_run ++ [Tick 300])
              (configured 3 45 1000 true false true true))
    as [s|] eqn:E; [|vm_compute in E; discriminate E].
  assert (H : (fun s => ((fun x => (snap_status x, snap_created_at x))
                           <$> get_task_status 0 s,
                         bool_decide (0%nat ∈ active_tasks s), clock s))
                <$> Some s
              = Some (Some ("completed", 1000%Q), false, 1304%Q)).
  { rewrite <- E. vm_compute. reflexivity. }
  simpl in H.
  destruct (get_task_status 0 s) as [snap|] eqn:Es; [|discriminate H].
  simpl in H. injection H as H1 H2 H3 H4.
  exists s, snap. split; [reflexivity|]. split; [exact Es|].
  split; [exact H1|].
  rewrite (add_task_forgets_by_creation_age 3 45 1000 true false true true
             (success_run ++ [Tick 300]) s hello "French" [] "default" None
             0%nat snap E Es).
  apply bool_decide_eq_false_1 in H3.
  rewrite decide_False by exact H3.
  rewrite H2, H4. reflexivity.
Defined.

(** X20.  A task found stale on dequeue vanishes in silence.  In a
    state reached from a fresh queue, when a polling worker takes from the
    queue a task whose age exceeds its timeout, the task is marked TIMEOUT
    with "Task timeout before processing" and dropped: it never becomes
    active, no callback is invoked, the worker goes on polling, and
    [get_task_status] does not find it. *)
Theorem stale_task_dropped_in_silence mc dt now tc ac acc ec actions s
    w t rest task :
  run actions (configured mc dt now tc ac acc ec) = Some s ->
  workers s !! w = Some Polling ->
  pending_queue s = t :: rest ->
  tasks s !! t = Some task ->
  (timeout_seconds task < clock s - created_at task)%Q ->
  exists s',
    step (WorkerGets w) s = Some s'
    /\ tasks s' !! t
       = Some (mark TIMEOUT "Task timeout before processing" task)
    /\ get_task_status t s' = None
    /\ log s' = log s
    /\ workers s' = workers s
    /\ active_tasks s' = active_tasks s
    /\ pending_queue s' = rest.
Proof.
  intros Hrun Hw Hq Htask Hstale.
  destruct (tracked_run _ _ _ _ _ _ _ _ _ Hrun) as [Hwf Htr].
  destruct (tracked_pending s t Hwf Htr) as [Ha Hc]; [rewrite Hq; left|].
  assert (Hgt : Qgt_bool (clock s - created_at task) (timeout_seconds task)
                = true).
  { unfold Qgt_bool. destruct (Qle_bool _ _) eqn:E; [|reflexivity].
    apply Qle_bool_iff in E. lra. }
  eexists. simpl. unfold worker_gets. rewrite Hw, Hq, Htask. simpl.
  rewrite Hgt. split; [reflexivity|]. simpl.
  split; [rewrite lookup_alter_eq, Htask; reflexivity|].
  split; [|repeat split].
  unfold get_task_status. simpl.
  rewrite !bool_decide_eq_false_2 by assumption. reflexivity.
Qed.

Lemma stale_task_dropped_in_silence_witness :
  exists s s' task,
    run (take 3 stale_run) (configured 3 45 1000 true false true true)
    = Some s
    /\ tasks s !! 0%nat = Some task
    /\ step (WorkerGets 0) s = Some s'
    /\ tasks s' !! 0%nat
       = Some (mark TIMEOUT "Task timeout before processing" task)
    /\ get_task_status 0 s' = None
    /\ log s' = log s.
Proof.
  destruct (run (take 3 stale_run)
              (configured 3 45 1000 true false true true))
    as [s|] eqn:E; [|vm_compute in E; discriminate E].
  assert (H : (fun s => (workers s !! 0%nat, pending_queue s,
                         (fun x => (timeout_seconds x, created_at x))
                           <$> tasks s !! 0%nat, clock s)) <$> Some s
              = Some (Some Polling, [0%nat], Some (45%Q, 1000%Q), 1046%Q)).
  { rewrite <- E. vm_compute. reflexivity. }
  simpl in H.
  destruct (tasks s !! 0%nat) as [task|] eqn:Et; [|discriminate H].
  simpl in H. injection H as Hw Hq Hto Hcr Hcl.
  destruct (stale_task_dropped_in_silence 3 45 1000 true false true true
              (take 3 stale_run) s 0%nat 0%nat [] task E Hw Hq Et)
    as (s' & H1 & H2 & H3 & H4 & _).
  { rewrite Hto, Hcr, Hcl. reflexivity. }
  exists s, s', task. repeat split; assumption.
Defined.

(** X21.  A task evicted on overflow vanishes in silence.  In a state
    reached from a fresh queue, a task that the [get] of a suspended call
    of [add_task] has taken from the queue is PENDING and unknown to
    [get_task_status]; when the call is resumed it marks that task FAILED
    with the error "Queue overflow", puts the new task last in the queue
    and returns its id: no callback is invoked, the active and the retained
    tasks are as before, and [get_task_status] still does not find the
    evicted task. *)
Theorem evicted_task_dropped_in_silence mc dt now tc ac acc ec actions s
    a t oldest :
  run actions (configured mc dt now tc ac acc ec) = Some s ->
  adders s !! a = Some (Evicted t oldest) ->
  exists s',
    eviction_ends a s = Some (t, s')
    /\ status_of oldest s = Some PENDING
    /\ get_task_status oldest s = None
    /\ status_of oldest s' = Some FAILED
    /\ error <$> tasks s' !! oldest = Some (Some (Message "Queue overflow"))
    /\ get_task_status oldest s' = None
    /\ log s' = log s
    /\ active_tasks s' = active_tasks s
    /\ completed_tasks s' = completed_tasks s
    /\ pending_queue s' = pending_queue s ++ [t].
Proof.
  intros Hrun Ha.
  destruct (tracked_run _ _ _ _ _ _ _ _ _ Hrun) as [Hwf Htr].
  assert (Hin : oldest ∈ waiting s).
  { unfold waiting. apply elem_of_app. right.
    eapply in_hand_claimed; [exact Ha|]. right. left. }
  destruct (tracked_waiting s oldest Hwf Htr Hin) as [Hna Hnc].
  destruct (wf_queued _ _ _ _ _ Hwf _ Hin) as (task & Htask & Hp).
  assert (Hnone : forall x, active_tasks x = active_tasks s ->
                    completed_tasks x = completed_tasks s ->
                    get_task_status oldest x = None).
  { intros x Hxa Hxc. unfold get_task_status. rewrite Hxa, Hxc.
    rewrite bool_decide_eq_false_2 by exact Hna.
    rewrite bool_decide_eq_false_2 by exact Hnc. reflexivity. }
  unfold eviction_ends. rewrite Ha. eexists. split; [reflexivity|].
  unfold status_of. simpl. rewrite lookup_alter_eq, Htask. simpl. rewrite Hp.
  split; [reflexivity|]. split; [apply Hnone; reflexivity|].
  split; [reflexivity|]. split; [reflexivity|].
  split; [apply Hnone; reflexivity|]. repeat split; reflexivity.
Qed.

Lemma evicted_task_dropped_in_silence_witness :
  exists s s',
    run (take 3 overflow_run) (configured 1 45 1000 true false true true)
    = Some s
    /\ eviction_ends 0 s = Some (1%nat, s')
    /\ status_of 0 s' = Some FAILED
    /\ get_task_status 0 s' = None
    /\ log s' = log s.
Proof.
  destruct (run (take 3 overflow_run)
              (configured 1 45 1000 true false true true))
    as [s|] eqn:E; [|vm_compute in E; discriminate E].
  assert (Ha : adders <$> Some s = Some [Evicted 1 0])
    by (rewrite <- E; vm_compute; reflexivity).
  injection Ha as Ha.
  assert (Ha0 : adders s !! 0%nat = Some (Evicted 1 0))
    by (rewrite Ha; reflexivity).
  destruct (evicted_task_dropped_in_silence 1 45 1000 true false true true
              (take 3 overflow_run) s 0%nat 1%nat 0%nat E Ha0)
    as (s' & H1 & _ & _ & H4 & _ & H6 & H7 & _).
  exists s, s'. repeat split; assumption.
Defined.

Lemma release_active (A C : gset nat) (i t : nat) :
  i ∈ A -> i ∈ A ∖ {[t]} \/ i ∈ {[t]} ∪ C.
Proof.
  intros Hin. destruct (decide (i = t)) as [->|Hne].
  - right. apply elem_of_union. left. apply elem_of_singleton. reflexivity.
  - left. apply elem_of_difference. split; [exact Hin|].
    rewrite elem_of_singleton. exact Hne.
Qed.

Lemma on_exception_active w t e s i :
  i ∈ active_tasks s ->
  i ∈ active_tasks (on_exception w t e s)
  \/ i ∈ completed_tasks (on_exception w t e s).
Proof.
  intros Hin. unfold on_exception. simpl.
  destruct (error_callback s); simpl; [left; exact Hin|].
  apply release_active. exact Hin.
Qed.

(** One action never loses an active task: it stays active or moves to
    the retained set. *)
Lemma step_active a s s' i :
  tracked s -> step a s = Some s' -> i ∈ active_tasks s ->
  i ∈ active_tasks s' \/ i ∈ completed_tasks s'.
Proof.
  intros (Hh & _ & _) Hs Hin.
  destruct a as [d|tx tl hw style timeout|a|a|a| | | |w|w r|w r
                 |w chunk final fmt|w r|w];
    simpl in Hs.
  - destruct (Qle_bool 0 d); inversion Hs; subst. left. exact Hin.
  - inversion Hs; subst. left.
    destruct (add_task_frame tx tl hw style timeout s) as (Ha & _).
    change (i ∈ active_tasks (snd (add_task tx tl hw style timeout s))).
    rewrite Ha. exact Hin.
  - left. unfold eviction_gets in Hs.
    repeat (case_match; try discriminate); inversion Hs; subst; exact Hin.
  - left. unfold eviction_ends in Hs.
    repeat (case_match; try discriminate); inversion Hs; subst; exact Hin.
  - left. unfold eviction_times_out in Hs.
    repeat (case_match; try discriminate); inversion Hs; subst; exact Hin.
  - inversion Hs; subst. left. unfold start_workers.
    destruct (is_running s); exact Hin.
  - inversion Hs; subst. right. unfold stop_workers. simpl.
    destruct (foldl_cancel_sets (workers s) (set_is_running false s) i)
      as (_ & Hc & _).
    apply Hc. left. apply Hh in Hin. destruct Hin as (w & pc & Hw & Hp).
    exists pc. split; [eapply list_elem_of_lookup_2; eauto | exact Hp].
  - inversion Hs; subst. left. exact Hin.
  - unfold worker_gets in Hs.
    destruct (workers s !! w) as [[| | | |]|]; try discriminate.
    destruct (pending_queue s) as [|t rest]; [discriminate|].
    destruct (tasks s !! t) as [task|]; [|discriminate].
    simpl in Hs. destruct (Qgt_bool _ _); inversion Hs; subst; simpl;
      left; [exact Hin|].
    apply elem_of_union. right. exact Hin.
  - unfold translate_ends in Hs.
    destruct (workers s !! w) as [[|t|t x|t x|t]|]; try discriminate.
    destruct r as [translated|e|].
    + destruct (is_empty_result translated).
      * inversion Hs; subst. apply on_exception_active. exact Hin.
      * destruct (tasks s !! t) as [task|]; [|discriminate].
        destruct (translation_callback s); inversion Hs; subst;
          left; exact Hin.
    + inversion Hs; subst. apply on_exception_active. exact Hin.
    + inversion Hs; subst. unfold on_timeout. simpl.
      apply release_active. exact Hin.
  - unfold translation_callback_ends in Hs.
    destruct (workers s !! w) as [[|t|t x|t x|t]|]; try discriminate.
    destruct r as [[]|e|]; inversion Hs; subst.
    + left. exact Hin.
    + apply on_exception_active. exact Hin.
    + unfold on_timeout. simpl. apply release_active. exact Hin.
  - unfold synthesis_calls in Hs.
    destruct (workers s !! w) as [[|t|t x|t x|t]|]; try discriminate.
    destruct (audio_chunk_callback s); inversion Hs; subst; left; exact Hin.
  - unfold synthesis_ends in Hs.
    destruct (workers s !! w) as [[|t|t x|t x|t]|]; try discriminate.
    destruct r as [audio|e|]; inversion Hs; subst.
    + simpl. apply release_active. exact Hin.
    + apply on_exception_active. exact Hin.
    + unfold on_timeout. simpl. apply release_active. exact Hin.
  - unfold error_callback_ends in Hs.
    destruct (workers s !! w) as [[|t|t x|t x|t]|]; try discriminate.
    inversion Hs; subst. simpl. apply release_active. exact Hin.
Qed.

(** X22.  A task that a worker has taken stays known.  In a state reached
    from a fresh queue, whatever happens next (the translator or the
    synthesis answering, raising or timing out, a callback returning,
    the workers being stopped, the queue being cleared, a task being
    added), a task that is active before the action is found by
    [get_task_status] after it. *)
Theorem active_task_stays_queryable mc dt now tc ac acc ec actions s a s' i :
  run actions (configured mc dt now tc ac acc ec) = Some s ->
  i ∈ active_tasks s ->
  step a s = Some s' ->
  exists snap, get_task_status i s' = Some snap /\ snap_id snap = i.
Proof.
  intros Hrun Hin Hs.
  destruct (tracked_run _ _ _ _ _ _ _ _ _ Hrun) as [Hwf Htr].
  pose proof (wf_step _ _ _ Hwf (proj1 Htr) Hs) as Hwf'.
  pose proof (tracked_step _ _ _ Hwf Htr Hs) as Htr'.
  pose proof (step_active _ _ _ _ Htr Hs Hin) as Hin'.
  destruct (tracked_started s' i Hwf' Htr' Hin') as (task & Htask & _).
  destruct Htr' as (_ & [_ Hid] & _).
  exists (snapshot task). split; [|simpl; eauto].
  unfold get_task_status. rewrite Htask. simpl.
  destruct Hin' as [H|H].
  - rewrite bool_decide_eq_true_2 by exact H. reflexivity.
  - rewrite (bool_decide_eq_true_2 (i ∈ completed_tasks s')) by exact H.
    destruct (bool_decide (i ∈ active_tasks s')); reflexivity.
Qed.

Lemma active_task_stays_queryable_witness :
  exists s s' snap,
    run (take 5 failure_run) (configured 3 45 1000 true false true false)
    = Some s
    /\ 0%nat ∈ active_tasks s
    /\ step (TranslateEnds 0 TimedOut) s = Some s'
    /\ get_task_status 0 s' = Some snap /\ snap_id snap = 0%nat.
Proof.
  destruct (run (take 5 failure_run)
              (configured 3 45 1000 true false true false))
    as [s|] eqn:E; [|vm_compute in E; discriminate E].
  assert (Ha : bool_decide (0%nat ∈ active_tasks s) = true).
  { assert (H : (fun s => bool_decide (0%nat ∈ active_tasks s)) <$> Some s
                = Some true) by (rewrite <- E; vm_compute; reflexivity).
    injection H as H. exact H. }
  assert (Hb : match step (TranslateEnds 0 TimedOut) s with
               | Some _ => true
               | None => false
               end = true).
  { assert (H : (fun s => match step (TranslateEnds 0 TimedOut) s with
                          | Some _ => true
                          | None => false
                          end) <$> Some s
                = Some true) by (rewrite <- E; vm_compute; reflexivity).
    injection H as H. exact H. }
  apply bool_decide_eq_true_1 in Ha.
  destruct (step (TranslateEnds 0 TimedOut) s) as [s'|] eqn:Es;
    [|discriminate Hb].
  destruct (active_task_stays_queryable 3 45 1000 true false true false
              (take 5 failure_run) s (TranslateEnds 0 TimedOut) s' 0%nat
              E Ha Es) as (snap & H1 & H2).
  exists s, s', snap. repeat split; assumption.
Defined.


End QueueBookkeeping.

(** * What the callbacks say about the tasks *)
Section QueueReported.
Import PyStr Queue.

Lemma Rep_alter l m ws (f : TranslationTask -> TranslationTask) t :
  Rep l m ws -> keeps_start f ->
  ((exists e, ErrorCallback t e ∈ l) -> forall task, status (f task) = FAILED) ->
  Rep l (alter f t m) ws.
Proof.
  intros (H1 & H2 & H3) Hf Hst. split; [|split; [|exact H3]].
  - intros t0 e He. destruct (H1 _ _ He) as [(task & Htask & Hs) Hw].
    split; [|exact Hw].
    destruct (decide (t = t0)) as [->|Hne].
    + exists (f task). rewrite lookup_alter_eq, Htask.
      split; [reflexivity | apply Hst; eauto].
    + exists task. rewrite lookup_alter_ne by exact Hne. auto.
  - intros t0 r Hr. destruct (H2 _ _ Hr) as [(task & Htask & Hs) Hw].
    split; [|exact Hw].
    destruct (decide (t = t0)) as [->|Hne].
    + exists (f task). rewrite lookup_alter_eq, Htask.
      split; [reflexivity | apply Hf; exact Hs].
    + exists task. rewrite lookup_alter_ne by exact Hne. auto.
Qed.

Lemma Rep_set_worker l m ws w pc :
  Rep l m ws ->
  (forall t e, held pc = Some t -> ErrorCallback t e ∈ l ->
               pc = NotifyingError t) ->
  (forall t r, pc = Translating t -> TranslationCallback t r ∉ l) ->
  Rep l m (<[w := pc]> ws).
Proof.
  intros (H1 & H2 & H3) He Ht. split; [|split; [|exact H3]].
  - intros t e Hin. destruct (H1 _ _ Hin) as [Htask Hw].
    split; [exact Htask|].
    intros w' pc' Hl Hp. apply list_lookup_insert_Some in Hl.
    destruct Hl as [(-> & <- & _)|[_ Hl]]; [eapply He; eauto | eauto].
  - intros t r Hin. destruct (H2 _ _ Hin) as [Htask Hw].
    split; [exact Htask|].
    intros w' Hl. apply list_lookup_insert_Some in Hl.
    destruct Hl as [(-> & -> & _)|[_ Hl]]; [eapply Ht; eauto | eapply Hw; eauto].
Qed.

Lemma Rep_idle l m ws ws' :
  Rep l m ws -> (forall w pc, ws' !! w = Some pc -> pc = Polling) ->
  Rep l m ws'.
Proof.
  intros (H1 & H2 & H3) Hidle. split; [|split; [|exact H3]].
  - intros t e Hin. destruct (H1 _ _ Hin) as [Htask _].
    split; [exact Htask|].
    intros w pc Hl Hp. rewrite (Hidle _ _ Hl) in Hp. discriminate.
  - intros t r Hin. destruct (H2 _ _ Hin) as [Htask _].
    split; [exact Htask|].
    intros w Hl. specialize (Hidle _ _ Hl). discriminate.
Qed.

Lemma Rep_insert l m ws i task :
  Rep l m ws -> m !! i = None -> Rep l (<[i := task]> m) ws.
Proof.
  intros (H1 & H2 & H3) Hnone. split; [|split; [|exact H3]].
  - intros t e Hin. destruct (H1 _ _ Hin) as [(x & Hx & Hs) Hw].
    split; [|exact Hw]. exists x. rewrite lookup_insert_ne; [auto|congruence].
  - intros t r Hin. destruct (H2 _ _ Hin) as [(x & Hx & Hs) Hw].
    split; [|exact Hw]. exists x. rewrite lookup_insert_ne; [auto|congruence].
Qed.

Lemma Rep_mark_each e ids : forall l m ws,
  Rep l m ws -> Rep l (mark_each e ids m) ws.
Proof.
  induction ids as [|t ids IH]; intros l m ws H; simpl; [exact H|].
  apply IH, Rep_alter; [exact H | apply keeps_start_mark|].
  intros _ task. reflexivity.
Qed.

Lemma lookup_snoc_Some {A} (l : list A) (x y : A) (j : nat) :
  (l ++ [x]) !! j = Some y ->
  l !! j = Some y \/ (j = length l /\ y = x).
Proof.
  intros H. apply lookup_app_Some in H. destruct H as [H|[Hge H]]; [auto|].
  right. apply list_lookup_singleton_Some in H. destruct H as [Hj ->].
  split; [lia | reflexivity].
Qed.

Lemma Rep_emit_other l m ws e :
  Rep l m ws ->
  (forall t msg, e <> ErrorCallback t msg) ->
  (forall t r, e <> TranslationCallback t r) ->
  Rep (l ++ [e]) m ws.
Proof.
  intros (H1 & H2 & H3) He Ht. split; [|split].
  - intros t msg Hin. apply elem_of_app in Hin. destruct Hin as [Hin|Hin]; [eauto|].
    apply list_elem_of_singleton in Hin. exfalso. eapply He; eauto.
  - intros t r Hin. apply elem_of_app in Hin. destruct Hin as [Hin|Hin]; [eauto|].
    apply list_elem_of_singleton in Hin. exfalso. eapply Ht; eauto.
  - intros j k t r r' Hj Hk.
    apply lookup_snoc_Some in Hj, Hk.
    destruct Hj as [Hj|[_ Hj]]; [|exfalso; eapply Ht; eauto].
    destruct Hk as [Hk|[_ Hk]]; [|exfalso; eapply Ht; eauto].
    eapply H3; eauto.
Qed.

Lemma Rep_emit_error l m ws t msg task :
  Rep l m ws ->
  m !! t = Some task -> status task = FAILED ->
  (forall w pc, ws !! w = Some pc -> held pc = Some t ->
                pc = NotifyingError t) ->
  Rep (l ++ [ErrorCallback t msg]) m ws.
Proof.
  intros (H1 & H2 & H3) Htask Hs Hw. split; [|split].
  - intros t0 e Hin. apply elem_of_app in Hin. destruct Hin as [Hin|Hin]; [eauto|].
    apply list_elem_of_singleton in Hin. inversion Hin; subst. eauto.
  - intros t0 r Hin. apply elem_of_app in Hin. destruct Hin as [Hin|Hin]; [eauto|].
    apply list_elem_of_singleton in Hin. discriminate.
  - intros j k t0 r r' Hj Hk.
    apply lookup_snoc_Some in Hj, Hk.
    destruct Hj as [Hj|[_ Hj]]; [|discriminate].
    destruct Hk as [Hk|[_ Hk]]; [|discriminate].
    eapply H3; eauto.
Qed.

Lemma Rep_emit_translation l m ws t r task :
  Rep l m ws ->
  m !! t = Some task -> is_Some (started_at task) ->
  (forall w, ws !! w <> Some (Translating t)) ->
  (forall r', TranslationCallback t r' ∉ l) ->
  Rep (l ++ [TranslationCallback t r]) m ws.
Proof.
  intros (H1 & H2 & H3) Htask Hs Hw Hnew. split; [|split].
  - intros t0 e Hin. apply elem_of_app in Hin. destruct Hin as [Hin|Hin]; [eauto|].
    apply list_elem_of_singleton in Hin. discriminate.
  - intros t0 r0 Hin. apply elem_of_app in Hin. destruct Hin as [Hin|Hin]; [eauto|].
    apply list_elem_of_singleton in Hin. inversion Hin; subst. eauto.
  - intros j k t0 r0 r' Hj Hk.
    apply lookup_snoc_Some in Hj, Hk.
    destruct Hj as [Hj|[-> Hj]], Hk as [Hk|[-> Hk]].
    + eapply H3; eauto.
    + inversion Hk; subst. exfalso. eapply Hnew.
      eapply list_elem_of_lookup_2; eauto.
    + inversion Hj; subst. exfalso. eapply Hnew.
      eapply list_elem_of_lookup_2; eauto.
    + reflexivity.
Qed.

(** A task held by a worker that is not awaiting the error callback has
    not had it invoked. *)
Lemma Rep_no_error l m ws w pc t e :
  Rep l m ws -> ws !! w = Some pc -> held pc = Some t ->
  pc <> NotifyingError t -> ErrorCallback t e ∉ l.
Proof.
  intros (H1 & _) Hw Hp Hne Hin. destruct (H1 _ _ Hin) as [_ Hh].
  apply Hne. eapply Hh; eauto.
Qed.

(** A task that is still PENDING has had no callback invoked. *)
Lemma Rep_pending l m ws c n q t task :
  WF m q ws c n -> Rep l m ws -> m !! t = Some task -> status task = PENDING ->
  (forall e, ErrorCallback t e ∉ l) /\ (forall r, TranslationCallback t r ∉ l).
Proof.
  intros Hwf (H1 & H2 & _) Htask Hp. split.
  - intros e Hin. destruct (H1 _ _ Hin) as [(x & Hx & Hs) _]. congruence.
  - intros r Hin. destruct (H2 _ _ Hin) as [(x & Hx & [a Ha]) _].
    assert (x = task) by congruence. subst.
    destruct (wf_tasks _ _ _ _ _ Hwf _ _ Htask) as (_ & _ & _ & _ & _ & H5).
    destruct (H5 Hp). congruence.
Qed.

Lemma reported_release w pc t (f : TranslationTask -> TranslationTask) s :
  reported s -> workers s !! w = Some pc -> held pc = Some t ->
  keeps_start f ->
  (pc = NotifyingError t -> forall task, status (f task) = FAILED) ->
  reported (set_worker w Polling (finally t (update_task f t s))).
Proof.
  intros Hrep Hw Hp Hf Hst. unfold reported. simpl.
  apply Rep_set_worker; [|discriminate|discriminate].
  apply Rep_alter; [exact Hrep | exact Hf|].
  intros [e He]. apply Hst. destruct Hrep as (H1 & _).
  destruct (H1 _ _ He) as [_ Hh]. eapply Hh; eauto.
Qed.

Lemma reported_on_exception w pc t e s :
  wf s -> tracked s -> reported s ->
  workers s !! w = Some pc -> held pc = Some t ->
  reported (on_exception w t e s).
Proof.
  intros Hwf (Hh & _ & _) Hrep Hw Hp. unfold on_exception. simpl.
  destruct (error_callback s).
  - unfold reported. simpl.
    destruct (wf_held _ _ _ _ _ Hwf _ _ _ Hw Hp) as (task & Htask & _).
    eapply (Rep_emit_error _ _ _ _ _ (mark FAILED e task)).
    + apply Rep_set_worker.
      * apply Rep_alter; [exact Hrep | apply keeps_start_mark|].
        intros _ x. reflexivity.
      * intros t' e' Ht' _. inversion Ht'. reflexivity.
      * discriminate.
    + rewrite lookup_alter_eq, Htask. reflexivity.
    + reflexivity.
    + intros w' pc' Hl Hp'. apply list_lookup_insert_Some in Hl.
      destruct Hl as [(_ & <- & _)|[Hne Hl]]; [reflexivity|].
      exfalso. apply Hne. destruct Hh as [_ Hu]. eapply Hu; eauto.
  - apply (reported_release w pc t (mark FAILED e) s);
      [exact Hrep | exact Hw | exact Hp | apply keeps_start_mark|].
    intros _ x. reflexivity.
Qed.

Lemma reported_on_timeout w pc t s :
  reported s -> workers s !! w = Some pc -> held pc = Some t ->
  pc <> NotifyingError t ->
  reported (on_timeout w t s).
Proof.
  intros Hrep Hw Hp Hne. unfold on_timeout.
  apply (reported_release w pc t _ s);
    [exact Hrep | exact Hw | exact Hp | |].
  - intros task. split; [reflexivity | intros H; exact H].
  - intros Heq. contradiction.
Qed.

Lemma reported_rehold w pc pc' t s :
  reported s -> workers s !! w = Some pc -> held pc = Some t ->
  pc <> NotifyingError t -> held pc' = Some t ->
  (forall t', pc' <> Translating t') ->
  reported (set_worker w pc' s).
Proof.
  intros Hrep Hw Hp Hne Hp' Hnt. unfold reported. simpl.
  apply Rep_set_worker; [exact Hrep| |].
  - intros t' e Ht' He. exfalso.
    assert (t' = t) by congruence. subst.
    eapply Rep_no_error; eauto.
  - intros t' r Heq. exfalso. eapply Hnt; eauto.
Qed.

Lemma reported_step a s s' :
  wf s -> tracked s -> reported s -> step a s = Some s' -> reported s'.
Proof.
  intros Hwf Htr Hrep.
  destruct a as [d|tx tl hw style timeout|a|a|a| | | |w|w r|w r
                 |w chunk final fmt|w r|w];
    simpl.
  - destruct (Qle_bool 0 d); intros Hs; inversion Hs; subst. exact Hrep.
  - intros Hs; inversion Hs; subst; clear Hs.
    assert (Hnone : tasks s !! fresh s = None).
    { destruct (tasks s !! fresh s) eqn:E; [|reflexivity].
      destruct (wf_tasks _ _ _ _ _ Hwf _ _ E). lia. }
    pose proof (Rep_insert _ _ _ (fresh s)
                  (new_task tx tl hw style timeout s) Hrep Hnone) as H1.
    unfold reported, add_task. simpl.
    destruct (_ >=? _); simpl; exact H1.
  - unfold eviction_gets.
    repeat (case_match; try discriminate);
      intros Hs; inversion Hs; subst; exact Hrep.
  - unfold eviction_ends.
    destruct (adders s !! a) as [[t|t|t o|t]|]; try discriminate.
    intros Hs; inversion Hs; subst. unfold reported. simpl.
    apply Rep_alter; [exact Hrep | apply keeps_start_mark|].
    intros _ x. reflexivity.
  - unfold eviction_times_out.
    repeat (case_match; try discriminate);
      intros Hs; inversion Hs; subst; exact Hrep.
  - intros Hs; inversion Hs; subst; clear Hs. unfold start_workers.
    destruct (is_running s) eqn:Er; [exact Hrep|].
    unfold reported. simpl. destruct Htr as (_ & _ & Hl). rewrite Er in Hl.
    destruct (workers s) as [|x ws] eqn:Ew; [|simpl in Hl; lia].
    eapply Rep_idle; [exact Hrep|].
    intros w pc Hw. simpl in Hw. apply lookup_replicate in Hw as [-> _].
    reflexivity.
  - intros Hs; inversion Hs; subst; clear Hs.
    unfold reported, stop_workers. simpl.
    destruct (foldl_cancel_frame (workers s) (set_is_running false s))
      as (Hm & _ & _ & _ & _ & _ & Hlog & _).
    rewrite Hm, Hlog. simpl.
    eapply Rep_idle; [exact Hrep|]. intros w pc Hw. inversion Hw.
  - intros Hs; inversion Hs; subst; clear Hs.
    unfold reported, clear_pending_tasks. simpl.
    apply Rep_mark_each, Rep_mark_each. exact Hrep.
  - unfold worker_gets.
    destruct (workers s !! w) as [[| | | |]|] eqn:Hw; try discriminate.
    destruct (pending_queue s) as [|t rest] eqn:Eq; [discriminate|].
    destruct (tasks s !! t) as [task|] eqn:Htask; [|discriminate].
    assert (Hin : t ∈ waiting s) by (unfold waiting; rewrite Eq; left).
    destruct (wf_queued _ _ _ _ _ Hwf _ Hin) as (task' & Htask' & Hp).
    assert (task' = task) by congruence. subst task'.
    destruct (Rep_pending _ _ _ _ _ _ _ _ Hwf Hrep Htask Hp) as [Hne Hnt].
    simpl. destruct (Qgt_bool _ _); intros Hs; inversion Hs; subst;
      unfold reported; simpl.
    + apply Rep_alter; [exact Hrep | apply keeps_start_mark|].
      intros [e He]. destruct (Hne _ He).
    + apply Rep_set_worker.
      * apply Rep_alter; [exact Hrep| |].
        -- intros x. split; [reflexivity | intros _; simpl; eauto].
        -- intros [e He]. destruct (Hne _ He).
      * intros t' e Ht' He. inversion Ht'; subst. destruct (Hne _ He).
      * intros t' r Heq. inversion Heq; subst. apply Hnt.
  - unfold translate_ends.
    destruct (workers s !! w) as [[|t|t x|t x|t]|] eqn:Hw; try discriminate.
    destruct r as [translated|e|].
    + destruct (is_empty_result translated).
      * intros Hs; inversion Hs; subst. eapply reported_on_exception; eauto.
      * destruct (tasks s !! t) as [task|] eqn:Htask; [|discriminate].
        destruct (translation_callback s); intros Hs; inversion Hs; subst.
        -- unfold reported. simpl.
           destruct (wf_held _ _ _ _ _ Hwf _ _ _ Hw eq_refl)
             as (task' & Htask' & Hst).
           eapply Rep_emit_translation; eauto.
           ++ apply (reported_rehold w _ _ t s Hrep Hw);
                [reflexivity | discriminate | reflexivity | discriminate].
           ++ intros w' Hl. apply list_lookup_insert_Some in Hl.
              destruct Hl as [(_ & Heq & _)|[Hne Hl]]; [discriminate|].
              apply Hne. destruct Htr as ([_ Hu] & _).
              eapply (Hu w w'); eauto; reflexivity.
           ++ intros r' Hin. destruct Hrep as (_ & H2 & _).
              destruct (H2 _ _ Hin) as [_ Hno]. exact (Hno w Hw).
        -- apply (reported_rehold w _ _ t s Hrep Hw);
             [reflexivity | discriminate | reflexivity | discriminate].
    + intros Hs; inversion Hs; subst. eapply reported_on_exception; eauto.
    + intros Hs; inversion Hs; subst.
      eapply reported_on_timeout; eauto; try reflexivity; discriminate.
  - unfold translation_callback_ends.
    destruct (workers s !! w) as [[|t|t x|t x|t]|] eqn:Hw; try discriminate.
    destruct r as [[]|e|]; intros Hs; inversion Hs; subst.
    + unfold reported. simpl.
      apply Rep_emit_other; [|discriminate|discriminate].
      apply (reported_rehold w _ _ t s Hrep Hw);
        [reflexivity | discriminate | reflexivity | discriminate].
    + eapply reported_on_exception; eauto.
    + eapply reported_on_timeout; eauto; try reflexivity; discriminate.
  - unfold synthesis_calls.
    destruct (workers s !! w) as [[|t|t x|t x|t]|] eqn:Hw; try discriminate.
    destruct (audio_chunk_callback s); intros Hs; inversion Hs; subst;
      [|exact Hrep].
    unfold reported. simpl.
    apply Rep_emit_other; [exact Hrep|discriminate|discriminate].
  - unfold synthesis_ends.
    destruct (workers s !! w) as [[|t|t x|t x|t]|] eqn:Hw; try discriminate.
    destruct r as [audio|e|]; intros Hs; inversion Hs; subst.
    + apply (reported_release w _ t _ s Hrep Hw); [reflexivity| |discriminate].
      intros task. split; [reflexivity | intros H; exact H].
    + eapply reported_on_exception; eauto.
    + eapply reported_on_timeout; eauto; try reflexivity; discriminate.
  - unfold error_callback_ends.
    destruct (workers s !! w) as [[|t|t x|t x|t]|] eqn:Hw; try discriminate.
    intros Hs; inversion Hs; subst. unfold reported. simpl.
    apply Rep_set_worker; [exact Hrep|discriminate|discriminate].
Qed.

Lemma reported_run mc dt now tc ac acc ec actions s :
  run actions (configured mc dt now tc ac acc ec) = Some s ->
  wf s /\ tracked s /\ reported s.
Proof.
  apply (run_invariant (fun s => wf s /\ tracked s /\ reported s)).
  - intros a s0 s1 (Hwf & Htr & Hrep) Hs. split; [|split].
    + eapply wf_step; eauto. apply Htr.
    + eapply tracked_step; eauto.
    + eapply reported_step; eauto.
  - split; [apply wf_configured|]. split; [apply tracked_configured|].
    split; [|split]; simpl.
    + intros t e H. inversion H.
    + intros t r H. inversion H.
    + intros j k t r r' H. inversion H.
Qed.

(** X23.  The error callback is only ever invoked for a task that ends
    FAILED.  In every state reached from a fresh queue, a task for which
    the error callback has been invoked has status FAILED; so a task that
    is TIMEOUT, COMPLETED, PROCESSING or PENDING never had it invoked: in
    particular a timeout, of the translator, of the synthesis or of the
    task waiting in the queue, is not reported through the error
    callback. *)
Theorem error_callback_only_for_failed mc dt now tc ac acc ec actions s t e :
  run actions (configured mc dt now tc ac acc ec) = Some s ->
  ErrorCallback t e ∈ log s ->
  status_of t s = Some FAILED.
Proof.
  intros Hrun Hin.
  destruct (reported_run _ _ _ _ _ _ _ _ _ Hrun) as (_ & _ & (H1 & _)).
  destruct (H1 _ _ Hin) as [(task & Htask & Hs) _].
  unfold status_of. rewrite Htask. simpl. rewrite Hs. reflexivity.
Qed.

Lemma error_callback_only_for_failed_witness :
  exists s,
    run failure_run (configured 3 45 1000 true false true true) = Some s
    /\ ErrorCallback 0 "Translation API error: boom" ∈ log s
    /\ status_of 0 s = Some FAILED.
Proof.
  destruct (run failure_run (configured 3 45 1000 true false true true))
    as [s|] eqn:E; [|vm_compute in E; discriminate E].
  assert (Hlog : log s = [ErrorCallback 0 "Translation API error: boom"]).
  { assert (H : log <$> Some s
                = Some [ErrorCallback 0 "Translation API error: boom"])
      by (rewrite <- E; vm_compute; reflexivity).
    injection H as H. exact H. }
  assert (Hin : ErrorCallback 0 "Translation API error: boom" ∈ log s)
    by (rewrite Hlog; left).
  exists s. split; [reflexivity|]. split; [exact Hin|].
  apply (error_callback_only_for_failed 3 45 1000 true false true true
           failure_run s 0%nat "Translation API error: boom" E Hin).
Defined.

(** X24.  The translation callback is invoked at most once per task.  In
    every state reached from a fresh queue, two invocations of the
    translation callback for the same task id are one and the same
    invocation. *)
Theorem translation_callback_at_most_once mc dt now tc ac acc ec actions s
    j k t r r' :
  run actions (configured mc dt now tc ac acc ec) = Some s ->
  log s !! j = Some (TranslationCallback t r) ->
  log s !! k = Some (TranslationCallback t r') ->
  j = k.
Proof.
  intros Hrun Hj Hk.
  destruct (reported_run _ _ _ _ _ _ _ _ _ Hrun) as (_ & _ & (_ & _ & H3)).
  eapply H3; eauto.
Qed.

Lemma translation_callback_at_most_once_witness :
  exists s r,
    run success_run (configured 3 45 1000 true false true true) = Some s
    /\ log s !! 0%nat = Some (TranslationCallback 0 r)
    /\ forall k r', log s !! k = Some (TranslationCallback 0 r') -> 0%nat = k.
Proof.
  destruct (run success_run (configured 3 45 1000 true false true true))
    as [s|] eqn:E; [|vm_compute in E; discriminate E].
  set (r := {| original_text := hello; translated_text := bonjour;
               result_target_language := "French"; result_task_id := 0;
               audio_size := None |}).
  assert (H0 : log s !! 0%nat = Some (TranslationCallback 0 r)).
  { assert (H : (fun s => log s !! 0%nat) <$> Some s
                = Some (Some (TranslationCallback 0 r)))
      by (rewrite <- E; vm_compute; reflexivity).
    injection H as H. exact H. }
  exists s, r. split; [reflexivity|]. split; [exact H0|].
  intros k r' Hk.
  apply (translation_callback_at_most_once 3 45 1000 true false true true
           success_run s 0%nat k 0%nat r r' E H0 Hk).
Defined.

End QueueReported.

(** * The segments emitted while streaming *)
Section SegmenterEmitted.
Import Segmenter.

Lemma speaking_with_eta (ap : AudioProcessor) :
  speech_started ap = true ->
  ap = speaking_with (speech_frames ap) (silence_frames ap) ap.
Proof. intros H. destruct ap; simpl in *; subst; reflexivity. Qed.

(** One frame: the buffer stays made of whole frames, and a segment that
    comes out is made of whole frames, as many as the minimum asks for. *)
Lemma process_frame_framed is_speech ap f :
  Nat.even (Z.to_nat (frame_bytes ap)) = true ->
  framed_state ap ->
  length f = Z.to_nat (frame_bytes ap) ->
  framed_state (snd (_process_frame is_speech ap f))
  /\ min_speech_frames (snd (_process_frame is_speech ap f))
     = min_speech_frames ap
  /\ forall segment,
       fst (_process_frame is_speech ap f) = Some segment ->
       whole_frames (frame_bytes ap) (min_speech_frames ap) segment.
Proof.
  intros Hev [Hfr Hne] Hlen.
  destruct (is_speech f (sample_rate ap)) as [[|]|e] eqn:E.
  - unfold _process_frame. rewrite E.
    assert (Hfr' : Forall (fun g : bytes => length g = Z.to_nat (frame_bytes ap))
                     (speech_frames ap ++ [f])).
    { apply Forall_app. split; [exact Hfr | repeat constructor; exact Hlen]. }
    destruct ap; simpl in *. destruct speech_started0; simpl;
      (split; [split; [exact Hfr'|]|split; [reflexivity | discriminate]]);
      intros _ H; apply app_eq_nil in H; destruct H; discriminate.
  - destruct (speech_started ap) eqn:Est.
    + pose proof (process_frame_silence is_speech (speech_frames ap)
                    (silence_frames ap) ap f E) as HR.
      rewrite <- (speaking_with_eta ap Est) in HR.
      rewrite HR. clear HR. cbv zeta.
      set (n := silence_frames ap).
      set (fs' := if n + 1 <=? 3 then speech_frames ap ++ [f]
                  else speech_frames ap).
      assert (Hfs' : Forall (fun g : bytes => length g = Z.to_nat (frame_bytes ap))
                       fs' /\ fs' <> []).
      { unfold fs'. destruct (n + 1 <=? 3).
        - split; [apply Forall_app; split;
                    [exact Hfr | repeat constructor; exact Hlen]|].
          intros H; apply app_eq_nil in H; destruct H; discriminate.
        - split; [exact Hfr | apply Hne; reflexivity]. }
      destruct Hfs' as [Hfr' Hne'].
      assert (Hsw : framed_state (speaking_with fs' (n + 1) ap)
                    /\ min_speech_frames (speaking_with fs' (n + 1) ap)
                       = min_speech_frames ap).
      { destruct ap; simpl in *. split; [split|reflexivity]; auto. }
      assert (Hrs : framed_state (_reset_state ap)
                    /\ min_speech_frames (_reset_state ap)
                       = min_speech_frames ap).
      { destruct ap; simpl. split; [split|reflexivity]; simpl;
          [constructor | discriminate]. }
      destruct (n + 1 >=? silence_threshold_frames ap);
        [|cbn [fst snd]; split; [apply Hsw|split; [apply Hsw | discriminate]]].
      destruct (Z.of_nat (length fs') >=? min_speech_frames ap) eqn:Emin;
        [|cbn [fst snd]; split; [apply Hrs|split; [apply Hrs | discriminate]]].
      rewrite finalize_samples by (destruct ap; simpl; exact Hne').
      replace (speech_frames (speaking_with fs' (n + 1) ap)) with fs'
        by (destruct ap; reflexivity).
      destruct (Nat.even_spec (Z.to_nat (frame_bytes ap))) as [Heven _].
      destruct (Heven Hev) as [h Hh].
      destruct (samples_of_even (concat fs') (length fs' * h))
        as (segment & Hseg & Hl).
      { rewrite (concat_frames_length _ _ Hfr'). lia. }
      rewrite Hseg. cbn [fst snd].
      split; [apply Hrs|]. split; [apply Hrs|].
      intros s Hs. inversion Hs; subst s. exists (length fs').
      split; [lia|]. split.
      * destruct fs'; [congruence | simpl; lia].
      * apply Z.geb_le in Emin. lia.
    + unfold _process_frame. rewrite E, Est. cbn [fst snd].
      split; [split; [exact Hfr | rewrite Est; discriminate]|].
      split; [reflexivity | discriminate].
  - unfold _process_frame. rewrite E. cbn [fst snd].
    split; [split; assumption|]. split; [reflexivity | discriminate].
Qed.

Lemma process_frames_framed is_speech frames : forall ap,
  Nat.even (Z.to_nat (frame_bytes ap)) = true ->
  framed_state ap ->
  Forall (fun f : bytes => length f = Z.to_nat (frame_bytes ap)) frames ->
  framed_state (snd (process_frames is_speech frames ap))
  /\ min_speech_frames (snd (process_frames is_speech frames ap))
     = min_speech_frames ap
  /\ Forall (whole_frames (frame_bytes ap) (min_speech_frames ap))
       (fst (process_frames is_speech frames ap)).
Proof.
  induction frames as [|f rest IH]; intros ap Hev Hst Hfr.
  - simpl. split; [exact Hst|]. split; [reflexivity | constructor].
  - inversion Hfr as [|? ? Hlen Hrest]; subst.
    cbn [process_frames].
    destruct (process_frame_framed is_speech ap f Hev Hst Hlen)
      as (Hst1 & Hmin1 & Hseg1).
    pose proof (process_frame_keeps is_speech ap f) as [Hfb1 _].
    destruct (_process_frame is_speech ap f) as [seg ap1].
    cbn [fst snd] in *.
    destruct (IH ap1) as (Hst2 & Hmin2 & Hsegs).
    + rewrite Hfb1. exact Hev.
    + exact Hst1.
    + rewrite Hfb1. exact Hrest.
    + destruct (process_frames is_speech rest ap1) as [segs ap2].
      cbn [fst snd] in *. rewrite Hfb1, Hmin1 in Hsegs.
      split; [exact Hst2|]. split; [congruence|].
      destruct seg as [s|]; [constructor; auto | exact Hsegs].
Qed.

Lemma feed_framed is_speech chunks : forall ap segments ap',
  0 < frame_bytes ap ->
  Nat.even (Z.to_nat (frame_bytes ap)) = true ->
  framed_state ap ->
  feed is_speech chunks ap = Some (segments, ap') ->
  Forall (whole_frames (frame_bytes ap) (min_speech_frames ap)) segments.
Proof.
  induction chunks as [|c rest IH]; intros ap segments ap' Hpos Hev Hst;
    cbn [feed].
  - intros H; inversion H; subst. constructor.
  - destruct (split_frames (Z.to_nat (frame_bytes ap)) ltac:(lia)
                (S (length (audio_buffer ap ++ c))) (audio_buffer ap ++ c))
      as (frames & tail & Hb & Hfr); [lia|].
    rewrite (add_audio_chunk_frames is_speech ap c frames tail); auto.
    destruct (process_frames_framed is_speech frames ap Hev Hst)
      as (Hst1 & Hmin1 & Hsegs1); [apply Hfr|].
    pose proof (process_frames_frame_bytes is_speech frames ap) as Hfb1.
    set (ap1 := snd (process_frames is_speech frames ap)) in *.
    destruct (feed is_speech rest (set_audio_buffer tail ap1))
      as [[segs2 ap2]|] eqn:E2; [|discriminate].
    intros H; inversion H; subst.
    apply Forall_app. split; [exact Hsegs1|].
    rewrite <- Hfb1, <- Hmin1.
    apply (IH (set_audio_buffer tail ap1) segs2 ap'); simpl.
    + rewrite Hfb1. exact Hpos.
    + rewrite Hfb1. exact Hev.
    + destruct Hst1 as [H1 H2]. split; [exact H1 | exact H2].
    + exact E2.
Qed.

(** X25.  Every segment emitted while streaming is a whole utterance.
    Take a processor as [__init__] builds it, with a positive frame size,
    and hand it any chunks under any classifier: each segment returned by
    [add_audio_chunk] consists of the samples of a whole number of frames,
    at least one and at least [min_speech_frames]; in particular it is
    never empty, and never shorter than the minimum speech duration. *)
Theorem emitted_segments_meet_threshold sr fd vm st ms ap0 is_speech chunks
    segments ap :
  init sr fd vm st ms = Return ap0 ->
  0 < frame_size ap0 ->
  feed is_speech chunks ap0 = Some (segments, ap) ->
  Forall (fun segment =>
            exists k, length segment = (k * Z.to_nat (frame_size ap0))%nat
                      /\ (1 <= k)%nat
                      /\ min_speech_frames ap0 <= Z.of_nat k)
         segments.
Proof.
  intros Hinit Hpos Hfeed.
  assert (Hfb : frame_bytes ap0 = frame_size ap0 * 2
                /\ speech_frames ap0 = [] /\ speech_started ap0 = false).
  { unfold init in Hinit. destruct (fd =? 0); [discriminate|].
    inversion Hinit; subst. repeat split. }
  destruct Hfb as (Hfb & Hfs & Hidle).
  assert (Hev : Nat.even (Z.to_nat (frame_bytes ap0)) = true).
  { rewrite Hfb, Z.mul_comm, Z2Nat.inj_mul by lia.
    apply Nat.even_spec. exists (Z.to_nat (frame_size ap0)).
    change (Z.to_nat 2) with 2%nat. lia. }
  assert (Hst : framed_state ap0).
  { split; [rewrite Hfs; constructor | rewrite Hidle; discriminate]. }
  pose proof (feed_framed is_speech chunks ap0 segments ap
                ltac:(lia) Hev Hst Hfeed) as H.
  eapply Forall_impl; [exact H|].
  intros seg (k & Hk & H1 & Hmin). exists k. split; [|split; assumption].
  rewrite Hfb in Hk. rewrite Z2Nat.inj_mul in Hk by lia.
  change (Z.to_nat 2) with 2%nat in Hk. nia.
Qed.

Lemma emitted_segments_meet_threshold_witness :
  exists ap0 segments ap,
    init 1000 1 3 2 2 = Return ap0
    /\ feed scripted_vad
         [[x01; x00; x01]; [x00; x00; x00; x00; x00]] ap0
       = Some (segments, ap)
    /\ length segments = 1%nat
    /\ Forall (fun segment =>
                 exists k, length segment = (k * Z.to_nat (frame_size ap0))%nat
                           /\ (1 <= k)%nat
                           /\ min_speech_frames ap0 <= Z.of_nat k)
              segments.
Proof.
  eexists _, _, _. split; [reflexivity|]. split; [vm_compute; reflexivity|].
  split; [reflexivity|].
  eapply (emitted_segments_meet_threshold 1000 1 3 2 2 _ scripted_vad
            [[x01; x00; x01]; [x00; x00; x00; x00; x00]]).
  - reflexivity.
  - vm_compute. reflexivity.
  - vm_compute. reflexivity.
Defined.

End SegmenterEmitted.

(** * The streaming front end *)
Section StreamingFacts.
Import Segmenter Streaming.

Lemma put_segments_all (segments : list ndarray) : forall queue,
  Forall (fun s => nonempty s = true) segments ->
  put_segments segments queue = queue ++ map Some segments.
Proof.
  unfold put_segments.
  induction segments as [|s rest IH]; intros queue Hne; simpl.
  - rewrite app_nil_r. reflexivity.
  - inversion Hne as [|? ? Hs Hrest]; subst. rewrite Hs.
    rewrite IH by exact Hrest. rewrite <- app_assoc. reflexivity.
Qed.

Lemma put_segments_clean (segments : list ndarray) : forall queue,
  Forall (fun x => x <> Some []) queue ->
  Forall (fun x => x <> Some []) (put_segments segments queue).
Proof.
  unfold put_segments.
  induction segments as [|s rest IH]; intros queue Hq; simpl; [exact Hq|].
  apply IH. destruct s as [|x s]; simpl; [exact Hq|].
  apply Forall_app. split; [exact Hq | repeat constructor; discriminate].
Qed.

Lemma whole_frames_nonempty fb min (segment : ndarray) :
  0 < fb -> whole_frames fb min segment -> nonempty segment = true.
Proof.
  intros Hpos (k & Hk & H1 & _). destruct segment; [|reflexivity].
  simpl in Hk. exfalso. nia.
Qed.

(** One chunk: the buffer stays made of whole frames, and so are the
    segments that come out. *)
Lemma add_audio_chunk_framed is_speech ap c segments ap' :
  0 < frame_bytes ap ->
  Nat.even (Z.to_nat (frame_bytes ap)) = true ->
  framed_state ap ->
  add_audio_chunk is_speech (S (length (audio_buffer ap) + length c)) c ap
  = Some (segments, ap') ->
  framed_state ap'
  /\ frame_bytes ap' = frame_bytes ap
  /\ min_speech_frames ap' = min_speech_frames ap
  /\ Forall (whole_frames (frame_bytes ap) (min_speech_frames ap)) segments.
Proof.
  intros Hpos Hev Hst.
  destruct (split_frames (Z.to_nat (frame_bytes ap)) ltac:(lia)
              (S (length (audio_buffer ap ++ c))) (audio_buffer ap ++ c))
    as (frames & tail & Hb & Hfr); [lia|].
  rewrite (add_audio_chunk_frames is_speech ap c frames tail); auto.
  destruct (process_frames_framed is_speech frames ap Hev Hst)
    as (Hst1 & Hmin1 & Hsegs1); [apply Hfr|].
  pose proof (process_frames_frame_bytes is_speech frames ap) as Hfb1.
  intros H; inversion H; subst; clear H. simpl.
  split; [exact Hst1|]. split; [exact Hfb1|]. split; [exact Hmin1|].
  exact Hsegs1.
Qed.

Lemma add_all_feed is_speech chunks : forall ap queue running segments ap',
  0 < frame_bytes ap ->
  Nat.even (Z.to_nat (frame_bytes ap)) = true ->
  framed_state ap ->
  feed is_speech chunks ap = Some (segments, ap') ->
  add_all is_speech chunks
    {| audio_processor := ap; processing_queue := queue;
       is_running := running |}
  = Some {| audio_processor := ap';
            processing_queue := queue ++ map Some segments;
            is_running := running |}.
Proof.
  induction chunks as [|c rest IH];
    intros ap queue running segments ap' Hpos Hev Hst; cbn [feed add_all].
  - intros H; inversion H; subst. simpl. rewrite app_nil_r. reflexivity.
  - unfold add_audio_data. cbn [audio_processor processing_queue is_running].
    destruct (add_audio_chunk is_speech
                (S (length (audio_buffer ap) + length c)) c ap)
      as [[segs1 ap1]|] eqn:E1; [|discriminate].
    destruct (add_audio_chunk_framed is_speech ap c segs1 ap1 Hpos Hev Hst E1)
      as (Hst1 & Hfb1 & Hmin1 & Hsegs1).
    destruct (feed is_speech rest ap1) as [[segs2 ap2]|] eqn:E2;
      [|discriminate].
    intros H; inversion H; subst; clear H.
    rewrite put_segments_all.
    + rewrite (IH ap1 _ running segs2 ap'); auto.
      * rewrite map_app, app_assoc. reflexivity.
      * rewrite Hfb1. exact Hpos.
      * rewrite Hfb1. exact Hev.
    + eapply Forall_impl; [exact Hsegs1|].
      intros s Hs. eapply whole_frames_nonempty; eauto.
Qed.

(** X26.  The front end queues every segment the segmenter emits.  Around
    a processor as [__init__] builds it, with a positive frame size, the
    segments that a stream of chunks makes [add_audio_chunk] return are
    appended to the processing queue by [add_audio_data], all of them and
    in the order they were emitted: the emptiness test never drops one. *)
Theorem add_audio_data_queues_every_segment sr fd vm st ms ap0 is_speech
    chunks segments ap :
  init sr fd vm st ms = Return ap0 ->
  0 < frame_size ap0 ->
  feed is_speech chunks ap0 = Some (segments, ap) ->
  add_all is_speech chunks (fresh ap0)
  = Some {| audio_processor := ap;
            processing_queue := map Some segments;
            is_running := false |}.
Proof.
  intros Hinit Hpos Hfeed.
  assert (Hfb : frame_bytes ap0 = frame_size ap0 * 2
                /\ speech_frames ap0 = [] /\ speech_started ap0 = false).
  { unfold init in Hinit. destruct (fd =? 0); [discriminate|].
    inversion Hinit; subst. repeat split. }
  destruct Hfb as (Hfb & Hfs & Hidle).
  assert (Hev : Nat.even (Z.to_nat (frame_bytes ap0)) = true).
  { rewrite Hfb, Z.mul_comm, Z2Nat.inj_mul by lia.
    apply Nat.even_spec. exists (Z.to_nat (frame_size ap0)).
    change (Z.to_nat 2) with 2%nat. lia. }
  assert (Hst : framed_state ap0).
  { split; [rewrite Hfs; constructor | rewrite Hidle; discriminate]. }
  unfold fresh.
  rewrite (add_all_feed is_speech chunks ap0 [] false segments ap);
    auto; lia.
Qed.

Lemma add_audio_data_queues_every_segment_witness :
  exists ap0 segment ap,
    init 1000 1 3 2 2 = Return ap0
    /\ feed scripted_vad [[x01; x00; x01]; [x00; x00; x00; x00; x00]] ap0
       = Some ([segment], ap)
    /\ add_all scripted_vad [[x01; x00; x01]; [x00; x00; x00; x00; x00]]
         (fresh ap0)
       = Some {| audio_processor := ap;
                 processing_queue := map Some [segment];
                 is_running := false |}.
Proof.
  eexists _, _, _. split; [reflexivity|]. split; [vm_compute; reflexivity|].
  eapply (add_audio_data_queues_every_segment 1000 1 3 2 2 _ scripted_vad
            [[x01; x00; x01]; [x00; x00; x00; x00; x00]]).
  - reflexivity.
  - vm_compute. reflexivity.
  - vm_compute. reflexivity.
Defined.

(** X27.  No empty segment is ever queued for transcription.  Whatever
    the calls made on the front end, adding audio, forcing the current
    segment, stopping, and whatever the processor under it, a queue that
    holds no empty segment still holds none afterwards, also when
    [force_segment] hands back an empty one. *)
Theorem queue_never_holds_empty_segment is_speech cs : forall sp sp',
  Forall (fun x => x <> Some []) (processing_queue sp) ->
  calls is_speech cs sp = Some sp' ->
  Forall (fun x => x <> Some []) (processing_queue sp').
Proof.
  induction cs as [|c rest IH]; intros sp sp' Hq; cbn [calls].
  - intros H; inversion H; subst. exact Hq.
  - destruct (call is_speech c sp) as [sp1|] eqn:E; [|discriminate].
    apply IH. destruct c as [audio_data| |]; simpl in E.
    + unfold add_audio_data in E.
      destruct (add_audio_chunk _ _ _ _) as [[segs ap]|]; [|discriminate].
      inversion E; subst. simpl. apply put_segments_clean. exact Hq.
    + inversion E; subst. unfold force_process_current.
      destruct (force_segment (audio_processor sp)) as [[[s|]|e] ap]; simpl;
        try exact Hq.
      destruct s as [|x s]; simpl; [exact Hq|].
      apply Forall_app. split; [exact Hq | repeat constructor; discriminate].
    + inversion E; subst. simpl.
      apply Forall_app. split; [exact Hq | repeat constructor; discriminate].
Qed.

Lemma queue_never_holds_empty_segment_witness :
  exists sp',
    fst (force_segment (set_min_speech_frames_zero tiny)) = Return (Some [])
    /\ calls scripted_vad [ForceProcessCurrent; StopProcessing]
         (fresh (set_min_speech_frames_zero tiny)) = Some sp'
    /\ Forall (fun x => x <> Some []) (processing_queue sp').
Proof.
  eexists. split; [reflexivity|]. split; [reflexivity|].
  apply (queue_never_holds_empty_segment scripted_vad
           [ForceProcessCurrent; StopProcessing]
           (fresh (set_min_speech_frames_zero tiny))).
  - constructor.
  - reflexivity.
Defined.

End StreamingFacts.

(** * The synthesis service around the loop *)
Section T2VSession.
Import T2V.

Lemma synthesize_text_connected sent cb script :
  forall e, snd (synthesize_text true sent cb script) <> Some (Raise e).
Proof.
  intros e. unfold synthesize_text. simpl. destruct sent; simpl;
    [|discriminate].
  destruct (receive cb initial script) as [[calls st] [| |]]; discriminate.
Qed.

(** X28.  [text_to_speech] does not look at the handshake.  When the
    socket cannot be opened it returns nothing at once, without a
    callback.  When the socket opens, the greeting and the acknowledgement
    of [task_start] make no difference, whether they are refusals, are
    missing or raise: the calls made and the result are those of
    [synthesize_text] on the stream that follows.  Whenever it returns, it
    returns a value, never an exception, and the client it used is
    closed. *)
Theorem text_to_speech_ignores_handshake cb env :
  text_to_speech cb env
  = (if opened env then
       (fst (synthesize_text true (text_sent env) cb (stream env)),
        match snd (synthesize_text true (text_sent env) cb (stream env)) with
        | Some r => if closes env then Some (r, new_client) else None
        | None => None
        end)
     else ([], Some (Return None, new_client)))
  /\ forall r c,
       snd (text_to_speech cb env) = Some (r, c) ->
       (exists a, r = Return a) /\ c = new_client.
Proof.
  assert (H : text_to_speech cb env
              = (if opened env then
                   (fst (synthesize_text true (text_sent env) cb (stream env)),
                    match snd (synthesize_text true (text_sent env) cb
                                 (stream env)) with
                    | Some r => if closes env then Some (r, new_client)
                                else None
                    | None => None
                    end)
                 else ([], Some (Return None, new_client)))).
  { unfold text_to_speech, connect, start_task.
    destruct (opened env); simpl; [|reflexivity].
    pose proof (synthesize_text_connected (text_sent env) cb (stream env))
      as Hnr.
    assert (Hw : forall g, websocket
                   (snd (match g with
                         | Replied event session =>
                             if bool_decide (event = Some "connected_success")
                             then (true, {| websocket := true;
                                            session_id := session |})
                             else (false, {| websocket := true;
                                             session_id := None |})
                         | ReplyRaises _ =>
                             (false, {| websocket := true;
                                        session_id := None |})
                         end)) = true).
    { intros [ev ss|e]; [case_bool_decide|]; reflexivity. }
    rewrite Hw. simpl.
    assert (Hret : exists b,
               (if negb (start_sent env) then Return false
                else match start_ack env with
                     | Replied event _ =>
                         Return (bool_decide (event = Some "task_started"))
                     | ReplyRaises _ => Return false
                     end) = Return b).
    { destruct (start_sent env); simpl; [|eauto].
      destruct (start_ack env); eauto. }
    destruct Hret as [b ->].
    destruct (synthesize_text true (text_sent env) cb (stream env))
      as [calls [[a|e]|]]; simpl in *.
    - unfold close. rewrite Hw. reflexivity.
    - exfalso. exact (Hnr e eq_refl).
    - reflexivity. }
  split; [exact H|]. rewrite H. intros r c.
  pose proof (synthesize_text_connected (text_sent env) cb (stream env))
    as Hnr.
  destruct (opened env); simpl.
  - destruct (snd (synthesize_text true (text_sent env) cb (stream env)))
      as [[a|e]|]; [| exfalso; exact (Hnr e eq_refl) | discriminate].
    destruct (closes env); [|discriminate].
    intros Heq; inversion Heq; subst. eauto.
  - intros Heq; inversion Heq; subst. eauto.
Qed.

End T2VSession.

(** * The order of the pending queue *)
Section QueueOrder.
Import PyStr Queue.

Lemma StronglySorted_lt_lookup (q : list nat) : forall a b i j,
  StronglySorted lt q ->
  q !! a = Some i -> q !! b = Some j -> (a < b)%nat -> (i < j)%nat.
Proof.
  induction q as [|x q IH]; intros a b i j Hs Ha Hb Hab; [discriminate|].
  apply StronglySorted_cons in Hs as [Hall Hs].
  destruct b as [|b]; [lia|]. simpl in Hb.
  destruct a as [|a]; simpl in Ha.
  - inversion Ha; subst. rewrite Forall_forall in Hall.
    apply Hall. eapply list_elem_of_lookup_2; eauto.
  - eapply IH; eauto. lia.
Qed.

(** X29.  The pending queue is first in, first out as long as the calls of
    [add_task] do not overlap.  In every state reached from a fresh queue
    no task waits twice in the queue, and every task in it is PENDING and
    has not been started.  When moreover each call of [add_task] was made
    while no earlier one was suspended, the tasks wait in the order of
    their creation: along the queue the creation times do not decrease, so
    the task a worker takes next, the head, is one that has waited
    longest. *)
Theorem pending_queue_is_fifo mc dt now tc ac acc ec actions s a b i j :
  run actions (configured mc dt now tc ac acc ec) = Some s ->
  pending_queue s !! a = Some i ->
  pending_queue s !! b = Some j ->
  (a < b)%nat ->
  i <> j
  /\ exists ti tj,
       tasks s !! i = Some ti /\ tasks s !! j = Some tj
       /\ status ti = PENDING /\ status tj = PENDING
       /\ started_at ti = None /\ started_at tj = None
       /\ (serial actions (configured mc dt now tc ac acc ec) = true ->
           (created_at ti <= created_at tj)%Q).
Proof.
  intros Hrun Ha Hb Hab.
  pose proof (wf_run _ _ _ _ _ _ _ _ _ Hrun) as Hwf.
  assert (Hq : forall x, x ∈ pending_queue s -> x ∈ waiting s).
  { intros x Hx. unfold waiting. apply elem_of_app. left. exact Hx. }
  destruct (wf_queued _ _ _ _ _ Hwf i) as (ti & Hti & Hpi);
    [eapply Hq, list_elem_of_lookup_2; eauto|].
  destruct (wf_queued _ _ _ _ _ Hwf j) as (tj & Htj & Hpj);
    [eapply Hq, list_elem_of_lookup_2; eauto|].
  destruct (wf_tasks _ _ _ _ _ Hwf _ _ Hti) as (_ & _ & _ & _ & _ & H5i).
  destruct (wf_tasks _ _ _ _ _ Hwf _ _ Htj) as (_ & _ & _ & _ & _ & H5j).
  split.
  - pose proof (wf_nodup _ _ _ _ _ Hwf) as Hn. unfold waiting in Hn.
    apply NoDup_app in Hn as (Hn & _ & _). intros ->.
    pose proof (NoDup_lookup _ _ _ _ Hn Ha Hb). lia.
  - exists ti, tj. repeat split; auto; try (apply H5i; exact Hpi);
      try (apply H5j; exact Hpj).
    intros Hser.
    destruct (in_series_run actions _ _
                (wf_configured mc dt now tc ac acc ec)
                (tracked_configured mc dt now tc ac acc ec)
                (in_series_configured mc dt now tc ac acc ec) Hrun Hser)
      as (_ & _ & _ & Hsort & _).
    pose proof (StronglySorted_lt_lookup _ _ _ _ _ Hsort Ha Hb Hab).
    eapply (wf_ages _ _ _ _ _ Hwf); eauto. lia.
Qed.

Lemma pending_queue_is_fifo_witness :
  exists s ti tj,
    run [enqueue hello; Tick 1; enqueue bonjour]
      (configured 3 45 1000 true false true true) = Some s
    /\ pending_queue s !! 0%nat = Some 0%nat
    /\ pending_queue s !! 1%nat = Some 1%nat
    /\ tasks s !! 0%nat = Some ti /\ tasks s !! 1%nat = Some tj
    /\ (created_at ti <= created_at tj)%Q.
Proof.
  destruct (run [enqueue hello; Tick 1; enqueue bonjour]
              (configured 3 45 1000 true false true true))
    as [s|] eqn:E; [|vm_compute in E; discriminate E].
  assert (Hq : pending_queue s = [0%nat; 1%nat]).
  { assert (H : pending_queue <$> Some s = Some [0%nat; 1%nat])
      by (rewrite <- E; vm_compute; reflexivity).
    injection H as H. exact H. }
  assert (H0 : pending_queue s !! 0%nat = Some 0%nat)
    by (rewrite Hq; reflexivity).
  assert (H1 : pending_queue s !! 1%nat = Some 1%nat)
    by (rewrite Hq; reflexivity).
  destruct (pending_queue_is_fifo 3 45 1000 true false true true
              [enqueue hello; Tick 1; enqueue bonjour] s
              0%nat 1%nat 0%nat 1%nat E H0 H1 ltac:(lia))
    as (_ & ti & tj & Hti & Htj & _ & _ & _ & _ & Hage).
  exists s, ti, tj. repeat split; try assumption.
  apply Hage. vm_compute. reflexivity.
Defined.

End QueueOrder.
